(** * Nested diff: a shallow embedding of [nested_diff/__init__.py]

    The development follows the Python module top to bottom: the data the
    functions work on (JSON-like values and diff nodes), the two library
    routines the differ leans on ([pickle.dumps] and
    [difflib.SequenceMatcher]), the [Differ] class with its four methods, and
    the [patch] function.

    Values are finite trees: no container is reachable along two paths, so
    the in-place updates of [patch] coincide with functional updates of
    the value.  The store-level behaviour of [Differ.diff] (which objects it
    allocates and which it writes to) is modelled separately in [Module
    Store]. *)

From Stdlib Require Import List ZArith String Ascii Bool Arith Lia Sorted.
Import ListNotations.

Set Warnings "-register-all".
Local Open Scope string_scope.
Local Open Scope list_scope.
Local Open Scope nat_scope.

(** ** Values *)

(** The objects the engine is run on: [None], booleans, integers, strings,
    lists and string-keyed dicts.  A dict is kept as its list of items in
    insertion order, which is what iteration and pickling observe. *)
Inductive value : Type :=
| VNone
| VBool (b : bool)
| VInt (z : Z)
| VStr (s : string)
| VList (l : list value)
| VDict (d : list (string * value)).

Section ValueInd.
Variable P : value -> Prop.
Hypothesis HNone : P VNone.
Hypothesis HBool : forall b, P (VBool b).
Hypothesis HInt : forall z, P (VInt z).
Hypothesis HStr : forall s, P (VStr s).
Hypothesis HList : forall l, Forall P l -> P (VList l).
Hypothesis HDict : forall d, Forall (fun e => P (snd e)) d -> P (VDict d).

Fixpoint value_rect' (v : value) : P v :=
  match v with
  | VNone => HNone
  | VBool b => HBool b
  | VInt z => HInt z
  | VStr s => HStr s
  | VList l =>
      HList l ((fix go (l : list value) : Forall P l :=
                  match l with
                  | [] => Forall_nil _
                  | x :: t => Forall_cons x (value_rect' x) (go t)
                  end) l)
  | VDict d =>
      HDict d ((fix go (d : list (string * value))
                  : Forall (fun e => P (snd e)) d :=
                  match d with
                  | [] => Forall_nil _
                  | e :: t =>
                      Forall_cons (P := fun e => P (snd e)) e
                                  (value_rect' (snd e)) (go t)
                  end) d)
  end.
End ValueInd.

(** [key in d] and [d[key]] on a dict. *)
Fixpoint lookup {X : Type} (key : string) (d : list (string * X)) : option X :=
  match d with
  | [] => None
  | (k, x) :: t => if String.eqb k key then Some x else lookup key t
  end.

Definition keys {X : Type} (d : list (string * X)) : list string := map fst d.

(** [d[key] = x]: overwrite in place, or append a new item. *)
Fixpoint dict_set {X : Type} (d : list (string * X)) (key : string) (x : X)
  : list (string * X) :=
  match d with
  | [] => [(key, x)]
  | (k, y) :: t =>
      if String.eqb k key then (k, x) :: t else (k, y) :: dict_set t key x
  end.

(** [del d[key]] (the caller checks that the key is present). *)
Fixpoint dict_del {X : Type} (d : list (string * X)) (key : string)
  : list (string * X) :=
  match d with
  | [] => []
  | (k, y) :: t => if String.eqb k key then t else (k, y) :: dict_del t key
  end.

(** Python's [==] on these objects.  [bool] is a subclass of [int], so
    [True == 1]; lists compare by length and position; dicts compare by
    size and then key by key (CPython's [dict_equal]). *)
Fixpoint py_eq (a b : value) : bool :=
  match a, b with
  | VNone, VNone => true
  | VBool x, VBool y => Bool.eqb x y
  | VBool x, VInt y => Z.eqb (Z.b2z x) y
  | VInt x, VBool y => Z.eqb x (Z.b2z y)
  | VInt x, VInt y => Z.eqb x y
  | VStr x, VStr y => String.eqb x y
  | VList la, VList lb =>
      (fix go (la lb : list value) : bool :=
         match la, lb with
         | [], [] => true
         | x :: la', y :: lb' => py_eq x y && go la' lb'
         | _, _ => false
         end) la lb
  | VDict da, VDict db =>
      Nat.eqb (List.length da) (List.length db) &&
      (fix go (da : list (string * value)) : bool :=
         match da with
         | [] => true
         | (k, v) :: da' =>
             match lookup k db with
             | Some w => py_eq v w
             | None => false
             end && go da'
         end) da
  | _, _ => false
  end.

(** The two inner loops of [py_eq], named. *)
Fixpoint list_eq (la lb : list value) : bool :=
  match la, lb with
  | [], [] => true
  | x :: la', y :: lb' => py_eq x y && list_eq la' lb'
  | _, _ => false
  end.

Fixpoint entries_eq (da db : list (string * value)) : bool :=
  match da with
  | [] => true
  | (k, v) :: da' =>
      match lookup k db with
      | Some w => py_eq v w
      | None => false
      end && entries_eq da' db
  end.

(** A dict has no repeated key; [wf] asks this of every dict in a value. *)
Fixpoint nodup_keys (ks : list string) : bool :=
  match ks with
  | [] => true
  | k :: t => negb (existsb (String.eqb k) t) && nodup_keys t
  end.

Fixpoint wf (v : value) : bool :=
  match v with
  | VList l => forallb wf l
  | VDict d =>
      nodup_keys (map fst d) &&
      (fix go (d : list (string * value)) : bool :=
         match d with
         | [] => true
         | (_, x) :: t => wf x && go t
         end) d
  | _ => true
  end.

Fixpoint wf_entries (d : list (string * value)) : bool :=
  match d with
  | [] => true
  | (_, x) :: t => wf x && wf_entries t
  end.

(** Nesting depth, the measure along which [Differ.diff] recurses. *)
Fixpoint depth (v : value) : nat :=
  match v with
  | VList l => S (fold_right (fun x m => Nat.max (depth x) m) 0 l)
  | VDict d =>
      S ((fix go (d : list (string * value)) : nat :=
            match d with
            | [] => 0
            | (_, x) :: t => Nat.max (depth x) (go t)
            end) d)
  | _ => 0
  end.

Fixpoint depth_entries (d : list (string * value)) : nat :=
  match d with
  | [] => 0
  | (_, x) :: t => Nat.max (depth x) (depth_entries t)
  end.

(** ** [pickle.dumps]

    [Differ.diff_lists] hands [SequenceMatcher] the pickles of the list
    items, [dumps(i, -1)], so that unhashable items can be matched.  A
    pickle is a program for a stack machine; it is kept here as its
    sequence of opcodes (protocol 2 and later), with the integer and string
    arguments unencoded.  Memo opcodes are left out: they are emitted for
    bookkeeping and read back only when one object is pickled twice, which
    a tree never asks for. *)
Inductive opcode : Type :=
| PROTO
| NONE
| NEWTRUE
| NEWFALSE
| BININT (z : Z)
| BINUNICODE (s : string)
| EMPTY_LIST
| EMPTY_DICT
| MARK
| APPEND
| APPENDS
| SETITEM
| SETITEMS
| STOP.

Definition opcode_eq_dec (x y : opcode) : {x = y} + {x <> y}.
Proof. decide equality; [apply Z.eq_dec | apply string_dec]. Defined.

Definition pickle : Type := list opcode.

Definition pickle_eqb (p q : pickle) : bool :=
  if list_eq_dec opcode_eq_dec p q then true else false.

(** [Pickler.save]: scalars are one opcode; a container is its empty
    constructor followed by its items in iteration order, a single item
    with [APPEND]/[SETITEM], several between [MARK] and
    [APPENDS]/[SETITEMS]. *)
Fixpoint save (v : value) : pickle :=
  match v with
  | VNone => [NONE]
  | VBool true => [NEWTRUE]
  | VBool false => [NEWFALSE]
  | VInt z => [BININT z]
  | VStr s => [BINUNICODE s]
  | VList l =>
      EMPTY_LIST ::
      match l with
      | [] => []
      | [x] => save x ++ [APPEND]
      | _ =>
          MARK ::
          (fix go (l : list value) : pickle :=
             match l with
             | [] => []
             | x :: t => save x ++ go t
             end) l ++ [APPENDS]
      end
  | VDict d =>
      EMPTY_DICT ::
      match d with
      | [] => []
      | [(k, x)] => BINUNICODE k :: save x ++ [SETITEM]
      | _ =>
          MARK ::
          (fix go (d : list (string * value)) : pickle :=
             match d with
             | [] => []
             | (k, x) :: t => BINUNICODE k :: save x ++ go t
             end) d ++ [SETITEMS]
      end
  end.

Fixpoint save_items (l : list value) : pickle :=
  match l with
  | [] => []
  | x :: t => save x ++ save_items t
  end.

Fixpoint save_entries (d : list (string * value)) : pickle :=
  match d with
  | [] => []
  | (k, x) :: t => BINUNICODE k :: save x ++ save_entries t
  end.

Definition dumps (v : value) : pickle := PROTO :: save v ++ [STOP].

(** [pickle.loads], the unpickler's stack machine, on the same opcodes. *)
Inductive slot : Type :=
| SVal (v : value)
| SMark.

(** Pop the stack down to the topmost mark; the popped items come back in
    the order they were pushed. *)
Fixpoint pop_mark (stack : list slot) (acc : list value)
  : option (list value * list slot) :=
  match stack with
  | [] => None
  | SMark :: rest => Some (acc, rest)
  | SVal v :: rest => pop_mark rest (v :: acc)
  end.

Fixpoint pair_up (items : list value) : option (list (string * value)) :=
  match items with
  | [] => Some []
  | VStr k :: x :: t =>
      match pair_up t with
      | Some d => Some ((k, x) :: d)
      | None => None
      end
  | _ => None
  end.

Definition step (op : opcode) (stack : list slot) : option (list slot) :=
  match op with
  | PROTO => Some stack
  | NONE => Some (SVal VNone :: stack)
  | NEWTRUE => Some (SVal (VBool true) :: stack)
  | NEWFALSE => Some (SVal (VBool false) :: stack)
  | BININT z => Some (SVal (VInt z) :: stack)
  | BINUNICODE s => Some (SVal (VStr s) :: stack)
  | EMPTY_LIST => Some (SVal (VList []) :: stack)
  | EMPTY_DICT => Some (SVal (VDict []) :: stack)
  | MARK => Some (SMark :: stack)
  | APPEND =>
      match stack with
      | SVal x :: SVal (VList l) :: rest => Some (SVal (VList (l ++ [x])) :: rest)
      | _ => None
      end
  | APPENDS =>
      match pop_mark stack [] with
      | Some (items, SVal (VList l) :: rest) =>
          Some (SVal (VList (l ++ items)) :: rest)
      | _ => None
      end
  | SETITEM =>
      match stack with
      | SVal x :: SVal (VStr k) :: SVal (VDict d) :: rest =>
          Some (SVal (VDict (dict_set d k x)) :: rest)
      | _ => None
      end
  | SETITEMS =>
      match pop_mark stack [] with
      | Some (items, SVal (VDict d) :: rest) =>
          match pair_up items with
          | Some es =>
              Some (SVal (VDict (fold_left (fun d e => dict_set d (fst e) (snd e))
                                           es d)) :: rest)
          | None => None
          end
      | _ => None
      end
  | STOP => Some stack
  end.

Fixpoint run (p : pickle) (stack : list slot) : option (list slot) :=
  match p with
  | [] => Some stack
  | op :: p' =>
      match step op stack with
      | Some stack' => run p' stack'
      | None => None
      end
  end.

Definition loads (p : pickle) : option value :=
  match run p [] with
  | Some [SVal v] => Some v
  | _ => None
  end.

(** ** [difflib.SequenceMatcher]

    The matcher is built with [isjunk=None, autojunk=False]: no element is
    junk and none is dropped for being popular.  Its elements are compared
    with [==] (here [eqb]); the differ feeds it pickles. *)
Section SequenceMatcher.
Context {X : Type} (eqb : X -> X -> bool).

Definition Match : Type := (nat * nat * nat)%type.

(** [b2j[elt]]: the indices of [elt] in [b], in increasing order. *)
Fixpoint indices (elt : X) (b : list X) (j : nat) : list nat :=
  match b with
  | [] => []
  | y :: b' =>
      if eqb y elt then j :: indices elt b' (S j) else indices elt b' (S j)
  end.

Definition b2j (b : list X) (elt : X) : list nat := indices elt b 0.

(** [j2len.get(j-1, 0)]; the table has no negative key. *)
Fixpoint j2len_get (j2len : list (nat * nat)) (j : nat) : nat :=
  match j2len with
  | [] => 0
  | (j', k) :: t => if Nat.eqb j' j then k else j2len_get t j
  end.

Definition j2len_prev (j2len : list (nat * nat)) (j : nat) : nat :=
  match j with
  | 0 => 0
  | S j' => j2len_get j2len j'
  end.

(** The inner loop of [find_longest_match], over the positions of [a[i]]
    in [b]: skip those before [blo], stop at the first one from [bhi] on,
    and record a strictly longer run when one ends here. *)
Fixpoint scan_row (i blo bhi : nat) (j2len : list (nat * nat))
         (js : list nat) (newj2len : list (nat * nat)) (best : Match)
  : list (nat * nat) * Match :=
  match js with
  | [] => (newj2len, best)
  | j :: js' =>
      if j <? blo then scan_row i blo bhi j2len js' newj2len best
      else if bhi <=? j then (newj2len, best)
      else
        let k := j2len_prev j2len j + 1 in
        let '(besti, bestj, bestsize) := best in
        scan_row i blo bhi j2len js' ((j, k) :: newj2len)
                 (if bestsize <? k then (i + 1 - k, j + 1 - k, k)
                  else (besti, bestj, bestsize))
  end.

(** The outer loop, [for i in range(alo, ahi)]. *)
Fixpoint scan_rows (a b : list X) (blo bhi : nat) (rows : list nat)
         (j2len : list (nat * nat)) (best : Match) : Match :=
  match rows with
  | [] => best
  | i :: rows' =>
      let js := match nth_error a i with
                | Some elt => b2j b elt
                | None => []
                end in
      let '(newj2len, best') := scan_row i blo bhi j2len js [] best in
      scan_rows a b blo bhi rows' newj2len best'
  end.

Definition nth_eqb (a b : list X) (i j : nat) : bool :=
  match nth_error a i, nth_error b j with
  | Some x, Some y => eqb x y
  | _, _ => false
  end.

(** The two loops that grow the block over matching neighbours (with no
    junk, the last two loops of [find_longest_match] never run). *)
Fixpoint extend_left (fuel : nat) (a b : list X) (alo blo : nat) (m : Match)
  : Match :=
  match fuel with
  | 0 => m
  | S fuel' =>
      let '(besti, bestj, bestsize) := m in
      if (alo <? besti) && (blo <? bestj)
         && nth_eqb a b (besti - 1) (bestj - 1)
      then extend_left fuel' a b alo blo (besti - 1, bestj - 1, bestsize + 1)
      else m
  end.

Fixpoint extend_right (fuel : nat) (a b : list X) (ahi bhi : nat) (m : Match)
  : Match :=
  match fuel with
  | 0 => m
  | S fuel' =>
      let '(besti, bestj, bestsize) := m in
      if (besti + bestsize <? ahi) && (bestj + bestsize <? bhi)
         && nth_eqb a b (besti + bestsize) (bestj + bestsize)
      then extend_right fuel' a b ahi bhi (besti, bestj, bestsize + 1)
      else m
  end.

Definition find_longest_match (a b : list X) (alo ahi blo bhi : nat) : Match :=
  let best := scan_rows a b blo bhi (seq alo (ahi - alo)) [] (alo, blo, 0) in
  let best := extend_left (fst (fst best) - alo) a b alo blo best in
  extend_right (ahi - (fst (fst best) + snd best)) a b ahi bhi best.

(** The work list of [get_matching_blocks]: pop a pair of ranges, record
    its longest block, push what lies left and right of it. *)
Fixpoint blocks_loop (fuel : nat) (a b : list X)
         (queue : list (nat * nat * nat * nat)) (matching_blocks : list Match)
  : option (list Match) :=
  match queue with
  | [] => Some matching_blocks
  | _ =>
      match fuel with
      | 0 => None
      | S fuel' =>
          let '(alo, ahi, blo, bhi) := last queue (0, 0, 0, 0) in
          let queue := removelast queue in
          let '(i, j, k) := find_longest_match a b alo ahi blo bhi in
          if Nat.eqb k 0 then blocks_loop fuel' a b queue matching_blocks
          else
            let queue :=
              if (alo <? i) && (blo <? j) then queue ++ [(alo, i, blo, j)]
              else queue in
            let queue :=
              if (i + k <? ahi) && (j + k <? bhi)
              then queue ++ [(i + k, ahi, j + k, bhi)]
              else queue in
            blocks_loop fuel' a b queue (matching_blocks ++ [(i, j, k)])
      end
  end.

(** [matching_blocks.sort()]: tuples order lexicographically. *)
Definition match_leb (x y : Match) : bool :=
  let '(i1, j1, k1) := x in
  let '(i2, j2, k2) := y in
  (i1 <? i2) || (Nat.eqb i1 i2 && ((j1 <? j2) || (Nat.eqb j1 j2 && (k1 <=? k2)))).

Fixpoint insert_sorted (x : Match) (l : list Match) : list Match :=
  match l with
  | [] => [x]
  | y :: t => if match_leb x y then x :: y :: t else y :: insert_sorted x t
  end.

Definition sort_blocks (l : list Match) : list Match :=
  fold_right insert_sorted [] l.

(** Collapse adjacent blocks; the state is the pending block
    [(i1, j1, k1)] and the blocks already written out. *)
Fixpoint collapse (blocks : list Match) (cur : Match)
         (non_adjacent : list Match) : list Match :=
  let '(i1, j1, k1) := cur in
  match blocks with
  | [] => if Nat.eqb k1 0 then non_adjacent else non_adjacent ++ [cur]
  | (i2, j2, k2) :: t =>
      if Nat.eqb (i1 + k1) i2 && Nat.eqb (j1 + k1) j2
      then collapse t (i1, j1, k1 + k2) non_adjacent
      else collapse t (i2, j2, k2)
             (if Nat.eqb k1 0 then non_adjacent else non_adjacent ++ [cur])
  end.

(** A block is found for every pop that pushes, and every push is a
    strictly shorter range, so [2 * len(a) + 2] pops always empty the
    queue (lemma [blocks_loop_terminates]); the [None] branch is dead. *)
Definition get_matching_blocks (a b : list X) : list Match :=
  let la := List.length a in
  let lb := List.length b in
  let found := match blocks_loop (2 * la + 2) a b [(0, la, 0, lb)] [] with
               | Some l => l
               | None => []
               end in
  collapse (sort_blocks found) (0, 0, 0) [] ++ [(la, lb, 0)].
End SequenceMatcher.

(** ** Diff nodes *)

(** What a ['D'] key can hold: a dict of subdiffs, a list of subdiffs, or
    (in a diff that did not come from [Differ]) anything else. *)
Inductive payload (X : Type) : Type :=
| PDict (entries : list (string * X))
| PList (items : list X)
| POther (v : value).

Arguments PDict {X} entries.
Arguments PList {X} items.
Arguments POther {X} v.

(** A diff is a dict with keys among [A D I N O R U]; each field below is
    [Some] when the key is present. *)
Inductive node : Type :=
  Node { key_A : option value;
         key_D : option (payload node);
         key_I : option Z;
         key_N : option value;
         key_O : option value;
         key_R : option value;
         key_U : option value }.

Definition empty_node : node := Node None None None None None None None.

Definition has {X : Type} (field : option X) : bool :=
  match field with
  | Some _ => true
  | None => false
  end.

(** Truth value of a diff, [if subdiff:], is that of a dict: non-empty. *)
Definition truthy (n : node) : bool :=
  has (key_A n) || has (key_D n) || has (key_I n) || has (key_N n)
  || has (key_O n) || has (key_R n) || has (key_U n).

Definition set_A (n : node) (v : value) : node :=
  Node (Some v) (key_D n) (key_I n) (key_N n) (key_O n) (key_R n) (key_U n).
Definition set_D (n : node) (p : payload node) : node :=
  Node (key_A n) (Some p) (key_I n) (key_N n) (key_O n) (key_R n) (key_U n).
Definition set_I (n : node) (i : Z) : node :=
  Node (key_A n) (key_D n) (Some i) (key_N n) (key_O n) (key_R n) (key_U n).
Definition set_N (n : node) (v : value) : node :=
  Node (key_A n) (key_D n) (key_I n) (Some v) (key_O n) (key_R n) (key_U n).
Definition set_O (n : node) (v : value) : node :=
  Node (key_A n) (key_D n) (key_I n) (key_N n) (Some v) (key_R n) (key_U n).
Definition set_R (n : node) (v : value) : node :=
  Node (key_A n) (key_D n) (key_I n) (key_N n) (key_O n) (Some v) (key_U n).
Definition set_U (n : node) (v : value) : node :=
  Node (key_A n) (key_D n) (key_I n) (key_N n) (key_O n) (key_R n) (Some v).
Definition del_D (n : node) : node :=
  Node (key_A n) None (key_I n) (key_N n) (key_O n) (key_R n) (key_U n).

(** ** [class Differ] *)

(** The toggles set by [__init__]; the matcher it also creates carries no
    state from one [diff_lists] call to the next, both sequences being set
    anew each time. *)
Record Differ : Type :=
  { op_a : bool;
    op_n : bool;
    op_o : bool;
    op_r : bool;
    op_u : bool;
    op_trim_r : bool }.

(** [Differ()]: every operation on, nothing trimmed. *)
Definition default_Differ : Differ := Build_Differ true true true true true false.

Section Methods.
Variable self : Differ.
(** The recursive call [self.diff]. *)
Variable self_diff : value -> value -> node.

Definition get_default_diff (a b : value) : node :=
  let ret := empty_node in
  let ret := if op_n self then set_N ret b else ret in
  if op_o self then set_O ret a else ret.

(** [set(list(a) + list(b))]: each key once (the order in which a set
    yields them is not specified; dicts compare the same in any order). *)
Definition union_keys (a b : list (string * value)) : list string :=
  nodup string_dec (keys a ++ keys b).

(** One turn of the loop of [diff_dicts], on the dict [ret['D']]. *)
Definition diff_dicts_step (a b : list (string * value))
           (retD : list (string * node)) (key : string)
  : list (string * node) :=
  match lookup key a, lookup key b with
  | Some av, Some bv =>
      if py_eq av bv then
        if op_u self then dict_set retD key (set_U empty_node av) else retD
      else
        let subdiff := self_diff av bv in
        if truthy subdiff then dict_set retD key subdiff else retD
  | Some av, None =>
      if op_r self
      then dict_set retD key
             (set_R empty_node (if op_trim_r self then VNone else av))
      else retD
  | None, Some bv =>
      if op_a self then dict_set retD key (set_A empty_node bv) else retD
  | None, None => retD
  end.

Definition diff_dicts_with (a b : list (string * value)) : node :=
  let retD := fold_left (diff_dicts_step a b) (union_keys a b) [] in
  match retD with
  | [] => empty_node
  | _ => set_D empty_node (PDict retD)
  end.

(** The local variables of [diff_lists]. *)
Record walk : Type :=
  { ret_D : list node;
    cur_i : nat;
    cur_j : nat;
    force_index : bool }.

(** [ret['D'].append(x)] followed by the [if force_index:] that tags the
    appended diff with the index and clears the flag. *)
Definition emit (w : walk) (x : node) : walk :=
  {| ret_D := ret_D w ++ [if force_index w then set_I x (Z.of_nat (cur_i w))
                          else x];
     cur_i := cur_i w;
     cur_j := cur_j w;
     force_index := false |}.

Definition omit (w : walk) : walk :=
  {| ret_D := ret_D w; cur_i := cur_i w; cur_j := cur_j w;
     force_index := true |}.

Definition advance (di dj : nat) (w : walk) : walk :=
  {| ret_D := ret_D w; cur_i := cur_i w + di; cur_j := cur_j w + dj;
     force_index := force_index w |}.

(** [while i < ai and j < bj:] *)
Fixpoint while_changed (fuel : nat) (a b : list value) (ai bj : nat)
         (w : walk) : walk :=
  match fuel with
  | 0 => w
  | S fuel' =>
      if (cur_i w <? ai) && (cur_j w <? bj) then
        let subdiff := self_diff (nth (cur_i w) a VNone) (nth (cur_j w) b VNone) in
        while_changed fuel' a b ai bj
          (advance 1 1 (if truthy subdiff then emit w subdiff else omit w))
      else w
  end.

(** [while i < ai:  # removed] *)
Fixpoint while_removed (fuel : nat) (a : list value) (ai : nat) (w : walk)
  : walk :=
  match fuel with
  | 0 => w
  | S fuel' =>
      if cur_i w <? ai then
        while_removed fuel' a ai
          (advance 1 0
             (if op_r self
              then emit w (set_R empty_node
                             (if op_trim_r self then VNone
                              else nth (cur_i w) a VNone))
              else omit w))
      else w
  end.

(** [while j < bj:  # added] *)
Fixpoint while_added (fuel : nat) (b : list value) (bj : nat) (w : walk)
  : walk :=
  match fuel with
  | 0 => w
  | S fuel' =>
      if cur_j w <? bj then
        while_added fuel' b bj
          (advance 0 1
             (if op_a self
              then emit w (set_A empty_node (nth (cur_j w) b VNone))
              else omit w))
      else w
  end.

(** The body of [for ai, bj, _ in self.lcs.get_matching_blocks():].  Each
    loop is given as many turns as its cursor is away from its bound. *)
Definition walk_block (a b : list value) (w : walk) (blk : nat * nat * nat)
  : walk :=
  let '(ai, bj, _) := blk in
  let w := while_changed (ai - cur_i w) a b ai bj w in
  let w := while_removed (ai - cur_i w) a ai w in
  while_added (bj - cur_j w) b bj w.

Definition walk_blocks (a b : list value) (blocks : list (nat * nat * nat))
  : walk :=
  fold_left (walk_block a b) blocks
            {| ret_D := []; cur_i := 0; cur_j := 0; force_index := false |}.

Definition lcs_blocks (a b : list value) : list (nat * nat * nat) :=
  get_matching_blocks pickle_eqb (map dumps a) (map dumps b).

Definition diff_lists_with (a b : list value) : node :=
  match ret_D (walk_blocks a b (lcs_blocks a b)) with
  | [] => empty_node
  | retD => set_D empty_node (PList retD)
  end.
End Methods.

(** [Differ.diff], the dispatcher.  The recursion descends into items of
    [a], so [depth a] bounds it; [diff] below starts with one more. *)
Fixpoint diff_rec (fuel : nat) (self : Differ) (a b : value) : node :=
  match fuel with
  | 0 => empty_node
  | S fuel' =>
      if py_eq a b then
        if op_u self then set_U empty_node a else empty_node
      else
        match a, b with
        | VDict da, VDict db => diff_dicts_with self (diff_rec fuel' self) da db
        | VList la, VList lb => diff_lists_with self (diff_rec fuel' self) la lb
        | _, _ => get_default_diff self a b
        end
  end.

Definition diff (self : Differ) (a b : value) : node :=
  diff_rec (S (depth a)) self a b.

Definition diff_dicts (self : Differ) (a b : list (string * value)) : node :=
  diff_dicts_with self (diff self) a b.

Definition diff_lists (self : Differ) (a b : list value) : node :=
  diff_lists_with self (diff self) a b.

(** ** [patch] *)

(** The exceptions [patch] can end with. *)
Inductive error : Type :=
| NotImplementedError
| KeyError
| IndexError
| TypeError
| AttributeError.

Inductive result (X : Type) : Type :=
| Ok (x : X)
| Raise (e : error).

Arguments Ok {X} x.
Arguments Raise {X} e.

Definition bind {X Y : Type} (r : result X) (f : X -> result Y) : result Y :=
  match r with
  | Ok x => f x
  | Raise e => Raise e
  end.

Notation "x <- r ;; k" := (bind r (fun x => k))
  (at level 61, r at next level, right associativity).

(** List indexing: a negative index counts from the end; what still falls
    outside the list is an [IndexError]. *)
Definition norm_index (len : nat) (i : Z) : option nat :=
  let i := if (i <? 0)%Z then (i + Z.of_nat len)%Z else i in
  if (i <? 0)%Z || (Z.of_nat len <=? i)%Z then None else Some (Z.to_nat i).

Fixpoint list_set {X : Type} (l : list X) (n : nat) (x : X) : list X :=
  match l, n with
  | [], _ => []
  | _ :: t, 0 => x :: t
  | y :: t, S n' => y :: list_set t n' x
  end.

Fixpoint list_del {X : Type} (l : list X) (n : nat) : list X :=
  match l, n with
  | [], _ => []
  | _ :: t, 0 => t
  | y :: t, S n' => y :: list_del t n'
  end.

(** [list.insert] never fails: the index is clipped to the list. *)
Definition list_insert {X : Type} (l : list X) (i : Z) (x : X) : list X :=
  let len := Z.of_nat (List.length l) in
  let i := if (i <? 0)%Z then Z.max 0 (i + len) else Z.min i len in
  firstn (Z.to_nat i) l ++ x :: skipn (Z.to_nat i) l.

(** [s[i]] on a string is the one-character string at [i]. *)
Definition str_index (s : string) (i : Z) : option string :=
  match norm_index (String.length s) i with
  | Some n => Some (String.substring n 1 s)
  | None => None
  end.

(** [target[key] = patch(target[key], subdiff)] with a string key: the item
    is read, patched, and stored back.  Only a dict takes string keys. *)
Definition patch_key (rec : value -> result value) (target : value)
           (key : string) : result value :=
  match target with
  | VDict d =>
      match lookup key d with
      | Some old => new <- rec old ;; Ok (VDict (dict_set d key new))
      | None => Raise KeyError
      end
  | _ => Raise TypeError
  end.

(** [target[key] = value] *)
Definition set_key (target : value) (key : string) (v : value) : result value :=
  match target with
  | VDict d => Ok (VDict (dict_set d key v))
  | _ => Raise TypeError
  end.

(** [del target[key]] *)
Definition del_key (target : value) (key : string) : result value :=
  match target with
  | VDict d =>
      match lookup key d with
      | Some _ => Ok (VDict (dict_del d key))
      | None => Raise KeyError
      end
  | _ => Raise TypeError
  end.

(** [target[i] = patch(target[i], subdiff)] with an integer index.  A
    string lets its characters be read but not stored; a string-keyed dict
    has no integer key. *)
Definition patch_index (rec : value -> result value) (target : value) (i : Z)
  : result value :=
  match target with
  | VList l =>
      match norm_index (List.length l) i with
      | Some n =>
          new <- rec (nth n l VNone) ;; Ok (VList (list_set l n new))
      | None => Raise IndexError
      end
  | VStr s =>
      match str_index s i with
      | Some c => _ <- rec (VStr c) ;; Raise TypeError
      | None => Raise IndexError
      end
  | VDict _ => Raise KeyError
  | _ => Raise TypeError
  end.

(** [target.insert(i, value)] *)
Definition insert_index (target : value) (i : Z) (v : value) : result value :=
  match target with
  | VList l => Ok (VList (list_insert l i v))
  | _ => Raise AttributeError
  end.

(** [del target[i]] *)
Definition del_index (target : value) (i : Z) : result value :=
  match target with
  | VList l =>
      match norm_index (List.length l) i with
      | Some n => Ok (VList (list_del l n))
      | None => Raise IndexError
      end
  | VDict _ => Raise KeyError
  | _ => Raise TypeError
  end.

(** The body of [for subdiff in diff['D']:] once the recursive call on
    [subdiff] is known; the state is [target] with the cursor [i] and the
    scatter [j]. *)
Definition patch_list_step (rec : value -> result value) (subdiff : node)
           (st : value * Z * Z) : result (value * Z * Z) :=
  let '(target, i, j) := st in
  let i := match key_I subdiff with
           | Some idx => (idx + j)%Z
           | None => i
           end in
  if has (key_D subdiff) || has (key_N subdiff) then
    target <- patch_index rec target i ;; Ok (target, (i + 1)%Z, j)
  else
    match key_A subdiff, key_R subdiff with
    | Some v, _ =>
        target <- insert_index target i v ;; Ok (target, (i + 1)%Z, (j + 1)%Z)
    | None, Some _ =>
        target <- del_index target i ;; Ok (target, i, (j - 1)%Z)
    | None, None => Ok (target, (i + 1)%Z, j)
    end.

(** The body of [for key, subdiff in diff['D'].items():]. *)
Definition patch_dict_step (rec : value -> result value) (key : string)
           (subdiff : node) (target : value) : result value :=
  if has (key_D subdiff) || has (key_N subdiff) then patch_key rec target key
  else
    match key_A subdiff, key_R subdiff with
    | Some v, _ => set_key target key v
    | None, Some _ => del_key target key
    | None, None => Ok target
    end.

Fixpoint patch (target : value) (diff : node) {struct diff} : result value :=
  match key_D diff with
  | Some (PDict entries) =>
      (fix items (entries : list (string * node)) (target : value)
         : result value :=
         match entries with
         | [] => Ok target
         | (key, subdiff) :: rest =>
             target <- patch_dict_step (fun t => patch t subdiff)
                                       key subdiff target ;;
             items rest target
         end) entries target
  | Some (PList children) =>
      st <- (fix each (children : list node) (st : value * Z * Z)
               : result (value * Z * Z) :=
               match children with
               | [] => Ok st
               | subdiff :: rest =>
                   st <- patch_list_step (fun t => patch t subdiff) subdiff st ;;
                   each rest st
               end) children (target, 0%Z, 0%Z) ;;
      Ok (fst (fst st))
  | Some (POther _) => Raise NotImplementedError
  | None =>
      match key_N diff with
      | Some n => Ok n
      | None => Ok target
      end
  end.

(** The two loops of [patch], named. *)
Fixpoint patch_items (entries : list (string * node)) (target : value)
  : result value :=
  match entries with
  | [] => Ok target
  | (key, subdiff) :: rest =>
      target <- patch_dict_step (fun t => patch t subdiff) key subdiff target ;;
      patch_items rest target
  end.

Fixpoint patch_each (children : list node) (st : value * Z * Z)
  : result (value * Z * Z) :=
  match children with
  | [] => Ok st
  | subdiff :: rest =>
      st <- patch_list_step (fun t => patch t subdiff) subdiff st ;;
      patch_each rest st
  end.

(** ** Reading diffs *)

(** The subdiffs under a list-shaped ['D'], and the keys under a
    dict-shaped one. *)
Definition children (n : node) : list node :=
  match key_D n with
  | Some (PList items) => items
  | _ => []
  end.

Definition D_keys (n : node) : list string :=
  match key_D n with
  | Some (PDict entries) => keys entries
  | _ => []
  end.

(** Every ['D'] in a diff, at any depth, holds a non-empty dict or a
    non-empty list of subdiffs. *)
Fixpoint payload_ok (n : node) : bool :=
  match key_D n with
  | Some (PDict entries) =>
      match entries with
      | [] => false
      | _ =>
          (fix go (entries : list (string * node)) : bool :=
             match entries with
             | [] => true
             | (_, c) :: rest => payload_ok c && go rest
             end) entries
      end
  | Some (PList items) =>
      match items with
      | [] => false
      | _ =>
          (fix go (items : list node) : bool :=
             match items with
             | [] => true
             | c :: rest => payload_ok c && go rest
             end) items
      end
  | Some (POther _) => false
  | None => true
  end.

(** Some diff reached through ['D'] keys holds a ['D'] that is neither a
    dict nor a list. *)
Fixpoint unsupported (n : node) : bool :=
  match key_D n with
  | Some (PDict entries) =>
      (fix go (entries : list (string * node)) : bool :=
         match entries with
         | [] => false
         | (_, c) :: rest => unsupported c || go rest
         end) entries
  | Some (PList items) =>
      (fix go (items : list node) : bool :=
         match items with
         | [] => false
         | c :: rest => unsupported c || go rest
         end) items
  | Some (POther _) => true
  | None => false
  end.

(** Readable diffs. *)
Definition diff_A (v : value) : node := set_A empty_node v.
Definition diff_N (v : value) : node := set_N empty_node v.
Definition diff_R (v : value) : node := set_R empty_node v.
Definition diff_U (v : value) : node := set_U empty_node v.
Definition diff_D (p : payload node) : node := set_D empty_node p.
Definition ints (l : list Z) : list value := map VInt l.

(** ** The differ on a store

    The functions above compute with values.  To see what [Differ.diff]
    does to the objects it is handed, the same methods are written here
    over a store of objects, with every allocation and every write of the
    source spelled out.  A location is an index in the store; a list or a
    dict holds the locations of its items. *)
Module Store.

Definition loc : Type := nat.

Inductive obj : Type :=
| ONone
| OBool (b : bool)
| OInt (z : Z)
| OStr (s : string)
| OList (items : list loc)
| ODict (entries : list (string * loc)).

Definition store : Type := list obj.

(** The value an object stands for, read down to [fuel] levels; [None] on
    a dangling location or when the levels run out. *)
Fixpoint read (fuel : nat) (s : store) (l : loc) : option value :=
  match fuel with
  | 0 => None
  | S fuel' =>
      match nth_error s l with
      | None => None
      | Some ONone => Some VNone
      | Some (OBool b) => Some (VBool b)
      | Some (OInt z) => Some (VInt z)
      | Some (OStr str) => Some (VStr str)
      | Some (OList items) =>
          option_map VList
            ((fix each (items : list loc) : option (list value) :=
                match items with
                | [] => Some []
                | x :: rest =>
                    match read fuel' s x, each rest with
                    | Some v, Some vs => Some (v :: vs)
                    | _, _ => None
                    end
                end) items)
      | Some (ODict entries) =>
          option_map VDict
            ((fix each (entries : list (string * loc))
                : option (list (string * value)) :=
                match entries with
                | [] => Some []
                | (k, x) :: rest =>
                    match read fuel' s x, each rest with
                    | Some v, Some vs => Some ((k, v) :: vs)
                    | _, _ => None
                    end
                end) entries)
      end
  end.

(** Computations that read and write the store, and may raise. *)
Definition M (X : Type) : Type := store -> option (X * store).

Definition pure {X : Type} (x : X) : M X := fun s => Some (x, s).

Definition raise {X : Type} : M X := fun _ => None.

Definition bind {X Y : Type} (c : M X) (k : X -> M Y) : M Y :=
  fun s =>
    match c s with
    | Some (x, s') => k x s'
    | None => None
    end.

Notation "x <~ c ;; k" := (bind c (fun x => k))
  (at level 61, c at next level, right associativity).

Definition alloc (o : obj) : M loc :=
  fun s => Some (List.length s, s ++ [o]).

Definition get (l : loc) : M obj :=
  fun s =>
    match nth_error s l with
    | Some o => Some (o, s)
    | None => None
    end.

Definition put (l : loc) (o : obj) : M unit :=
  fun s => if l <? List.length s then Some (tt, list_set s l o) else None.

(** [x == y] and [dumps(x, -1)] look at the whole value of an object; a
    tree of objects is never deeper than the store is long. *)
Definition value_of (l : loc) : M value :=
  fun s =>
    match read (S (List.length s)) s l with
    | Some v => Some (v, s)
    | None => None
    end.

(** [d[key]], [d[key] = v], [del d[key]], [l.append(v)], [l[-1]] and the
    truth value of a container. *)
Definition getitem (d : loc) (key : string) : M loc :=
  o <~ get d ;;
  match o with
  | ODict entries =>
      match lookup key entries with
      | Some l => pure l
      | None => raise
      end
  | _ => raise
  end.

Definition setitem (d : loc) (key : string) (v : loc) : M unit :=
  o <~ get d ;;
  match o with
  | ODict entries => put d (ODict (dict_set entries key v))
  | _ => raise
  end.

Definition delitem (d : loc) (key : string) : M unit :=
  o <~ get d ;;
  match o with
  | ODict entries =>
      match lookup key entries with
      | Some _ => put d (ODict (dict_del entries key))
      | None => raise
      end
  | _ => raise
  end.

Definition append (l : loc) (v : loc) : M unit :=
  o <~ get l ;;
  match o with
  | OList items => put l (OList (items ++ [v]))
  | _ => raise
  end.

Definition last_item (l : loc) : M loc :=
  o <~ get l ;;
  match o with
  | OList items =>
      match rev items with
      | x :: _ => pure x
      | [] => raise
      end
  | _ => raise
  end.

Definition truth (l : loc) : M bool :=
  o <~ get l ;;
  pure match o with
       | ONone => false
       | OBool b => b
       | OInt z => negb (Z.eqb z 0)
       | OStr str => negb (String.eqb str "")
       | OList items => negb (Nat.eqb (List.length items) 0)
       | ODict entries => negb (Nat.eqb (List.length entries) 0)
       end.

Fixpoint for_each {X : Type} (body : X -> M unit) (l : list X) : M unit :=
  match l with
  | [] => pure tt
  | x :: rest => _ <~ body x ;; for_each body rest
  end.

Fixpoint map_M {X Y : Type} (f : X -> M Y) (l : list X) : M (list Y) :=
  match l with
  | [] => pure []
  | x :: rest => y <~ f x ;; ys <~ map_M f rest ;; pure (y :: ys)
  end.

Section Methods.
Variable self : Differ.
(** The recursive call [self.diff]. *)
Variable self_diff : loc -> loc -> M loc.

Definition get_default_diff (a b : loc) : M loc :=
  ret <~ alloc (ODict []) ;;
  _ <~ (if op_n self then setitem ret "N" b else pure tt) ;;
  _ <~ (if op_o self then setitem ret "O" a else pure tt) ;;
  pure ret.

(** [ret['D'][key] = x] *)
Definition record (ret : loc) (key : string) (x : loc) : M unit :=
  d <~ getitem ret "D" ;; setitem d key x.

Definition diff_dicts_step (a b : list (string * loc)) (ret : loc)
           (key : string) : M unit :=
  match lookup key a, lookup key b with
  | Some x, Some y =>
      vx <~ value_of x ;;
      vy <~ value_of y ;;
      if py_eq vx vy then
        if op_u self
        then c <~ alloc (ODict [("U", x)]) ;; record ret key c
        else pure tt
      else
        subdiff <~ self_diff x y ;;
        t <~ truth subdiff ;;
        if t then record ret key subdiff else pure tt
  | Some x, None =>
      if op_r self then
        v <~ (if op_trim_r self then alloc ONone else pure x) ;;
        c <~ alloc (ODict [("R", v)]) ;;
        record ret key c
      else pure tt
  | None, Some y =>
      if op_a self
      then c <~ alloc (ODict [("A", y)]) ;; record ret key c
      else pure tt
  | None, None => pure tt
  end.

(** [if not ret['D']: del ret['D']] *)
Definition drop_empty (ret : loc) : M unit :=
  d <~ getitem ret "D" ;;
  t <~ truth d ;;
  if t then pure tt else delitem ret "D".

Definition diff_dicts (a b : list (string * loc)) : M loc :=
  d <~ alloc (ODict []) ;;
  ret <~ alloc (ODict [("D", d)]) ;;
  _ <~ for_each (diff_dicts_step a b ret)
                (nodup string_dec (keys a ++ keys b)) ;;
  _ <~ drop_empty ret ;;
  pure ret.

(** The cursors and the flag of [diff_lists]. *)
Record cursors : Type :=
  { at_i : nat;
    at_j : nat;
    forced : bool }.

(** [ret['D'].append(x)], then under [if force_index:] the write
    [ret['D'][-1]['I'] = i]. *)
Definition emit (ret : loc) (w : cursors) (x : loc) : M cursors :=
  d <~ getitem ret "D" ;;
  _ <~ append d x ;;
  if forced w then
    idx <~ alloc (OInt (Z.of_nat (at_i w))) ;;
    d <~ getitem ret "D" ;;
    c <~ last_item d ;;
    _ <~ setitem c "I" idx ;;
    pure {| at_i := at_i w; at_j := at_j w; forced := false |}
  else pure w.

Definition omit (w : cursors) : cursors :=
  {| at_i := at_i w; at_j := at_j w; forced := true |}.

Definition advance (di dj : nat) (w : cursors) : cursors :=
  {| at_i := at_i w + di; at_j := at_j w + dj; forced := forced w |}.

Definition item (l : list loc) (n : nat) : M loc :=
  match nth_error l n with
  | Some x => pure x
  | None => raise
  end.

Fixpoint while_changed (fuel : nat) (a b : list loc) (ai bj : nat) (ret : loc)
         (w : cursors) : M cursors :=
  match fuel with
  | 0 => pure w
  | S fuel' =>
      if (at_i w <? ai) && (at_j w <? bj) then
        x <~ item a (at_i w) ;;
        y <~ item b (at_j w) ;;
        subdiff <~ self_diff x y ;;
        t <~ truth subdiff ;;
        w' <~ (if t then emit ret w subdiff else pure (omit w)) ;;
        while_changed fuel' a b ai bj ret (advance 1 1 w')
      else pure w
  end.

Fixpoint while_removed (fuel : nat) (a : list loc) (ai : nat) (ret : loc)
         (w : cursors) : M cursors :=
  match fuel with
  | 0 => pure w
  | S fuel' =>
      if at_i w <? ai then
        w' <~ (if op_r self then
                 v <~ (if op_trim_r self then alloc ONone
                       else item a (at_i w)) ;;
                 c <~ alloc (ODict [("R", v)]) ;;
                 emit ret w c
               else pure (omit w)) ;;
        while_removed fuel' a ai ret (advance 1 0 w')
      else pure w
  end.

Fixpoint while_added (fuel : nat) (b : list loc) (bj : nat) (ret : loc)
         (w : cursors) : M cursors :=
  match fuel with
  | 0 => pure w
  | S fuel' =>
      if at_j w <? bj then
        w' <~ (if op_a self then
                 v <~ item b (at_j w) ;;
                 c <~ alloc (ODict [("A", v)]) ;;
                 emit ret w c
               else pure (omit w)) ;;
        while_added fuel' b bj ret (advance 0 1 w')
      else pure w
  end.

Definition walk_block (a b : list loc) (ret : loc) (w : cursors)
           (blk : nat * nat * nat) : M cursors :=
  let '(ai, bj, _) := blk in
  w <~ while_changed (ai - at_i w) a b ai bj ret w ;;
  w <~ while_removed (ai - at_i w) a ai ret w ;;
  while_added (bj - at_j w) b bj ret w.

Fixpoint walk_blocks (a b : list loc) (ret : loc)
         (blocks : list (nat * nat * nat)) (w : cursors) : M cursors :=
  match blocks with
  | [] => pure w
  | blk :: rest =>
      w <~ walk_block a b ret w blk ;; walk_blocks a b ret rest w
  end.

Definition diff_lists (a b : list loc) : M loc :=
  va <~ map_M value_of a ;;
  vb <~ map_M value_of b ;;
  d <~ alloc (OList []) ;;
  ret <~ alloc (ODict [("D", d)]) ;;
  _ <~ walk_blocks a b ret (lcs_blocks va vb)
                   {| at_i := 0; at_j := 0; forced := false |} ;;
  _ <~ drop_empty ret ;;
  pure ret.
End Methods.

(** [Differ.diff]; running out of [fuel] stands for the interpreter's
    recursion limit. *)
Fixpoint diff (fuel : nat) (self : Differ) (a b : loc) : M loc :=
  match fuel with
  | 0 => raise
  | S fuel' =>
      va <~ value_of a ;;
      vb <~ value_of b ;;
      if py_eq va vb then
        if op_u self then alloc (ODict [("U", a)]) else alloc (ODict [])
      else
        oa <~ get a ;;
        ob <~ get b ;;
        match oa, ob with
        | ODict ea, ODict eb => diff_dicts self (diff fuel' self) ea eb
        | OList ia, OList ib => diff_lists self (diff fuel' self) ia ib
        | _, _ => get_default_diff self a b
        end
  end.

(** Putting a value into the store, items first. *)
Fixpoint store_value (v : value) : M loc :=
  match v with
  | VNone => alloc ONone
  | VBool b => alloc (OBool b)
  | VInt z => alloc (OInt z)
  | VStr str => alloc (OStr str)
  | VList l =>
      items <~ (fix each (l : list value) : M (list loc) :=
                  match l with
                  | [] => pure []
                  | x :: rest =>
                      y <~ store_value x ;; ys <~ each rest ;; pure (y :: ys)
                  end) l ;;
      alloc (OList items)
  | VDict d =>
      entries <~ (fix each (d : list (string * value))
                    : M (list (string * loc)) :=
                    match d with
                    | [] => pure []
                    | (k, x) :: rest =>
                        y <~ store_value x ;;
                        ys <~ each rest ;;
                        pure ((k, y) :: ys)
                    end) d ;;
      alloc (ODict entries)
  end.

(** ** [patch] on a store

    [patch] writes into its target: [target[key] = ...], [del target[key]],
    [target.insert] change the very list or dict that is passed in, and
    what is stored under a key or at an index is an object of the target
    or of the diff, not a copy.  Here it is written over the store, each
    read and each write of the source spelled out. *)

(** [key in o], for a string [key]: a key of a dict, an item of a list
    (only a string equals a string), a substring of a string. *)
Definition contains (o : loc) (key : string) : M bool :=
  x <~ get o ;;
  match x with
  | ODict entries => pure (has (lookup key entries))
  | OList items =>
      fun s =>
        Some (existsb (fun l => match nth_error s l with
                                | Some (OStr str) => String.eqb str key
                                | _ => false
                                end) items, s)
  | OStr str =>
      pure match String.index 0 key str with
           | Some _ => true
           | None => false
           end
  | _ => raise
  end.

(** [target[i]] with an integer [i]: an item of a list, or a character of
    a string, which is a string of its own. *)
Definition getindex (target : loc) (i : Z) : M loc :=
  o <~ get target ;;
  match o with
  | OList items =>
      match norm_index (List.length items) i with
      | Some n => item items n
      | None => raise
      end
  | OStr str =>
      match str_index str i with
      | Some c => alloc (OStr c)
      | None => raise
      end
  | _ => raise
  end.

(** [target[i] = v], [target.insert(i, v)] and [del target[i]]: for lists
    only. *)
Definition setindex (target : loc) (i : Z) (v : loc) : M unit :=
  o <~ get target ;;
  match o with
  | OList items =>
      match norm_index (List.length items) i with
      | Some n => put target (OList (list_set items n v))
      | None => raise
      end
  | _ => raise
  end.

Definition insert (target : loc) (i : Z) (v : loc) : M unit :=
  o <~ get target ;;
  match o with
  | OList items => put target (OList (list_insert items i v))
  | _ => raise
  end.

Definition delindex (target : loc) (i : Z) : M unit :=
  o <~ get target ;;
  match o with
  | OList items =>
      match norm_index (List.length items) i with
      | Some n => put target (OList (list_del items n))
      | None => raise
      end
  | _ => raise
  end.

(** The integer in [subdiff['I'] + j]; [bool] is a subclass of [int]. *)
Definition as_int (l : loc) : M Z :=
  o <~ get l ;;
  match o with
  | OInt z => pure z
  | OBool b => pure (if b then 1%Z else 0%Z)
  | _ => raise
  end.

(** ['D' in subdiff or 'N' in subdiff]; [or] looks at ['N'] only when
    ['D'] is not there. *)
Definition has_D_or_N (subdiff : loc) : M bool :=
  has_D <~ contains subdiff "D" ;;
  if has_D then pure true else contains subdiff "N".

Section Patch.
(** The recursive call [patch]. *)
Variable self_patch : loc -> loc -> M loc.

(** The body of [for key, subdiff in diff['D'].items():]. *)
Definition patch_dict_step (target : loc) (e : string * loc) : M unit :=
  let '(key, subdiff) := e in
  recurse <~ has_D_or_N subdiff ;;
  if recurse then
    old <~ getitem target key ;;
    new <~ self_patch old subdiff ;;
    setitem target key new
  else
    has_A <~ contains subdiff "A" ;;
    if has_A then
      v <~ getitem subdiff "A" ;;
      setitem target key v
    else
      has_R <~ contains subdiff "R" ;;
      if has_R then delitem target key else pure tt.

(** The body of [for subdiff in diff['D']:], with the index [i] and the
    scatter [j]; it returns them as the next turn finds them. *)
Definition patch_list_step (target subdiff : loc) (i j : Z) : M (Z * Z) :=
  has_I <~ contains subdiff "I" ;;
  i <~ (if has_I then
          x <~ getitem subdiff "I" ;;
          z <~ as_int x ;;
          pure (z + j)%Z
        else pure i) ;;
  recurse <~ has_D_or_N subdiff ;;
  if recurse then
    old <~ getindex target i ;;
    new <~ self_patch old subdiff ;;
    _ <~ setindex target i new ;;
    pure ((i + 1)%Z, j)
  else
    has_A <~ contains subdiff "A" ;;
    if has_A then
      v <~ getitem subdiff "A" ;;
      _ <~ insert target i v ;;
      pure ((i + 1)%Z, (j + 1)%Z)
    else
      has_R <~ contains subdiff "R" ;;
      if has_R then
        _ <~ delindex target i ;;
        pure (i, (j - 1)%Z)
      else pure ((i + 1)%Z, j).

(** [for subdiff in diff['D']:] with the list [d] under ['D']: the loop
    asks the list for its item [k], then for the next, and is over when
    there is none.  A list that grows under the loop would keep it going
    for ever: [turns] bounds the turns. *)
Fixpoint patch_list_loop (turns : nat) (target d : loc) (k : nat) (i j : Z)
  : M unit :=
  match turns with
  | 0 => raise
  | S turns' =>
      o <~ get d ;;
      match o with
      | OList items =>
          match nth_error items k with
          | None => pure tt
          | Some subdiff =>
              ij <~ patch_list_step target subdiff i j ;;
              patch_list_loop turns' target d (S k) (fst ij) (snd ij)
          end
      | _ => raise
      end
  end.
End Patch.

(** [patch(target, diff)].  The items of a dict under ['D'] are gone
    through as they are when the loop starts ([items()] hands out a list in
    Python 2; the view of Python 3 differs only when the dict changes under
    the loop); running out of [fuel] stands for the recursion limit. *)
Fixpoint patch (fuel : nat) (target diff : loc) : M loc :=
  match fuel with
  | 0 => raise
  | S fuel' =>
      has_D <~ contains diff "D" ;;
      if has_D then
        d <~ getitem diff "D" ;;
        o <~ get d ;;
        match o with
        | ODict entries =>
            _ <~ for_each (patch_dict_step (patch fuel') target) entries ;;
            pure target
        | OList _ =>
            _ <~ patch_list_loop (patch fuel') fuel' target d 0 0%Z 0%Z ;;
            pure target
        | _ => raise
        end
      else
        has_N <~ contains diff "N" ;;
        if has_N then getitem diff "N" else pure target
  end.

(** The lists and dicts that make up the object at [l], one entry for each
    way to reach them from [l]. *)
Fixpoint layout (fuel : nat) (s : store) (l : loc) : option (list loc) :=
  match fuel with
  | 0 => None
  | S fuel' =>
      match nth_error s l with
      | None => None
      | Some (OList items) =>
          option_map (cons l)
            ((fix each (items : list loc) : option (list loc) :=
                match items with
                | [] => Some []
                | x :: rest =>
                    match layout fuel' s x, each rest with
                    | Some F, Some Fs => Some (F ++ Fs)
                    | _, _ => None
                    end
                end) items)
      | Some (ODict entries) =>
          option_map (cons l)
            ((fix each (entries : list (string * loc)) : option (list loc) :=
                match entries with
                | [] => Some []
                | (_, x) :: rest =>
                    match layout fuel' s x, each rest with
                    | Some F, Some Fs => Some (F ++ Fs)
                    | _, _ => None
                    end
                end) entries)
      | Some _ => Some []
      end
  end.

Fixpoint distinct (l : list loc) : bool :=
  match l with
  | [] => true
  | x :: rest => negb (existsb (Nat.eqb x) rest) && distinct rest
  end.

(** [a] is held as a tree of its own, apart from [b]: no list and no
    dict is met twice on the way through [a], and none of them is met on
    the way through [b]. *)
Definition separate (s : store) (a b : loc) : bool :=
  match layout (S (List.length s)) s a, layout (S (List.length s)) s b with
  | Some Fa, Some Fb =>
      distinct Fa
      && forallb (fun l => negb (existsb (Nat.eqb l) Fb)) Fa
  | _, _ => false
  end.

End Store.

(** ** Notions used in the proofs *)

(** The deepest item of a list. *)
Definition items_depth (l : list value) : nat :=
  fold_right (fun x m => Nat.max (depth x) m) 0 l.

(** One turn of each of the three loops of [diff_lists]. *)
Definition changed_turn (f : value -> value -> node) (a b : list value)
           (w : walk) : walk :=
  let subdiff := f (nth (cur_i w) a VNone) (nth (cur_j w) b VNone) in
  advance 1 1 (if truthy subdiff then emit w subdiff else omit w).

Definition removed_turn (self : Differ) (a : list value) (w : walk) : walk :=
  advance 1 0
    (if op_r self
     then emit w (set_R empty_node
                    (if op_trim_r self then VNone else nth (cur_i w) a VNone))
     else omit w).

Definition added_turn (self : Differ) (b : list value) (w : walk) : walk :=
  advance 0 1
    (if op_a self
     then emit w (set_A empty_node (nth (cur_j w) b VNone))
     else omit w).

(** A block, and the cursors, lie inside the two lists. *)
Definition within (a b : list value) (blk : nat * nat * nat) : Prop :=
  fst (fst blk) <= List.length a /\ snd (fst blk) <= List.length b.

Definition inside (a b : list value) (w : walk) : Prop :=
  cur_i w <= List.length a /\ cur_j w <= List.length b.

(** A block lies inside the pair of ranges it was searched in. *)
Definition fits (alo ahi blo bhi : nat) (m : Match) : Prop :=
  let '(i, j, k) := m in
  alo <= i /\ i + k <= ahi /\ blo <= j /\ j + k <= bhi.

(** Run lengths recorded after [r] rows. *)
Definition runs_ok (blo r : nat) (j2len : list (nat * nat)) : Prop :=
  forall j, j2len_get j2len j <= r /\ j2len_get j2len j <= j + 1 - blo.

(** The ranges waiting in the queue. *)
Definition range_ok {X : Type} (a b : list X) (q : nat * nat * nat * nat)
  : Prop :=
  let '(alo, ahi, blo, bhi) := q in
  alo <= ahi /\ ahi <= List.length a /\ blo <= bhi /\ bhi <= List.length b.

(** What a range can still cost in pops of the queue. *)
Definition range_cost (q : nat * nat * nat * nat) : nat :=
  let '(alo, ahi, _, _) := q in 2 * (ahi - alo) + 1.

Definition queue_cost (queue : list (nat * nat * nat * nat)) : nat :=
  list_sum (map range_cost queue).

(** A block starts inside the two sequences. *)
Definition block_ok {X : Type} (a b : list X) (m : Match) : Prop :=
  fst (fst m) <= List.length a /\ snd (fst m) <= List.length b.

(** [patch(a, diff(a, b)) == b] for one pair of operands. *)
Definition forward (self : Differ) (a b : value) : Prop :=
  exists a', patch a (diff self a b) = Ok a' /\ py_eq a' b = true.

(** A diff as [emit] appends it. *)
Definition tag (w : walk) (x : node) : node :=
  if force_index w then set_I x (Z.of_nat (cur_i w)) else x.

(** What patching the diffs written so far does to [a]: the items before
    the cursor [j] are those of [b], the rest is [a] from [i] on; the
    scatter is [j - i]; and the patch cursor is at [j] unless the next
    diff is to carry an index. *)
Definition patched (a b : list value) (w : walk) : Prop :=
  exists pre ip,
    patch_each (ret_D w) (VList a, 0%Z, 0%Z)
    = Ok (VList (pre ++ skipn (cur_i w) a), ip,
          (Z.of_nat (cur_j w) - Z.of_nat (cur_i w))%Z)
    /\ List.length pre = cur_j w
    /\ list_eq pre (firstn (cur_j w) b) = true
    /\ (force_index w = false -> ip = Z.of_nat (cur_j w)).

(** Two dict slots hold equal items, or are both empty. *)
Definition agree (x y : option value) : Prop :=
  match x, y with
  | Some v, Some w => py_eq v w = true
  | None, None => True
  | _, _ => False
  end.

(** What patching the subdiffs written so far does to [a]: the keys gone
    through hold what [b] holds, the others what [a] holds. *)
Definition patched_keys (a b : list (string * value)) (done : list string)
           (retD : list (string * node)) : Prop :=
  exists t,
    patch_items retD (VDict a) = Ok (VDict t)
    /\ NoDup (keys t)
    /\ (forall k, In k done -> agree (lookup k t) (lookup k b))
    /\ (forall k, ~ In k done -> lookup k t = lookup k a)
    /\ (forall k, In k (keys retD) -> In k done).

(** During the walk the flag is never raised and no diff is tagged. *)
Definition untagged (w : walk) : Prop :=
  force_index w = false
  /\ Forall (fun c => key_I c = None) (ret_D w)
  /\ (ret_D w = [] -> cur_i w = 0 /\ cur_j w = 0).

(** As long as nothing was written, the two lists went the same way. *)
Definition in_step (a b : list value) (w : walk) : Prop :=
  ret_D w = [] ->
  cur_i w = cur_j w
  /\ forall t, t < cur_i w -> py_eq (nth t a VNone) (nth t b VNone) = true.

(** [k] turns of the pairing loop. *)
Definition turns (self : Differ) (a b : list value) (k : nat) (w : walk)
  : walk :=
  Nat.iter k (changed_turn (diff self) a b) w.

(** The unpickler's stack after the items of a list, or the keys and
    items of a dict, have been pushed. *)
Definition push_items (l : list value) (stack : list slot) : list slot :=
  rev (map SVal l) ++ stack.

Fixpoint flatten (d : list (string * value)) : list value :=
  match d with
  | [] => []
  | (k, x) :: t => VStr k :: x :: flatten t
  end.

(** [post c s Q]: if [c] returns from store [s], its result and the store
    it leaves satisfy [Q]. *)
Definition post {X : Type} (c : Store.M X) (s : Store.store)
           (Q : X -> Store.store -> Prop) : Prop :=
  match c s with
  | Some (x, s') => Q x s'
  | None => True
  end.

(** From [s] to [s'] the store has only grown, and the objects below [n]
    are the same. *)
Definition kept (n : nat) (s s' : Store.store) : Prop :=
  List.length s <= List.length s'
  /\ forall l, l < n -> nth_error s' l = nth_error s l.

(** A write to one object: the others stay, the store keeps its length. *)
Definition wrote (d : Store.loc) (o o' : Store.obj) (s s' : Store.store)
  : Prop :=
  nth_error s d = Some o /\ nth_error s' d = Some o'
  /\ List.length s' = List.length s
  /\ forall l, l <> d -> nth_error s' l = nth_error s l.

(** What is asked of the recursive call: it leaves every object it found
    as it was, and returns an object of its own making. *)
Definition fresh_result (c : Store.M Store.loc) : Prop :=
  forall s,
    post c s (fun r s' => kept (List.length s) s s'
                          /\ List.length s <= r /\ r < List.length s').

(** The diff under construction: [ret] is [{'D': d}], both made after the
    first [n] objects; [d] is a dict in a dict diff. *)
Definition building (n d ret : nat) (s : Store.store) : Prop :=
  n <= d /\ d < ret /\ ret < List.length s
  /\ nth_error s ret = Some (Store.ODict [("D", d)]).

Definition dict_inv (n d ret : nat) (s : Store.store) : Prop :=
  building n d ret s /\ exists es, nth_error s d = Some (Store.ODict es).

(** In a list diff every subdiff was made after [ret]. *)
Definition list_inv (n d ret : nat) (s : Store.store) : Prop :=
  building n d ret s
  /\ exists items,
      nth_error s d = Some (Store.OList items)
      /\ Forall (fun x => ret < x /\ x < List.length s) items.

(** Induction on a diff reaches the subdiffs under ['D']. *)
Section NodeInd.
Variable P : node -> Prop.
Hypothesis Hdict : forall fa es fi fn fo fr fu,
    Forall (fun e => P (snd e)) es ->
    P (Node fa (Some (PDict es)) fi fn fo fr fu).
Hypothesis Hlist : forall fa cs fi fn fo fr fu,
    Forall P cs -> P (Node fa (Some (PList cs)) fi fn fo fr fu).
Hypothesis Hother : forall fa v fi fn fo fr fu,
    P (Node fa (Some (POther v)) fi fn fo fr fu).
Hypothesis Hnone : forall fa fi fn fo fr fu, P (Node fa None fi fn fo fr fu).

Fixpoint node_rect' (n : node) : P n :=
  match n with
  | Node fa (Some (PDict es)) fi fn fo fr fu =>
      Hdict fa es fi fn fo fr fu
            ((fix go (es : list (string * node))
                : Forall (fun e => P (snd e)) es :=
                match es with
                | [] => Forall_nil _
                | e :: t =>
                    Forall_cons (P := fun e => P (snd e)) e
                                (node_rect' (snd e)) (go t)
                end) es)
  | Node fa (Some (PList cs)) fi fn fo fr fu =>
      Hlist fa cs fi fn fo fr fu
            ((fix go (cs : list node) : Forall P cs :=
                match cs with
                | [] => Forall_nil _
                | c :: t => Forall_cons c (node_rect' c) (go t)
                end) cs)
  | Node fa (Some (POther v)) fi fn fo fr fu => Hother fa v fi fn fo fr fu
  | Node fa None fi fn fo fr fu => Hnone fa fi fn fo fr fu
  end.
End NodeInd.

(** What patching the diffs written so far does to [a] when some may have
    been omitted: [a]'s items from the cursor on are as they were, after
    the items [pre]; the scatter is the length of [pre] less the cursor;
    the patch cursor is at the end of [pre] unless the next diff is to
    carry an index. *)
Definition applied_to (a pre : list value) (w : walk) : Prop :=
  exists ip,
    patch_each (ret_D w) (VList a, 0%Z, 0%Z)
    = Ok (VList (pre ++ skipn (cur_i w) a), ip,
          (Z.of_nat (List.length pre) - Z.of_nat (cur_i w))%Z)
    /\ (force_index w = false -> ip = Z.of_nat (List.length pre)).

(** The diffs written so far apply to [a]. *)
Definition applied (a : list value) (w : walk) : Prop :=
  exists pre, applied_to a pre w.

(** Two walks that are as far and whose diffs patch [a] alike. *)
Definition applied_alike (a : list value) (w1 w2 : walk) : Prop :=
  exists pre, applied_to a pre w1 /\ applied_to a pre w2.

(** Two walks at the same place, related by [R]. *)
Definition together (R : walk -> walk -> Prop) (w1 w2 : walk) : Prop :=
  R w1 w2 /\ cur_i w1 = cur_i w2 /\ cur_j w1 = cur_j w2.

(** The same for a dict: the keys not gone through hold what [a] holds. *)
Definition applied_keys_to (a : list (string * value)) (done : list string)
           (retD : list (string * node)) (t : list (string * value)) : Prop :=
  patch_items retD (VDict a) = Ok (VDict t)
  /\ (forall k, ~ In k done -> lookup k t = lookup k a)
  /\ (forall k, In k (keys retD) -> In k done).

(** What one turn of the loop of [diff_dicts] lets [patch] do to the dict
    [t]. *)
Definition dict_effect (self : Differ) (f : value -> value -> node)
           (a b : list (string * value)) (t : list (string * value))
           (key : string) : list (string * value) :=
  match lookup key a, lookup key b with
  | Some av, Some bv =>
      if py_eq av bv then t
      else match patch av (f av bv) with
           | Ok x' => dict_set t key x'
           | Raise _ => t
           end
  | Some av, None => if op_r self then dict_del t key else t
  | None, Some bv => if op_a self then dict_set t key bv else t
  | None, None => t
  end.

(** ** Diffs with less in them *)

(** A diff with the value of every ['R'], at any depth, replaced by
    [None]. *)
Fixpoint trimmed (n : node) : node :=
  Node (key_A n)
       (match key_D n with
        | Some (PDict entries) =>
            Some (PDict
                    ((fix go (entries : list (string * node))
                        : list (string * node) :=
                        match entries with
                        | [] => []
                        | (k, c) :: rest => (k, trimmed c) :: go rest
                        end) entries))
        | Some (PList items) =>
            Some (PList
                    ((fix go (items : list node) : list node :=
                        match items with
                        | [] => []
                        | c :: rest => trimmed c :: go rest
                        end) items))
        | Some (POther v) => Some (POther v)
        | None => None
        end)
       (key_I n) (key_N n) (key_O n)
       (match key_R n with
        | Some _ => Some VNone
        | None => None
        end)
       (key_U n).

(** A diff with every ['O'] and ['U'] dropped and the value of every
    ['R'] replaced by [None], at any depth. *)
Fixpoint edits (n : node) : node :=
  Node (key_A n)
       (match key_D n with
        | Some (PDict entries) =>
            Some (PDict
                    ((fix go (entries : list (string * node))
                        : list (string * node) :=
                        match entries with
                        | [] => []
                        | (k, c) :: rest => (k, edits c) :: go rest
                        end) entries))
        | Some (PList items) =>
            Some (PList
                    ((fix go (items : list node) : list node :=
                        match items with
                        | [] => []
                        | c :: rest => edits c :: go rest
                        end) items))
        | Some (POther v) => Some (POther v)
        | None => None
        end)
       (key_I n) (key_N n) None
       (match key_R n with
        | Some _ => Some VNone
        | None => None
        end)
       None.

(** [Differ(A, N, O, R, U, trimR=t)] for the options of [self]. *)
Definition with_trimR (self : Differ) (t : bool) : Differ :=
  Build_Differ (op_a self) (op_n self) (op_o self) (op_r self) (op_u self) t.

(** A dict with [f] applied to each of its values. *)
Definition on_entries {X Y : Type} (f : X -> Y) (d : list (string * X))
  : list (string * Y) :=
  map (fun e => (fst e, f (snd e))) d.

(** The walk of a differ with [trimR] on, next to the same walk of one with
    [trimR] off. *)
Definition trim_walk (w : walk) : walk :=
  {| ret_D := map trimmed (ret_D w);
     cur_i := cur_i w;
     cur_j := cur_j w;
     force_index := force_index w |}.

(** ** Looking into diffs *)

(** [P] holds of a diff and of every subdiff under its D keys. *)
Fixpoint all_nodes (P : node -> bool) (n : node) : bool :=
  P n &&
  match key_D n with
  | Some (PDict entries) =>
      (fix go (entries : list (string * node)) : bool :=
         match entries with
         | [] => true
         | (_, c) :: rest => all_nodes P c && go rest
         end) entries
  | Some (PList items) =>
      (fix go (items : list node) : bool :=
         match items with
         | [] => true
         | c :: rest => all_nodes P c && go rest
         end) items
  | _ => true
  end.

(** The keys A, N, O, R and U of this diff are among those [self] is set
    to write. *)
Definition enabled (self : Differ) (n : node) : bool :=
  implb (has (key_A n)) (op_a self) && implb (has (key_N n)) (op_n self)
  && implb (has (key_O n)) (op_o self) && implb (has (key_R n)) (op_r self)
  && implb (has (key_U n)) (op_u self).

(** One status in a diff: A alone, D alone, R alone, U alone, or N and O
    (one of them or both). *)
Definition one_status (n : node) : bool :=
  match key_A n, key_D n, key_N n, key_O n, key_R n, key_U n with
  | Some _, None, None, None, None, None => true
  | None, Some _, None, None, None, None => true
  | None, None, Some _, _, None, None => true
  | None, None, None, Some _, None, None => true
  | None, None, None, None, Some _, None => true
  | None, None, None, None, None, Some _ => true
  | _, _, _, _, _, _ => false
  end.

(** One status in this diff and in every subdiff, and no index on the
    subdiffs of a dict. *)
Fixpoint well_shaped (n : node) : bool :=
  one_status n &&
  match key_D n with
  | Some (PDict entries) =>
      (fix go (entries : list (string * node)) : bool :=
         match entries with
         | [] => true
         | (_, c) :: rest => negb (has (key_I c)) && well_shaped c && go rest
         end) entries
  | Some (PList items) =>
      (fix go (items : list node) : bool :=
         match items with
         | [] => true
         | c :: rest => well_shaped c && go rest
         end) items
  | Some (POther _) => false
  | None => true
  end.

(** [diff['D'].get(key)] for a diff of dicts. *)
Definition D_lookup (n : node) (key : string) : option node :=
  match key_D n with
  | Some (PDict entries) => lookup key entries
  | _ => None
  end.

(** The values under I in a list of subdiffs, in order. *)
Definition I_values (cs : list node) : list Z :=
  flat_map (fun c => match key_I c with
                     | Some i => [i]
                     | None => []
                     end) cs.

(** A subdiff as [diff_dicts] stores it, and as [diff_lists] does: as it
    was computed, or with an index added. *)
Definition dict_child (Q : node -> Prop) (c : node) : Prop :=
  Q c /\ truthy c = true /\ key_I c = None.

Definition list_child (Q : node -> Prop) (c : node) : Prop :=
  exists c0, dict_child Q c0
             /\ (c = c0 \/ exists i : nat, c = set_I c0 (Z.of_nat i)).

(** The indices written so far are below the cursor, and they grow. *)
Definition indices_grow (self : Differ) (w : walk) : Prop :=
  StronglySorted Z.lt (I_values (ret_D w))
  /\ Forall (fun i => (0 <= i <= Z.of_nat (cur_i w))%Z) (I_values (ret_D w))
  /\ (force_index w = true \/ op_a self = false ->
      Forall (fun i => (i < Z.of_nat (cur_i w))%Z) (I_values (ret_D w))).

(** The items gone through, and the subdiffs that are not for an added
    item or not for a removed one. *)
Definition not_added (cs : list node) : list node :=
  filter (fun c => negb (has (key_A c))) cs.

Definition not_removed (cs : list node) : list node :=
  filter (fun c => negb (has (key_R c))) cs.

Definition accounted (w : walk) : Prop :=
  List.length (not_added (ret_D w)) = cur_i w
  /\ List.length (not_removed (ret_D w)) = cur_j w.

(** A list or a dict: what [patch] can change in place. *)
Definition container (v : value) : bool :=
  match v with
  | VList _ | VDict _ => true
  | _ => false
  end.

(** A subdiff for which [patch] reads or deletes the item it is for, and
    one for which it touches the target at all. *)
Definition needs_item (c : node) : bool :=
  has (key_D c) || has (key_N c) || (negb (has (key_A c)) && has (key_R c)).

Definition touches (c : node) : bool :=
  has (key_D c) || has (key_N c) || has (key_A c) || has (key_R c).

(** In a list of subdiffs, those for which [patch] inserts an item and
    those for which it deletes one. *)
Definition inserts (c : node) : bool :=
  negb (has (key_D c) || has (key_N c)) && has (key_A c).

Definition deletes (c : node) : bool :=
  negb (has (key_D c) || has (key_N c)) && negb (has (key_A c))
  && has (key_R c).

(** ** Values and diffs held in a store *)

(** An object that holds no other: neither a list nor a dict. *)
Definition atom (o : Store.obj) : bool :=
  match o with
  | Store.OList _ | Store.ODict _ => false
  | _ => true
  end.

(** A value together with the place in the store of each of its objects:
    an object that is reached in two ways is there twice. *)
Inductive tree : Type :=
| TAtom (l : Store.loc) (o : Store.obj)
| TList (l : Store.loc) (items : list tree)
| TDict (l : Store.loc) (entries : list (string * tree)).

Section TreeInd.
Variable P : tree -> Prop.
Hypothesis HAtom : forall l o, P (TAtom l o).
Hypothesis HList : forall l items, Forall P items -> P (TList l items).
Hypothesis HDict : forall l entries,
    Forall (fun e => P (snd e)) entries -> P (TDict l entries).

Fixpoint tree_rect' (x : tree) : P x :=
  match x with
  | TAtom l o => HAtom l o
  | TList l items =>
      HList l items ((fix go (items : list tree) : Forall P items :=
                        match items with
                        | [] => Forall_nil _
                        | y :: t => Forall_cons y (tree_rect' y) (go t)
                        end) items)
  | TDict l entries =>
      HDict l entries ((fix go (entries : list (string * tree))
                          : Forall (fun e => P (snd e)) entries :=
                          match entries with
                          | [] => Forall_nil _
                          | e :: t =>
                              Forall_cons (P := fun e => P (snd e)) e
                                          (tree_rect' (snd e)) (go t)
                          end) entries)
  end.
End TreeInd.

Definition root (x : tree) : Store.loc :=
  match x with
  | TAtom l _ | TList l _ | TDict l _ => l
  end.

(** The value a tree of objects stands for. *)
Fixpoint tree_value (x : tree) : value :=
  match x with
  | TAtom _ o =>
      match o with
      | Store.OBool b => VBool b
      | Store.OInt z => VInt z
      | Store.OStr str => VStr str
      | _ => VNone
      end
  | TList _ items => VList (map tree_value items)
  | TDict _ entries => VDict (map (fun e => (fst e, tree_value (snd e))) entries)
  end.

(** Its lists and dicts, each as often as it is reached. *)
Fixpoint nodes (x : tree) : list Store.loc :=
  match x with
  | TAtom _ _ => []
  | TList l items => l :: flat_map nodes items
  | TDict l entries => l :: flat_map (fun e => nodes (snd e)) entries
  end.

(** The store has the objects of the tree where the tree says. *)
Inductive holds (s : Store.store) : tree -> Prop :=
| holds_atom (l : Store.loc) (o : Store.obj) :
    nth_error s l = Some o -> atom o = true -> holds s (TAtom l o)
| holds_list (l : Store.loc) (items : list tree) :
    nth_error s l = Some (Store.OList (map root items)) ->
    Forall (holds s) items -> holds s (TList l items)
| holds_dict (l : Store.loc) (entries : list (string * tree)) :
    nth_error s l = Some (Store.ODict (on_entries root entries)) ->
    Forall (fun e => holds s (snd e)) entries -> holds s (TDict l entries).

(** How many objects a tree has. *)
Fixpoint tree_size (x : tree) : nat :=
  match x with
  | TAtom _ _ => 1
  | TList _ items => S (list_sum (map tree_size items))
  | TDict _ entries => S (list_sum (map (fun e => tree_size (snd e)) entries))
  end.

(** How often [x] occurs in [F]. *)
Definition occ (F : list Store.loc) (x : Store.loc) : nat :=
  count_occ Nat.eq_dec F x.

(** One value under a key of a diff, A or N, and where the diff holds it:
    it is made of objects of [P]. *)
Definition payload_at (s : Store.store) (P : list Store.loc)
           (field : option value) (at_key : option Store.loc) : Prop :=
  match field, at_key with
  | Some v, Some p =>
      exists x, holds s x /\ tree_value x = v /\ root x = p
                /\ incl (nodes x) P
  | None, None => True
  | _, _ => False
  end.

(** The integer under I. *)
Definition index_at (s : Store.store) (field : option Z)
           (at_key : option Store.loc) : Prop :=
  match field, at_key with
  | Some z, Some p => nth_error s p = Some (Store.OInt z)
  | None, None => True
  | _, _ => False
  end.

(** What a diff holds, apart from what is under D: [n] is the dict at [d],
    with the items [entries], which has no other key than A, D, I, N, O, R
    and U.  The values under O, R and U are not looked at, only whether
    the keys are there. *)
Definition node_at (s : Store.store) (P : list Store.loc) (n : node)
           (d : Store.loc) (entries : list (string * Store.loc)) : Prop :=
  nth_error s d = Some (Store.ODict entries)
  /\ (forall k, In k (keys entries) ->
                In k ["A"; "D"; "I"; "N"; "O"; "R"; "U"])
  /\ payload_at s P (key_A n) (lookup "A" entries)
  /\ payload_at s P (key_N n) (lookup "N" entries)
  /\ has (key_O n) = has (lookup "O" entries)
  /\ has (key_R n) = has (lookup "R" entries)
  /\ has (key_U n) = has (lookup "U" entries)
  /\ index_at s (key_I n) (lookup "I" entries).

(** [is_diff s P St n d]: the object at [d] is the diff [n].  The dicts
    and lists the diff itself is made of are where [St] says, each of them
    once; what is under A and N is made of objects of [P]. *)
Inductive is_diff (s : Store.store) (P : list Store.loc)
  : (Store.loc -> Prop) -> node -> Store.loc -> Prop :=
| diff_leaf (St : Store.loc -> Prop) (n : node) (d : Store.loc)
            (entries : list (string * Store.loc)) :
    St d -> node_at s P n d entries ->
    key_D n = None -> lookup "D" entries = None ->
    is_diff s P St n d
| diff_dict (St : Store.loc -> Prop) (n : node) (d : Store.loc)
            (entries : list (string * Store.loc)) (es : list (string * node))
            (dl : Store.loc) (des : list (string * Store.loc)) :
    St d -> node_at s P n d entries ->
    key_D n = Some (PDict es) -> lookup "D" entries = Some dl ->
    St dl -> dl <> d -> nth_error s dl = Some (Store.ODict des) ->
    Forall2 (fun e de =>
               fst e = fst de
               /\ is_diff s P (fun l => St l /\ l <> d /\ l <> dl)
                          (snd e) (snd de)) es des ->
    is_diff s P St n d
| diff_list (St : Store.loc -> Prop) (n : node) (d : Store.loc)
            (entries : list (string * Store.loc)) (cs : list node)
            (dl : Store.loc) (items : list Store.loc) :
    St d -> node_at s P n d entries ->
    key_D n = Some (PList cs) -> lookup "D" entries = Some dl ->
    St dl -> dl <> d -> nth_error s dl = Some (Store.OList items) ->
    Forall2 (is_diff s P (fun l => St l /\ l <> d /\ l <> dl)) cs items ->
    is_diff s P St n d
| diff_other (St : Store.loc -> Prop) (n : node) (d : Store.loc)
             (entries : list (string * Store.loc)) (v : value)
             (dl : Store.loc) (o : Store.obj) :
    St d -> node_at s P n d entries ->
    key_D n = Some (POther v) -> lookup "D" entries = Some dl ->
    nth_error s dl = Some o -> atom o = true ->
    is_diff s P St n d.

(** From [s] to [s'] only lists and dicts of [W] were written to. *)
Definition writes (W : list Store.loc) (s s' : Store.store) : Prop :=
  List.length s' = List.length s
  /\ (forall l, ~ In l W -> nth_error s' l = nth_error s l)
  /\ (forall l o, nth_error s l = Some o -> atom o = true ->
                  nth_error s' l = Some o).

(** Turns and nested calls that [patch] needs for a diff. *)
Fixpoint span (n : node) : nat :=
  S match key_D n with
    | Some (PDict entries) =>
        (fix go (entries : list (string * node)) : nat :=
           match entries with
           | [] => 0
           | (_, c) :: rest => S (Nat.max (span c) (go rest))
           end) entries
    | Some (PList items) =>
        (fix go (items : list node) : nat :=
           match items with
           | [] => 0
           | c :: rest => S (Nat.max (span c) (go rest))
           end) items
    | _ => 0
    end.

Fixpoint span_each (items : list node) : nat :=
  match items with
  | [] => 0
  | c :: rest => S (Nat.max (span c) (span_each rest))
  end.

Fixpoint span_items (entries : list (string * node)) : nat :=
  match entries with
  | [] => 0
  | (_, c) :: rest => S (Nat.max (span c) (span_items rest))
  end.

(** ** Patching in place

    [in_place v n v']: [patch] makes [v'] of [v] with the diff [n], and on
    its way it changes only what was in [v] from the start: a subdiff with
    D is never applied to an item that an earlier subdiff has put there.
    In a list, [pre] has the items [patch] is done with and [rest] those
    it has not come to; the index of every subdiff that reads or changes
    the list is the length of [pre]. *)
Definition index_of (c : node) (i j : Z) : Z :=
  match key_I c with
  | Some idx => (idx + j)%Z
  | None => i
  end.

Inductive in_place : value -> node -> value -> Prop :=
| in_place_leaf (v : value) (n : node) :
    key_D n = None ->
    in_place v n (match key_N n with
                  | Some x => x
                  | None => v
                  end)
| in_place_dict (t t' : list (string * value)) (n : node)
                (es : list (string * node)) :
    key_D n = Some (PDict es) -> NoDup (keys es) ->
    in_place_items es t t' ->
    in_place (VDict t) n (VDict t')
| in_place_list (l pre rest : list value) (n : node) (cs : list node)
                (i j : Z) :
    key_D n = Some (PList cs) ->
    in_place_each cs [] l 0%Z 0%Z pre rest i j ->
    in_place (VList l) n (VList (pre ++ rest))
with in_place_items
  : list (string * node) -> list (string * value) -> list (string * value)
    -> Prop :=
| items_done (t : list (string * value)) : in_place_items [] t t
| items_patch (key : string) (c : node) (es : list (string * node))
              (t t' : list (string * value)) (old new : value) :
    has (key_D c) || has (key_N c) = true ->
    lookup key t = Some old -> in_place old c new ->
    in_place_items es (dict_set t key new) t' ->
    in_place_items ((key, c) :: es) t t'
| items_set (key : string) (c : node) (es : list (string * node))
            (t t' : list (string * value)) (v : value) :
    has (key_D c) || has (key_N c) = false -> key_A c = Some v ->
    in_place_items es (dict_set t key v) t' ->
    in_place_items ((key, c) :: es) t t'
| items_del (key : string) (c : node) (es : list (string * node))
            (t t' : list (string * value)) (old : value) :
    has (key_D c) || has (key_N c) = false -> key_A c = None ->
    has (key_R c) = true -> lookup key t = Some old ->
    in_place_items es (dict_del t key) t' ->
    in_place_items ((key, c) :: es) t t'
| items_pass (key : string) (c : node) (es : list (string * node))
             (t t' : list (string * value)) :
    has (key_D c) || has (key_N c) = false -> key_A c = None ->
    key_R c = None ->
    in_place_items es t t' ->
    in_place_items ((key, c) :: es) t t'
with in_place_each
  : list node -> list value -> list value -> Z -> Z
    -> list value -> list value -> Z -> Z -> Prop :=
| each_done (pre rest : list value) (i j : Z) :
    in_place_each [] pre rest i j pre rest i j
| each_skip (cs : list node) (pre rest pre' rest' : list value) (x : value)
            (i j i' j' : Z) :
    in_place_each cs (pre ++ [x]) rest i j pre' rest' i' j' ->
    in_place_each cs pre (x :: rest) i j pre' rest' i' j'
| each_patch (c : node) (cs : list node) (pre rest pre' rest' : list value)
             (x x' : value) (i j i' j' : Z) :
    index_of c i j = Z.of_nat (List.length pre) ->
    has (key_D c) || has (key_N c) = true ->
    in_place x c x' ->
    in_place_each cs (pre ++ [x']) rest (index_of c i j + 1)%Z j
                  pre' rest' i' j' ->
    in_place_each (c :: cs) pre (x :: rest) i j pre' rest' i' j'
| each_insert (c : node) (cs : list node) (pre rest pre' rest' : list value)
              (v : value) (i j i' j' : Z) :
    index_of c i j = Z.of_nat (List.length pre) ->
    has (key_D c) || has (key_N c) = false -> key_A c = Some v ->
    in_place_each cs (pre ++ [v]) rest (index_of c i j + 1)%Z (j + 1)%Z
                  pre' rest' i' j' ->
    in_place_each (c :: cs) pre rest i j pre' rest' i' j'
| each_delete (c : node) (cs : list node) (pre rest pre' rest' : list value)
              (x : value) (i j i' j' : Z) :
    index_of c i j = Z.of_nat (List.length pre) ->
    has (key_D c) || has (key_N c) = false -> key_A c = None ->
    has (key_R c) = true ->
    in_place_each cs pre rest (index_of c i j) (j - 1)%Z pre' rest' i' j' ->
    in_place_each (c :: cs) pre (x :: rest) i j pre' rest' i' j'
| each_pass (c : node) (cs : list node) (pre rest pre' rest' : list value)
            (i j i' j' : Z) :
    has (key_D c) || has (key_N c) = false -> key_A c = None ->
    key_R c = None ->
    in_place_each cs pre rest (index_of c i j + 1)%Z j pre' rest' i' j' ->
    in_place_each (c :: cs) pre rest i j pre' rest' i' j'.

(** * Properties *)

(** ** Dicts as item lists *)

Lemma patch_eq (target : value) (diff : node) :
  patch target diff =
  match key_D diff with
  | Some (PDict entries) => patch_items entries target
  | Some (PList children) =>
      st <- patch_each children (target, 0%Z, 0%Z) ;; Ok (fst (fst st))
  | Some (POther _) => Raise NotImplementedError
  | None =>
      match key_N diff with
      | Some n => Ok n
      | None => Ok target
      end
  end.
Proof.
  destruct diff as [fa fd fi fn fo fr fu]; simpl.
  destruct fd as [[entries | children | v] | ]; reflexivity.
Qed.

Lemma py_eq_list (la lb : list value) :
  py_eq (VList la) (VList lb) = list_eq la lb.
Proof.
  reflexivity.
Qed.

Lemma py_eq_dict (da db : list (string * value)) :
  py_eq (VDict da) (VDict db) =
  Nat.eqb (List.length da) (List.length db) && entries_eq da db.
Proof.
  simpl. f_equal. induction da as [| [k v] da IH]; simpl; auto.
  now rewrite IH.
Qed.

Lemma wf_dict (d : list (string * value)) :
  wf (VDict d) = nodup_keys (keys d) && wf_entries d.
Proof.
  reflexivity.
Qed.

Lemma depth_dict (d : list (string * value)) :
  depth (VDict d) = S (depth_entries d).
Proof.
  reflexivity.
Qed.

Lemma nodup_keys_NoDup (ks : list string) :
  nodup_keys ks = true <-> NoDup ks.
Proof.
  induction ks as [| k t IH]; simpl.
  - split; [constructor | reflexivity].
  - rewrite andb_true_iff, negb_true_iff, IH. split.
    + intros [Hk Ht]. constructor; auto. intros Hin.
      assert (existsb (String.eqb k) t = true) as E.
      { apply existsb_exists. exists k. split; auto. apply String.eqb_refl. }
      congruence.
    + intros H. inversion H as [| ? ? Hk Ht]; subst. split; auto.
      destruct (existsb (String.eqb k) t) eqn:E; auto.
      apply existsb_exists in E as [x [Hx Ex]].
      apply String.eqb_eq in Ex. subst x. contradiction.
Qed.

Lemma lookup_None {X : Type} (key : string) (d : list (string * X)) :
  lookup key d = None <-> ~ In key (keys d).
Proof.
  induction d as [| [k x] t IH]; simpl.
  - tauto.
  - destruct (String.eqb k key) eqn:E.
    + apply String.eqb_eq in E. split; [discriminate | intros H; tauto].
    + apply String.eqb_neq in E. rewrite IH. tauto.
Qed.

Lemma lookup_Some_In {X : Type} (key : string) (d : list (string * X)) (x : X) :
  lookup key d = Some x -> In (key, x) d.
Proof.
  induction d as [| [k y] t IH]; simpl; [discriminate |].
  destruct (String.eqb k key) eqn:E.
  - apply String.eqb_eq in E. intros [= ->]. subst. auto.
  - auto.
Qed.

Lemma lookup_In_keys {X : Type} (key : string) (d : list (string * X)) :
  In key (keys d) <-> exists x, lookup key d = Some x.
Proof.
  destruct (lookup key d) as [x |] eqn:E.
  - split; [eauto |]. intros _. apply lookup_Some_In in E.
    apply (in_map fst) in E. exact E.
  - apply lookup_None in E. split; [tauto | intros [x Hx]; discriminate].
Qed.

Lemma In_lookup_NoDup {X : Type} (key : string) (x : X) (d : list (string * X)) :
  NoDup (keys d) -> In (key, x) d -> lookup key d = Some x.
Proof.
  induction d as [| [k y] t IH]; simpl; [tauto |].
  intros Hnd [H | H]; inversion Hnd as [| ? ? Hk Ht]; subst.
  - injection H as -> ->. now rewrite String.eqb_refl.
  - destruct (String.eqb k key) eqn:E.
    + apply String.eqb_eq in E. subst k. exfalso. apply Hk.
      apply (in_map fst) in H. exact H.
    + auto.
Qed.

Lemma lookup_dict_set {X : Type} (d : list (string * X)) (key k : string) (x : X) :
  lookup k (dict_set d key x) = if String.eqb key k then Some x else lookup k d.
Proof.
  induction d as [| [k' y] t IH]; simpl.
  - reflexivity.
  - destruct (String.eqb k' key) eqn:E; simpl.
    + apply String.eqb_eq in E. subst k'.
      destruct (String.eqb key k); reflexivity.
    + destruct (String.eqb k' k) eqn:E'; auto.
      apply String.eqb_eq in E'. subst k'.
      rewrite String.eqb_sym. now rewrite E.
Qed.

Lemma keys_dict_set_new {X : Type} (d : list (string * X)) (key : string) (x : X) :
  ~ In key (keys d) -> dict_set d key x = d ++ [(key, x)].
Proof.
  induction d as [| [k y] t IH]; simpl; auto.
  intros H. destruct (String.eqb k key) eqn:E.
  - apply String.eqb_eq in E. tauto.
  - f_equal. apply IH. tauto.
Qed.

Lemma keys_dict_set {X : Type} (d : list (string * X)) (key : string) (x : X) :
  keys (dict_set d key x) = if existsb (String.eqb key) (keys d) then keys d
                            else keys d ++ [key].
Proof.
  induction d as [| [k y] t IH]; simpl; auto.
  rewrite (String.eqb_sym key k).
  destruct (String.eqb k key) eqn:E; simpl; auto.
  unfold keys in *. rewrite IH.
  destruct (existsb (String.eqb key) (map fst t)); reflexivity.
Qed.

Lemma In_keys_dict_set {X : Type} (d : list (string * X)) (key k : string) (x : X) :
  In k (keys (dict_set d key x)) <-> k = key \/ In k (keys d).
Proof.
  rewrite !lookup_In_keys, lookup_dict_set.
  destruct (String.eqb key k) eqn:E.
  - apply String.eqb_eq in E. split; eauto.
  - apply String.eqb_neq in E. split; [auto | intros [H | H]; congruence].
Qed.

Lemma NoDup_dict_set {X : Type} (d : list (string * X)) (key : string) (x : X) :
  NoDup (keys d) -> NoDup (keys (dict_set d key x)).
Proof.
  induction d as [| [k y] t IH]; simpl; intros H.
  - constructor; [tauto | constructor].
  - inversion H as [| ? ? Hk Ht]; subst.
    destruct (String.eqb k key) eqn:E; simpl.
    + constructor; auto.
    + constructor; auto. fold (keys (dict_set t key x)).
      rewrite In_keys_dict_set. apply String.eqb_neq in E. tauto.
Qed.

Lemma lookup_dict_del {X : Type} (d : list (string * X)) (key k : string) :
  NoDup (keys d) ->
  lookup k (dict_del d key) = if String.eqb key k then None else lookup k d.
Proof.
  induction d as [| [k' y] t IH]; simpl; intros H.
  - now destruct (String.eqb key k).
  - inversion H as [| ? ? Hk Ht]; subst.
    destruct (String.eqb k' key) eqn:E; simpl.
    + apply String.eqb_eq in E. subst k'.
      destruct (String.eqb key k) eqn:E'; auto.
      apply String.eqb_eq in E'. subst k. now apply lookup_None.
    + rewrite IH by assumption.
      destruct (String.eqb k' k) eqn:E'; auto.
      apply String.eqb_eq in E'. subst k'.
      rewrite String.eqb_sym in E. now rewrite E.
Qed.

Lemma NoDup_dict_del {X : Type} (d : list (string * X)) (key : string) :
  NoDup (keys d) -> NoDup (keys (dict_del d key)).
Proof.
  induction d as [| [k y] t IH]; simpl; intros H; auto.
  inversion H as [| ? ? Hk Ht]; subst.
  destruct (String.eqb k key) eqn:E; simpl; auto.
  constructor; auto. fold (keys (dict_del t key)).
  rewrite lookup_In_keys, lookup_dict_del by assumption.
  intros [x Hx]. destruct (String.eqb key k); [discriminate |].
  apply Hk. apply lookup_In_keys. eauto.
Qed.

(** ** The recursion of [Differ.diff] is well founded *)

Lemma depth_lookup (key : string) (d : list (string * value)) (x : value) :
  lookup key d = Some x -> depth x <= depth_entries d.
Proof.
  induction d as [| [k y] t IH]; simpl; [discriminate |].
  destruct (String.eqb k key).
  - intros [= ->]. lia.
  - intros H. apply IH in H. lia.
Qed.

Lemma depth_nth (l : list value) (i : nat) :
  depth (nth i l VNone) <= items_depth l.
Proof.
  revert i. induction l as [| x t IH]; intros [| i]; simpl; try lia.
  specialize (IH i). lia.
Qed.

Section Extensionality.
Variable self : Differ.
Variables f g : value -> value -> node.

Lemma diff_dicts_with_ext (a b : list (string * value)) :
  (forall x y, depth x <= depth_entries a -> f x y = g x y) ->
  diff_dicts_with self f a b = diff_dicts_with self g a b.
Proof.
  intros Hfg. unfold diff_dicts_with.
  assert (forall ks acc, fold_left (diff_dicts_step self f a b) ks acc
                         = fold_left (diff_dicts_step self g a b) ks acc) as E.
  { induction ks as [| k ks IH]; intros acc; simpl; auto.
    rewrite IH. f_equal. unfold diff_dicts_step.
    destruct (lookup k a) as [av |] eqn:Ea; auto.
    destruct (lookup k b) as [bv |]; auto.
    rewrite (Hfg av bv); auto. eapply depth_lookup; eauto. }
  now rewrite E.
Qed.

Section Lists.
Variables a b : list value.
Hypothesis Hfg : forall x y, depth x <= items_depth a -> f x y = g x y.

Lemma while_changed_ext (fuel ai bj : nat) (w : walk) :
  while_changed f fuel a b ai bj w = while_changed g fuel a b ai bj w.
Proof.
  revert w. induction fuel as [| fuel IH]; intros w; simpl; auto.
  rewrite Hfg by apply depth_nth. now rewrite IH.
Qed.

Lemma walk_block_ext (w : walk) (blk : nat * nat * nat) :
  walk_block self f a b w blk = walk_block self g a b w blk.
Proof.
  destruct blk as [[ai bj] k]. unfold walk_block.
  now rewrite while_changed_ext.
Qed.

Lemma diff_lists_with_ext :
  diff_lists_with self f a b = diff_lists_with self g a b.
Proof.
  unfold diff_lists_with, walk_blocks.
  generalize (lcs_blocks a b).
  generalize {| ret_D := []; cur_i := 0; cur_j := 0; force_index := false |}.
  intros w l. revert w. induction l as [| blk l IH]; intros w; simpl; auto.
  rewrite walk_block_ext. apply IH.
Qed.
End Lists.
End Extensionality.

Lemma diff_rec_fuel (self : Differ) (n m : nat) (a b : value) :
  depth a < n -> depth a < m -> diff_rec n self a b = diff_rec m self a b.
Proof.
  revert m a b. induction n as [| n IH]; intros [| m] a b Hn Hm; try lia.
  simpl. destruct (py_eq a b); auto.
  destruct a as [| | | | la | da]; auto; destruct b as [| | | | lb | db]; auto.
  - apply diff_lists_with_ext. intros x y Hx. apply IH.
    + change (depth (VList la)) with (S (items_depth la)) in Hn. lia.
    + change (depth (VList la)) with (S (items_depth la)) in Hm. lia.
  - apply diff_dicts_with_ext. intros x y Hx. rewrite depth_dict in Hn, Hm.
    apply IH; lia.
Qed.

(** [Differ.diff] as it is written. *)
Lemma diff_eq (self : Differ) (a b : value) :
  diff self a b =
  if py_eq a b then
    if op_u self then set_U empty_node a else empty_node
  else
    match a, b with
    | VDict da, VDict db => diff_dicts self da db
    | VList la, VList lb => diff_lists self la lb
    | _, _ => get_default_diff self a b
    end.
Proof.
  unfold diff at 1. remember (depth a) as n eqn:En.
  simpl. destruct (py_eq a b); auto.
  destruct a as [| | | | la | da]; auto; destruct b as [| | | | lb | db]; auto.
  - apply diff_lists_with_ext. intros x y Hx. unfold diff.
    change (depth (VList la)) with (S (items_depth la)) in En.
    apply diff_rec_fuel; lia.
  - apply diff_dicts_with_ext. intros x y Hx. unfold diff.
    rewrite depth_dict in En. apply diff_rec_fuel; lia.
Qed.

(** ** The shape of what [Differ.diff] returns *)

Lemma diff_shape (self : Differ) (a b : value) :
  key_A (diff self a b) = None /\ key_R (diff self a b) = None
  /\ key_I (diff self a b) = None.
Proof.
  rewrite diff_eq. destruct (py_eq a b).
  - destruct (op_u self); simpl; auto.
  - destruct a as [| | | | la | da]; destruct b as [| | | | lb | db];
      try solve [unfold get_default_diff; destruct (op_n self), (op_o self);
                 simpl; auto].
    + unfold diff_lists, diff_lists_with.
      destruct (ret_D _); simpl; auto.
    + unfold diff_dicts, diff_dicts_with.
      destruct (fold_left _ _ _); simpl; auto.
Qed.

Lemma truthy_false (n : node) : truthy n = false -> n = empty_node.
Proof.
  destruct n as [[?|] [?|] [?|] [?|] [?|] [?|] [?|]]; simpl; try discriminate.
  reflexivity.
Qed.

(** [patch] looks at the keys [D] and [N] of the diff it is given, and at
    no other. *)
Lemma patch_set_I (target : value) (n : node) (i : Z) :
  patch target (set_I n i) = patch target n.
Proof. rewrite !patch_eq. reflexivity. Qed.

(** ** Equality is reflexive on well-formed values *)

Lemma entries_eq_In (da db : list (string * value)) :
  entries_eq da db = true <->
  forall k v, In (k, v) da -> exists w, lookup k db = Some w /\ py_eq v w = true.
Proof.
  induction da as [| [k v] da IH]; simpl.
  - split; [intros _ ? ? [] | reflexivity].
  - rewrite andb_true_iff, IH. split.
    + intros [H1 H2] k' v' [[= <- <-] | Hin]; auto.
      destruct (lookup k db) as [w |]; [eauto | discriminate].
    + intros H. split; [| intros; apply H; auto].
      destruct (H k v) as [w [-> Hw]]; auto.
Qed.

Lemma list_eq_nth (la lb : list value) :
  list_eq la lb = true <->
  List.length la = List.length lb
  /\ forall i, i < List.length la -> py_eq (nth i la VNone) (nth i lb VNone) = true.
Proof.
  revert lb. induction la as [| x la IH]; intros [| y lb]; simpl.
  - split; [split; [auto | intros; lia] | auto].
  - split; [discriminate | intros [H _]; discriminate].
  - split; [discriminate | intros [H _]; discriminate].
  - rewrite andb_true_iff, IH. split.
    + intros [Hx [Hl Hn]]. split; [lia |]. intros [| i] Hi; auto.
      apply Hn. lia.
    + intros [Hl Hn]. split; [apply (Hn 0); lia |]. split; [lia |].
      intros i Hi. apply (Hn (S i)). lia.
Qed.

Lemma wf_entries_In (d : list (string * value)) :
  wf_entries d = true <-> forall k v, In (k, v) d -> wf v = true.
Proof.
  induction d as [| [k v] d IH]; simpl.
  - split; [intros _ ? ? [] | reflexivity].
  - rewrite andb_true_iff, IH. split.
    + intros [H1 H2] k' v' [[= <- <-] | Hin]; eauto.
    + intros H. split; eauto.
Qed.

Lemma wf_lookup (key : string) (d : list (string * value)) (v : value) :
  wf (VDict d) = true -> lookup key d = Some v -> wf v = true.
Proof.
  rewrite wf_dict, andb_true_iff, wf_entries_In. intros [_ H] E.
  eapply H, lookup_Some_In, E.
Qed.

Lemma wf_nth (l : list value) (i : nat) :
  wf (VList l) = true -> wf (nth i l VNone) = true.
Proof.
  simpl. rewrite forallb_forall. intros H.
  destruct (Nat.lt_ge_cases i (List.length l)) as [Hi | Hi].
  - apply H, nth_In, Hi.
  - now rewrite nth_overflow.
Qed.

Lemma py_eq_refl (v : value) : wf v = true -> py_eq v v = true.
Proof.
  induction v as [| b | z | s | l IH | d IH] using value_rect'.
  - reflexivity.
  - intros _. apply Bool.eqb_reflx.
  - intros _. apply Z.eqb_refl.
  - intros _. apply String.eqb_refl.
  - intros Hwf. rewrite py_eq_list. simpl in Hwf.
    induction IH as [| x l Hx _ IHl]; simpl in *; auto.
    apply andb_true_iff in Hwf as [H1 H2]. rewrite Hx, IHl; auto.
  - intros Hwf. rewrite wf_dict in Hwf. rewrite py_eq_dict.
    apply andb_true_iff in Hwf as [Hnd Hwf].
    apply nodup_keys_NoDup in Hnd. rewrite Nat.eqb_refl. simpl.
    apply entries_eq_In. intros k v Hin. exists v. split.
    + now apply In_lookup_NoDup.
    + rewrite Forall_forall in IH. apply (IH (k, v) Hin).
      rewrite wf_entries_In in Hwf. eauto.
Qed.

(** ** Walking the matching blocks *)

Section Walk.
Variable self : Differ.
Variable f : value -> value -> node.
Variables a b : list value.

Lemma changed_turn_cursors (w : walk) :
  cur_i (changed_turn f a b w) = cur_i w + 1 /\ cur_j (changed_turn f a b w) = cur_j w + 1.
Proof.
  unfold changed_turn. destruct (truthy _); simpl; auto.
Qed.

Lemma removed_turn_cursors (w : walk) :
  cur_i (removed_turn self a w) = cur_i w + 1 /\ cur_j (removed_turn self a w) = cur_j w.
Proof.
  unfold removed_turn. destruct (op_r self); simpl; auto.
Qed.

Lemma added_turn_cursors (w : walk) :
  cur_i (added_turn self b w) = cur_i w /\ cur_j (added_turn self b w) = cur_j w + 1.
Proof.
  unfold added_turn. destruct (op_a self); simpl; auto.
Qed.

Lemma while_changed_step (fuel ai bj : nat) (w : walk) :
  while_changed f (S fuel) a b ai bj w =
  if (cur_i w <? ai) && (cur_j w <? bj)
  then while_changed f fuel a b ai bj (changed_turn f a b w) else w.
Proof. reflexivity. Qed.

Lemma while_removed_step (fuel ai : nat) (w : walk) :
  while_removed self (S fuel) a ai w =
  if cur_i w <? ai then while_removed self fuel a ai (removed_turn self a w) else w.
Proof. reflexivity. Qed.

Lemma while_added_step (fuel bj : nat) (w : walk) :
  while_added self (S fuel) b bj w =
  if cur_j w <? bj then while_added self fuel b bj (added_turn self b w) else w.
Proof. reflexivity. Qed.

(** Where the three loops leave the cursors. *)
Lemma while_changed_cursors (fuel ai bj : nat) (w : walk) :
  ai - cur_i w <= fuel ->
  exists n, cur_i (while_changed f fuel a b ai bj w) = cur_i w + n
            /\ cur_j (while_changed f fuel a b ai bj w) = cur_j w + n
            /\ cur_i (while_changed f fuel a b ai bj w) <= Nat.max (cur_i w) ai
            /\ cur_j (while_changed f fuel a b ai bj w) <= Nat.max (cur_j w) bj.
Proof.
  revert w. induction fuel as [| fuel IH]; intros w Hf.
  - exists 0. simpl. lia.
  - rewrite while_changed_step.
    destruct ((cur_i w <? ai) && (cur_j w <? bj)) eqn:E.
    + apply andb_true_iff in E as [E1 E2].
      apply Nat.ltb_lt in E1, E2.
      destruct (changed_turn_cursors w) as [Hi Hj].
      destruct (IH (changed_turn f a b w)) as [n Hn]; [lia |].
      exists (S n). lia.
    + exists 0. lia.
Qed.

Lemma while_removed_cursors (fuel ai : nat) (w : walk) :
  ai - cur_i w <= fuel ->
  cur_i (while_removed self fuel a ai w) = Nat.max (cur_i w) ai
  /\ cur_j (while_removed self fuel a ai w) = cur_j w.
Proof.
  revert w. induction fuel as [| fuel IH]; intros w Hf.
  - simpl. lia.
  - rewrite while_removed_step. destruct (cur_i w <? ai) eqn:E.
    + apply Nat.ltb_lt in E. destruct (removed_turn_cursors w) as [Hi Hj].
      destruct (IH (removed_turn self a w)) as [H1 H2]; [lia |]. simpl. lia.
    + apply Nat.ltb_ge in E. lia.
Qed.

Lemma while_added_cursors (fuel bj : nat) (w : walk) :
  bj - cur_j w <= fuel ->
  cur_i (while_added self fuel b bj w) = cur_i w
  /\ cur_j (while_added self fuel b bj w) = Nat.max (cur_j w) bj.
Proof.
  revert w. induction fuel as [| fuel IH]; intros w Hf.
  - simpl. lia.
  - rewrite while_added_step. destruct (cur_j w <? bj) eqn:E.
    + apply Nat.ltb_lt in E. destruct (added_turn_cursors w) as [Hi Hj].
      destruct (IH (added_turn self b w)) as [H1 H2]; [lia |]. simpl. lia.
    + apply Nat.ltb_ge in E. lia.
Qed.

(** After a block the cursors stand at its start, not past it. *)
Lemma walk_block_cursors (w : walk) (ai bj k : nat) :
  cur_i (walk_block self f a b w (ai, bj, k)) = Nat.max (cur_i w) ai
  /\ cur_j (walk_block self f a b w (ai, bj, k)) = Nat.max (cur_j w) bj.
Proof.
  unfold walk_block.
  destruct (while_changed_cursors (ai - cur_i w) ai bj w) as [n Hn]; [lia |].
  set (w1 := while_changed f (ai - cur_i w) a b ai bj w) in *.
  destruct (while_removed_cursors (ai - cur_i w1) ai w1) as [H1 H2]; [lia |].
  set (w2 := while_removed self (ai - cur_i w1) a ai w1) in *.
  destruct (while_added_cursors (bj - cur_j w2) bj w2) as [H3 H4]; [lia |].
  simpl. lia.
Qed.

(** A property kept by each turn of each loop is kept by the walk, as
    long as the blocks lie within the two lists. *)
Section Invariant.
Variable Inv : walk -> Prop.
Hypothesis Hchanged : forall w,
    Inv w -> cur_i w < List.length a -> cur_j w < List.length b ->
    Inv (changed_turn f a b w).
Hypothesis Hremoved : forall w,
    Inv w -> cur_i w < List.length a -> cur_j w <= List.length b ->
    Inv (removed_turn self a w).
Hypothesis Hadded : forall w,
    Inv w -> cur_i w <= List.length a -> cur_j w < List.length b ->
    Inv (added_turn self b w).

Lemma while_changed_inv (fuel ai bj : nat) (w : walk) :
  ai <= List.length a -> bj <= List.length b ->
  Inv w -> Inv (while_changed f fuel a b ai bj w).
Proof.
  intros Ha Hb. revert w. induction fuel as [| fuel IH]; intros w Hw; auto.
  rewrite while_changed_step.
  destruct ((cur_i w <? ai) && (cur_j w <? bj)) eqn:E; auto.
  apply andb_true_iff in E as [E1 E2]. apply Nat.ltb_lt in E1, E2.
  apply IH, Hchanged; auto; lia.
Qed.

Lemma while_removed_inv (fuel ai : nat) (w : walk) :
  ai <= List.length a -> cur_j w <= List.length b ->
  Inv w -> Inv (while_removed self fuel a ai w).
Proof.
  intros Ha. revert w. induction fuel as [| fuel IH]; intros w Hb Hw; auto.
  rewrite while_removed_step. destruct (cur_i w <? ai) eqn:E; auto.
  apply Nat.ltb_lt in E. apply IH.
  - destruct (removed_turn_cursors w). lia.
  - apply Hremoved; auto; lia.
Qed.

Lemma while_added_inv (fuel bj : nat) (w : walk) :
  bj <= List.length b -> cur_i w <= List.length a ->
  Inv w -> Inv (while_added self fuel b bj w).
Proof.
  intros Hb. revert w. induction fuel as [| fuel IH]; intros w Ha Hw; auto.
  rewrite while_added_step. destruct (cur_j w <? bj) eqn:E; auto.
  apply Nat.ltb_lt in E. apply IH.
  - destruct (added_turn_cursors w). lia.
  - apply Hadded; auto; lia.
Qed.

Lemma walk_block_inv (w : walk) (blk : nat * nat * nat) :
  within a b blk -> inside a b w -> Inv w ->
  Inv (walk_block self f a b w blk) /\ inside a b (walk_block self f a b w blk).
Proof.
  destruct blk as [[ai bj] k]. intros [Ha Hb] [Hi Hj] Hw. simpl in Ha, Hb.
  split.
  - unfold walk_block.
    destruct (while_changed_cursors (ai - cur_i w) ai bj w) as [n Hn]; [lia |].
    set (w1 := while_changed f (ai - cur_i w) a b ai bj w) in *.
    assert (Inv w1) as Hw1 by (apply while_changed_inv; auto).
    destruct (while_removed_cursors (ai - cur_i w1) ai w1) as [H1 H2]; [lia |].
    set (w2 := while_removed self (ai - cur_i w1) a ai w1) in *.
    assert (Inv w2) as Hw2 by (apply while_removed_inv; auto; lia).
    apply while_added_inv; auto. lia.
  - destruct (walk_block_cursors w ai bj k) as [H1 H2].
    unfold inside. lia.
Qed.

Lemma fold_walk_inv (blocks : list (nat * nat * nat)) (w : walk) :
  Forall (within a b) blocks -> inside a b w -> Inv w ->
  Inv (fold_left (walk_block self f a b) blocks w)
  /\ inside a b (fold_left (walk_block self f a b) blocks w).
Proof.
  revert w. induction blocks as [| blk blocks IH]; intros w Hb Hi Hw; simpl.
  - auto.
  - inversion Hb as [| ? ? Hblk Hrest]; subst.
    destruct (walk_block_inv w blk) as [H1 H2]; auto.
Qed.
End Invariant.

(** A last block [(len(a), len(b), _)] takes both cursors to the end. *)
Lemma fold_walk_end (blocks : list (nat * nat * nat)) (k : nat) (w : walk) :
  Forall (within a b) blocks -> inside a b w ->
  cur_i (fold_left (walk_block self f a b)
                   (blocks ++ [(List.length a, List.length b, k)]) w)
  = List.length a
  /\ cur_j (fold_left (walk_block self f a b)
                      (blocks ++ [(List.length a, List.length b, k)]) w)
     = List.length b.
Proof.
  intros Hb Hi. rewrite fold_left_app. cbn [fold_left].
  destruct (fold_walk_inv (fun _ => True)) with (blocks := blocks) (w := w)
    as [_ [H1 H2]]; auto.
  match goal with
  | |- context [walk_block self f a b ?w0 _] =>
      destruct (walk_block_cursors w0 (List.length a) (List.length b) k)
        as [H3 H4]
  end.
  lia.
Qed.
End Walk.

(** ** The matcher stays inside its ranges and terminates *)

Section MatcherFacts.
Context {X : Type} (eqb : X -> X -> bool).
Variables a b : list X.

Lemma runs_ok_nil (blo r : nat) : runs_ok blo r [].
Proof. intros j. simpl. lia. Qed.

Lemma scan_row_fits (alo ahi blo bhi i : nat) (j2len : list (nat * nat))
      (js : list nat) (newj2len : list (nat * nat)) (best : Match) :
  alo <= i -> i < ahi ->
  runs_ok blo (i - alo) j2len ->
  runs_ok blo (i - alo + 1) newj2len ->
  fits alo ahi blo bhi best ->
  runs_ok blo (i - alo + 1) (fst (scan_row i blo bhi j2len js newj2len best))
  /\ fits alo ahi blo bhi (snd (scan_row i blo bhi j2len js newj2len best)).
Proof.
  intros Hlo Hhi Hold. revert newj2len best.
  induction js as [| j js IH]; intros newj2len best Hnew Hbest; simpl; auto.
  destruct (j <? blo) eqn:E1; auto.
  destruct (bhi <=? j) eqn:E2; auto.
  apply Nat.ltb_ge in E1. apply Nat.leb_gt in E2.
  destruct best as [[besti bestj] bestsize].
  assert (j2len_prev j2len j + 1 <= i - alo + 1
          /\ j2len_prev j2len j + 1 <= j + 1 - blo) as [K1 K2].
  { destruct j as [| j']; unfold j2len_prev.
    - lia.
    - destruct (Hold j'). lia. }
  apply IH.
  - intros j'. simpl. destruct (Nat.eqb j j') eqn:E.
    + apply Nat.eqb_eq in E. subst j'. auto.
    + apply Hnew.
  - destruct (bestsize <? j2len_prev j2len j + 1); auto.
    unfold fits. lia.
Qed.

Lemma scan_rows_fits (alo ahi blo bhi : nat) (n i : nat)
      (j2len : list (nat * nat)) (best : Match) :
  alo <= i -> i + n <= ahi ->
  runs_ok blo (i - alo) j2len ->
  fits alo ahi blo bhi best ->
  fits alo ahi blo bhi (scan_rows eqb a b blo bhi (seq i n) j2len best).
Proof.
  revert i j2len best.
  induction n as [| n IH]; intros i j2len best Hlo Hhi Hruns Hbest; simpl; auto.
  match goal with
  | |- context [scan_row i blo bhi j2len ?js [] best] =>
      destruct (scan_row_fits alo ahi blo bhi i j2len js [] best) as [H1 H2];
        auto; try lia; try apply runs_ok_nil;
        destruct (scan_row i blo bhi j2len js [] best) as [newj2len best']
  end.
  apply IH; auto; try lia.
  replace (S i - alo) with (i - alo + 1) by lia. exact H1.
Qed.

Lemma extend_left_fits (fuel alo ahi blo bhi : nat) (m : Match) :
  fits alo ahi blo bhi m ->
  fits alo ahi blo bhi (extend_left eqb fuel a b alo blo m).
Proof.
  revert m. induction fuel as [| fuel IH]; intros [[i j] k] H; simpl; auto.
  destruct ((alo <? i) && (blo <? j) && nth_eqb eqb a b (i - 1) (j - 1)) eqn:E;
    auto.
  apply andb_true_iff in E as [E _]. apply andb_true_iff in E as [E1 E2].
  apply Nat.ltb_lt in E1, E2. apply IH. unfold fits in *. lia.
Qed.

Lemma extend_right_fits (fuel alo ahi blo bhi : nat) (m : Match) :
  fits alo ahi blo bhi m ->
  fits alo ahi blo bhi (extend_right eqb fuel a b ahi bhi m).
Proof.
  revert m. induction fuel as [| fuel IH]; intros [[i j] k] H; simpl; auto.
  destruct ((i + k <? ahi) && (j + k <? bhi)
            && nth_eqb eqb a b (i + k) (j + k)) eqn:E; auto.
  apply andb_true_iff in E as [E _]. apply andb_true_iff in E as [E1 E2].
  apply Nat.ltb_lt in E1, E2. apply IH. unfold fits in *. lia.
Qed.

Lemma find_longest_match_fits (alo ahi blo bhi : nat) :
  alo <= ahi -> blo <= bhi ->
  fits alo ahi blo bhi (find_longest_match eqb a b alo ahi blo bhi).
Proof.
  intros Ha Hb. unfold find_longest_match.
  apply extend_right_fits, extend_left_fits, scan_rows_fits; auto; try lia.
  - apply runs_ok_nil.
  - unfold fits. lia.
Qed.

Lemma queue_cost_app (q1 q2 : list (nat * nat * nat * nat)) :
  queue_cost (q1 ++ q2) = queue_cost q1 + queue_cost q2.
Proof. unfold queue_cost. now rewrite map_app, list_sum_app. Qed.

Lemma queue_cost_one (q : nat * nat * nat * nat) :
  queue_cost [q] = range_cost q.
Proof. unfold queue_cost. simpl. lia. Qed.

Lemma blocks_loop_spec (fuel : nat) (queue : list (nat * nat * nat * nat))
      (acc : list Match) :
  queue_cost queue <= fuel ->
  Forall (range_ok a b) queue -> Forall (block_ok a b) acc ->
  exists l, blocks_loop eqb fuel a b queue acc = Some l
            /\ Forall (block_ok a b) l.
Proof.
  revert queue acc.
  induction fuel as [| fuel IH]; intros queue acc Hcost Hq Hacc.
  - destruct queue as [| q queue].
    + exists acc. auto.
    + unfold queue_cost in Hcost. simpl in Hcost.
      destruct q as [[[alo ahi] blo] bhi]. simpl in Hcost. lia.
  - destruct queue as [| q0 queue0] eqn:Eq.
    + exists acc. auto.
    + rewrite <- Eq in *. assert (queue <> []) as Hne by (subst; discriminate).
      clear Eq q0 queue0.
      rewrite (app_removelast_last (0, 0, 0, 0) Hne) in Hcost, Hq.
      change (blocks_loop eqb (S fuel) a b queue acc) with
        (match queue with
         | [] => Some acc
         | _ =>
             let '(alo, ahi, blo, bhi) := last queue (0, 0, 0, 0) in
             let queue := removelast queue in
             let '(i, j, k) := find_longest_match eqb a b alo ahi blo bhi in
             if Nat.eqb k 0 then blocks_loop eqb fuel a b queue acc
             else
               let queue :=
                 if (alo <? i) && (blo <? j) then queue ++ [(alo, i, blo, j)]
                 else queue in
               let queue :=
                 if (i + k <? ahi) && (j + k <? bhi)
                 then queue ++ [(i + k, ahi, j + k, bhi)]
                 else queue in
               blocks_loop eqb fuel a b queue (acc ++ [(i, j, k)])
         end).
      destruct queue as [| q0 queue0] eqn:Eq; [congruence |].
      rewrite <- Eq in *. clear Eq q0 queue0.
      set (rest := removelast queue) in *.
      destruct (last queue (0, 0, 0, 0)) as [[[alo ahi] blo] bhi].
      rewrite queue_cost_app in Hcost.
      apply Forall_app in Hq as [Hrest Hlast].
      inversion Hlast as [| ? ? Hr _]; subst. destruct Hr as [R1 [R2 [R3 R4]]].
      rewrite queue_cost_one in Hcost. unfold range_cost in Hcost.
      pose proof (find_longest_match_fits alo ahi blo bhi R1 R3) as Hfit.
      destruct (find_longest_match eqb a b alo ahi blo bhi) as [[i j] k].
      destruct Hfit as [F1 [F2 [F3 F4]]].
      destruct (Nat.eqb k 0) eqn:Ek.
      * apply IH; auto. lia.
      * apply Nat.eqb_neq in Ek. apply IH.
        -- destruct ((alo <? i) && (blo <? j)),
             ((i + k <? ahi) && (j + k <? bhi));
             rewrite ?queue_cost_app, ?queue_cost_one; unfold range_cost; lia.
        -- assert (range_ok a b (alo, i, blo, j)) by (unfold range_ok; lia).
           assert (range_ok a b (i + k, ahi, j + k, bhi))
             by (unfold range_ok; lia).
           destruct ((alo <? i) && (blo <? j)),
             ((i + k <? ahi) && (j + k <? bhi));
             repeat (apply Forall_app; split); auto.
        -- apply Forall_app. split; auto. constructor; auto.
           unfold block_ok. simpl. lia.
Qed.

(** The fuel given by [get_matching_blocks] is never used up. *)
Lemma blocks_loop_terminates :
  exists l,
    blocks_loop eqb (2 * List.length a + 2) a b
                [(0, List.length a, 0, List.length b)] [] = Some l
    /\ Forall (block_ok a b) l.
Proof.
  apply blocks_loop_spec.
  - unfold queue_cost. simpl. lia.
  - constructor; [unfold range_ok; lia | constructor].
  - constructor.
Qed.

Lemma insert_sorted_ok (x : Match) (l : list Match) :
  block_ok a b x -> Forall (block_ok a b) l ->
  Forall (block_ok a b) (insert_sorted x l).
Proof.
  intros Hx. induction l as [| y t IH]; intros Hl; simpl.
  - auto.
  - inversion Hl; subst. destruct (match_leb x y); auto.
Qed.

Lemma sort_blocks_ok (l : list Match) :
  Forall (block_ok a b) l -> Forall (block_ok a b) (sort_blocks l).
Proof.
  induction l as [| x t IH]; intros Hl; simpl; auto.
  inversion Hl; subst. apply insert_sorted_ok; auto.
Qed.

Lemma collapse_ok (blocks : list Match) (cur : Match) (acc : list Match) :
  Forall (block_ok a b) blocks -> block_ok a b cur ->
  Forall (block_ok a b) acc ->
  Forall (block_ok a b) (collapse blocks cur acc).
Proof.
  revert cur acc.
  induction blocks as [| [[i2 j2] k2] t IH]; intros [[i1 j1] k1] acc Hb Hc Ha;
    simpl.
  - destruct (Nat.eqb k1 0); auto. apply Forall_app. auto.
  - inversion Hb; subst.
    destruct (Nat.eqb (i1 + k1) i2 && Nat.eqb (j1 + k1) j2).
    + apply IH; auto.
    + apply IH; auto. destruct (Nat.eqb k1 0); auto. apply Forall_app. auto.
Qed.

(** The blocks handed to the differ: all inside the two sequences, the
    last one the sentinel [(len(a), len(b), 0)]. *)
Lemma get_matching_blocks_spec :
  exists l, get_matching_blocks eqb a b
            = l ++ [(List.length a, List.length b, 0)]
            /\ Forall (block_ok a b) l.
Proof.
  unfold get_matching_blocks.
  destruct blocks_loop_terminates as [found [-> Hfound]].
  eexists. split; [reflexivity |].
  apply collapse_ok; auto.
  - now apply sort_blocks_ok.
  - unfold block_ok. simpl. lia.
Qed.
End MatcherFacts.

(** ** Patching what the differ wrote *)

Lemma patch_each_app (l1 l2 : list node) (st : value * Z * Z) :
  patch_each (l1 ++ l2) st = (st' <- patch_each l1 st ;; patch_each l2 st').
Proof.
  revert st. induction l1 as [| x l1 IH]; intros st; simpl; auto.
  destruct (patch_list_step _ x st); simpl; auto.
Qed.

Lemma patch_items_app (l1 l2 : list (string * node)) (target : value) :
  patch_items (l1 ++ l2) target = (t <- patch_items l1 target ;; patch_items l2 t).
Proof.
  revert target. induction l1 as [| [k x] l1 IH]; intros target; simpl; auto.
  destruct (patch_dict_step _ k x target); simpl; auto.
Qed.

Lemma skipn_nth_cons {X : Type} (l : list X) (i : nat) (d : X) :
  i < List.length l -> skipn i l = nth i l d :: skipn (S i) l.
Proof.
  revert i. induction l as [| x t IH]; intros [| i] H; simpl in *; try lia; auto.
  apply IH. lia.
Qed.

Lemma firstn_succ {X : Type} (l : list X) (j : nat) (d : X) :
  j < List.length l -> firstn (S j) l = firstn j l ++ [nth j l d].
Proof.
  revert j. induction l as [| x t IH]; intros [| j] H; simpl in *; try lia; auto.
  f_equal. apply IH. lia.
Qed.

Lemma list_eq_app (p1 q1 p2 q2 : list value) :
  list_eq p1 q1 = true -> list_eq p2 q2 = true ->
  list_eq (p1 ++ p2) (q1 ++ q2) = true.
Proof.
  revert q1. induction p1 as [| x p1 IH]; intros [| y q1]; simpl;
    try discriminate; auto.
  rewrite !andb_true_iff. intros [H1 H2] H3. auto.
Qed.

Lemma norm_index_nat (len n : nat) :
  n < len -> norm_index len (Z.of_nat n) = Some n.
Proof.
  intros H. unfold norm_index.
  destruct (Z.of_nat n <? 0)%Z eqn:E; [apply Z.ltb_lt in E; lia |].
  rewrite E. simpl.
  destruct (Z.of_nat len <=? Z.of_nat n)%Z eqn:E'; [apply Z.leb_le in E'; lia |].
  now rewrite Nat2Z.id.
Qed.

Lemma list_set_middle {X : Type} (pre rest : list X) (x y : X) :
  list_set (pre ++ x :: rest) (List.length pre) y = pre ++ y :: rest.
Proof. induction pre as [| z pre IH]; simpl; congruence. Qed.

Lemma list_del_middle {X : Type} (pre rest : list X) (x : X) :
  list_del (pre ++ x :: rest) (List.length pre) = pre ++ rest.
Proof. induction pre as [| z pre IH]; simpl; congruence. Qed.

Lemma list_insert_middle {X : Type} (pre rest : list X) (x : X) :
  list_insert (pre ++ rest) (Z.of_nat (List.length pre)) x = pre ++ x :: rest.
Proof.
  unfold list_insert.
  destruct (Z.of_nat (List.length pre) <? 0)%Z eqn:E; [apply Z.ltb_lt in E; lia |].
  rewrite length_app, Nat2Z.inj_add, Z.min_l by lia. rewrite Nat2Z.id.
  rewrite firstn_app, skipn_app, Nat.sub_diag, firstn_all, skipn_all. simpl.
  now rewrite app_nil_r.
Qed.

Lemma tag_keys (w : walk) (x : node) :
  key_A (tag w x) = key_A x /\ key_D (tag w x) = key_D x
  /\ key_N (tag w x) = key_N x /\ key_R (tag w x) = key_R x
  /\ key_O (tag w x) = key_O x /\ key_U (tag w x) = key_U x.
Proof. unfold tag. destruct (force_index w); simpl; auto 10. Qed.

Lemma patch_tag (w : walk) (x : node) (target : value) :
  patch target (tag w x) = patch target x.
Proof. unfold tag. destruct (force_index w); auto using patch_set_I. Qed.

Section Turns.
Variable self : Differ.
Variable f : value -> value -> node.
Variables a b : list value.

Lemma changed_turn_ret (w : walk) :
  let subdiff := f (nth (cur_i w) a VNone) (nth (cur_j w) b VNone) in
  ret_D (changed_turn f a b w)
  = (if truthy subdiff then ret_D w ++ [tag w subdiff] else ret_D w)
  /\ force_index (changed_turn f a b w) = negb (truthy subdiff).
Proof. unfold changed_turn. destruct (truthy _); simpl; auto. Qed.

Lemma removed_turn_ret (w : walk) :
  let x := set_R empty_node
             (if op_trim_r self then VNone else nth (cur_i w) a VNone) in
  ret_D (removed_turn self a w)
  = (if op_r self then ret_D w ++ [tag w x] else ret_D w)
  /\ force_index (removed_turn self a w) = negb (op_r self).
Proof. unfold removed_turn. destruct (op_r self); simpl; auto. Qed.

Lemma added_turn_ret (w : walk) :
  let x := set_A empty_node (nth (cur_j w) b VNone) in
  ret_D (added_turn self b w)
  = (if op_a self then ret_D w ++ [tag w x] else ret_D w)
  /\ force_index (added_turn self b w) = negb (op_a self).
Proof. unfold added_turn. destruct (op_a self); simpl; auto. Qed.
End Turns.

(** One step of the list loop of [patch], at a cursor that stands right
    after the items [pre]. *)
Section PatchStep.
Variables (c : node) (pre rest : list value) (ip jp : Z).
Hypothesis Hidx :
  match key_I c with
  | Some idx => (idx + jp)%Z
  | None => ip
  end = Z.of_nat (List.length pre).

Lemma step_recurse (x x' : value) :
  has (key_D c) || has (key_N c) = true ->
  patch x c = Ok x' ->
  patch_list_step (fun t => patch t c) c (VList (pre ++ x :: rest), ip, jp)
  = Ok (VList (pre ++ x' :: rest), (Z.of_nat (List.length pre) + 1)%Z, jp).
Proof.
  intros Hdn Hx. unfold patch_list_step. rewrite Hidx, Hdn.
  unfold patch_index. rewrite norm_index_nat.
  - rewrite nth_middle, Hx. simpl. now rewrite list_set_middle.
  - rewrite length_app. simpl. lia.
Qed.

Lemma step_pass (target : value) :
  has (key_D c) || has (key_N c) = false ->
  key_A c = None -> key_R c = None ->
  patch_list_step (fun t => patch t c) c (target, ip, jp)
  = Ok (target, (Z.of_nat (List.length pre) + 1)%Z, jp).
Proof.
  intros Hdn HA HR. unfold patch_list_step. now rewrite Hidx, Hdn, HA, HR.
Qed.

Lemma step_insert (v : value) :
  has (key_D c) || has (key_N c) = false ->
  key_A c = Some v ->
  patch_list_step (fun t => patch t c) c (VList (pre ++ rest), ip, jp)
  = Ok (VList (pre ++ v :: rest), (Z.of_nat (List.length pre) + 1)%Z,
        (jp + 1)%Z).
Proof.
  intros Hdn HA. unfold patch_list_step. rewrite Hidx, Hdn, HA.
  unfold insert_index. now rewrite list_insert_middle.
Qed.

Lemma step_delete (x v : value) :
  has (key_D c) || has (key_N c) = false ->
  key_A c = None -> key_R c = Some v ->
  patch_list_step (fun t => patch t c) c (VList (pre ++ x :: rest), ip, jp)
  = Ok (VList (pre ++ rest), Z.of_nat (List.length pre), (jp - 1)%Z).
Proof.
  intros Hdn HA HR. unfold patch_list_step. rewrite Hidx, Hdn, HA, HR.
  unfold del_index. rewrite norm_index_nat.
  - now rewrite list_del_middle.
  - rewrite length_app. simpl. lia.
Qed.
End PatchStep.

Section ListRoundTrip.
Variable self : Differ.
Variables a b : list value.
Hypothesis Hop_a : op_a self = true.
Hypothesis Hop_r : op_r self = true.
Hypothesis Hrec : forall i j,
    i < List.length a -> j < List.length b ->
    forward self (nth i a VNone) (nth j b VNone).
Hypothesis Hrefl : forall j,
    j < List.length b -> py_eq (nth j b VNone) (nth j b VNone) = true.

(** The index a patch step works at, for a diff emitted at this point. *)
Lemma tag_index (w : walk) (x : node) (pre : list value) (ip : Z) :
  key_I x = None ->
  List.length pre = cur_j w ->
  (force_index w = false -> ip = Z.of_nat (cur_j w)) ->
  match key_I (tag w x) with
  | Some idx => (idx + (Z.of_nat (cur_j w) - Z.of_nat (cur_i w)))%Z
  | None => ip
  end = Z.of_nat (List.length pre).
Proof.
  intros Hx Hlen Hip. unfold tag. rewrite Hlen.
  destruct (force_index w); simpl.
  - lia.
  - rewrite Hx. auto.
Qed.

Lemma list_eq_snoc (pre : list value) (j : nat) (x : value) :
  j < List.length b ->
  list_eq pre (firstn j b) = true -> py_eq x (nth j b VNone) = true ->
  list_eq (pre ++ [x]) (firstn (j + 1) b) = true.
Proof.
  intros Hj Hpre Hx.
  rewrite Nat.add_1_r, (firstn_succ b j VNone) by assumption.
  apply list_eq_app; auto. simpl. now rewrite Hx.
Qed.

Lemma patched_changed (w : walk) :
  patched a b w -> cur_i w < List.length a -> cur_j w < List.length b ->
  patched a b (changed_turn (diff self) a b w).
Proof.
  intros (pre & ip & Hp & Hlen & Heq & Hip) Hi Hj.
  destruct (changed_turn_cursors (diff self) a b w) as [Ci Cj].
  destruct (changed_turn_ret (diff self) a b w) as [Cr Cf].
  set (x := nth (cur_i w) a VNone) in *.
  set (y := nth (cur_j w) b VNone) in *.
  destruct (Hrec (cur_i w) (cur_j w) Hi Hj) as (x' & Hx' & Hxy).
  fold x y in Hx', Hxy.
  destruct (diff_shape self x y) as (SA & SR & SI).
  destruct (tag_keys w (diff self x y)) as (TA & TD & TN & TR & _).
  unfold patched. rewrite Ci, Cj, Cr, Cf.
  replace (Z.of_nat (cur_j w + 1) - Z.of_nat (cur_i w + 1))%Z
    with (Z.of_nat (cur_j w) - Z.of_nat (cur_i w))%Z by lia.
  rewrite (skipn_nth_cons a (cur_i w) VNone Hi) in Hp. fold x in Hp.
  rewrite Nat.add_1_r with (n := cur_i w).
  destruct (truthy (diff self x y)) eqn:Et.
  - rewrite patch_each_app, Hp. cbn [bind patch_each].
    destruct (has (key_D (diff self x y)) || has (key_N (diff self x y)))
             eqn:Edn.
    + exists (pre ++ [x']), (Z.of_nat (List.length pre) + 1)%Z.
      rewrite (step_recurse _ pre _ ip _ (tag_index w _ pre ip SI Hlen Hip)
                            x x').
      * cbn [bind]. rewrite <- app_assoc. simpl app.
        repeat split; auto.
        -- rewrite length_app. simpl. lia.
        -- now apply list_eq_snoc.
        -- intros _. lia.
      * now rewrite TD, TN.
      * now rewrite patch_tag.
    + assert (x' = x) as ->.
      { rewrite patch_eq in Hx'. apply orb_false_iff in Edn as [E1 E2].
        destruct (key_D (diff self x y)); [discriminate |].
        destruct (key_N (diff self x y)); [discriminate |]. congruence. }
      exists (pre ++ [x]), (Z.of_nat (List.length pre) + 1)%Z.
      rewrite (step_pass _ pre ip _ (tag_index w _ pre ip SI Hlen Hip)).
      * cbn [bind]. rewrite <- app_assoc. simpl app.
        repeat split; auto.
        -- rewrite length_app. simpl. lia.
        -- now apply list_eq_snoc.
        -- intros _. lia.
      * now rewrite TD, TN.
      * now rewrite TA.
      * now rewrite TR.
  - apply truthy_false in Et. rewrite Et in Hx'. rewrite patch_eq in Hx'.
    simpl in Hx'. injection Hx' as <-.
    exists (pre ++ [x]), ip. rewrite Hp, <- app_assoc. simpl app.
    repeat split; auto.
    + rewrite length_app. simpl. lia.
    + now apply list_eq_snoc.
    + discriminate.
Qed.

Lemma patched_removed (w : walk) :
  patched a b w -> cur_i w < List.length a -> cur_j w <= List.length b ->
  patched a b (removed_turn self a w).
Proof.
  intros (pre & ip & Hp & Hlen & Heq & Hip) Hi Hj.
  destruct (removed_turn_cursors self a w) as [Ci Cj].
  destruct (removed_turn_ret self a w) as [Cr Cf].
  set (c := set_R empty_node
              (if op_trim_r self then VNone else nth (cur_i w) a VNone)) in *.
  destruct (tag_keys w c) as (TA & TD & TN & TR & _).
  unfold patched. rewrite Ci, Cj, Cr, Cf, Hop_r.
  rewrite (skipn_nth_cons a (cur_i w) VNone Hi) in Hp.
  rewrite Nat.add_1_r with (n := cur_i w).
  exists pre, (Z.of_nat (List.length pre)).
  rewrite patch_each_app, Hp. cbn [bind patch_each].
  erewrite (step_delete _ pre _ ip _ (tag_index w c pre ip eq_refl Hlen Hip)).
  - cbn [bind]. repeat split; auto. do 2 f_equal; lia.
  - now rewrite TD, TN.
  - now rewrite TA.
  - rewrite TR. reflexivity.
Qed.

Lemma patched_added (w : walk) :
  patched a b w -> cur_i w <= List.length a -> cur_j w < List.length b ->
  patched a b (added_turn self b w).
Proof.
  intros (pre & ip & Hp & Hlen & Heq & Hip) Hi Hj.
  destruct (added_turn_cursors self b w) as [Ci Cj].
  destruct (added_turn_ret self b w) as [Cr Cf].
  set (y := nth (cur_j w) b VNone) in *.
  set (c := set_A empty_node y) in *.
  destruct (tag_keys w c) as (TA & TD & TN & TR & _).
  unfold patched. rewrite Ci, Cj, Cr, Cf, Hop_a.
  exists (pre ++ [y]), (Z.of_nat (List.length pre) + 1)%Z.
  rewrite patch_each_app, Hp. cbn [bind patch_each].
  rewrite (step_insert _ pre _ ip _ (tag_index w c pre ip eq_refl Hlen Hip) y).
  - cbn [bind]. rewrite <- app_assoc. simpl app. repeat split; auto.
    + do 2 f_equal; lia.
    + rewrite length_app. simpl. lia.
    + apply list_eq_snoc; auto. now apply Hrefl.
    + intros _. lia.
  - now rewrite TD, TN.
  - rewrite TA. reflexivity.
Qed.
Lemma lcs_blocks_spec :
  exists l, lcs_blocks a b = l ++ [(List.length a, List.length b, 0)]
            /\ Forall (within a b) l.
Proof.
  unfold lcs_blocks.
  destruct (get_matching_blocks_spec pickle_eqb (map dumps a) (map dumps b))
    as [l [E Hl]].
  rewrite !length_map in E. exists l. split; auto.
  eapply Forall_impl; [| exact Hl].
  intros m. unfold block_ok, within. now rewrite !length_map.
Qed.

Lemma walk_blocks_patched :
  let w := walk_blocks self (diff self) a b (lcs_blocks a b) in
  patched a b w /\ cur_i w = List.length a /\ cur_j w = List.length b.
Proof.
  destruct lcs_blocks_spec as [l [-> Hl]]. unfold walk_blocks.
  set (w0 := {| ret_D := []; cur_i := 0; cur_j := 0; force_index := false |}).
  assert (inside a b w0) as Hin by (unfold inside; simpl; lia).
  assert (Forall (within a b) (l ++ [(List.length a, List.length b, 0)])) as Hl'.
  { apply Forall_app. split; auto. constructor; [| constructor].
    unfold within. simpl. lia. }
  assert (patched a b w0) as Hw0.
  { exists [], 0%Z. simpl. repeat split; auto. }
  split.
  - apply (fold_walk_inv self (diff self) a b (patched a b)); auto.
    + apply patched_changed.
    + apply patched_removed.
    + apply patched_added.
  - now apply fold_walk_end.
Qed.

Lemma diff_lists_forward :
  exists a', patch (VList a) (diff_lists self a b) = Ok a'
             /\ py_eq a' (VList b) = true.
Proof.
  destruct walk_blocks_patched as [(pre & ip & Hp & Hlen & Heq & _) [Hi Hj]].
  unfold diff_lists, diff_lists_with.
  set (w := walk_blocks self (diff self) a b (lcs_blocks a b)) in *.
  rewrite Hi, Hj, skipn_all, app_nil_r, firstn_all in *.
  exists (VList pre). rewrite py_eq_list. split; auto.
  destruct (ret_D w) as [| c cs] eqn:E.
  - simpl in Hp. injection Hp as <- _. reflexivity.
  - rewrite patch_eq. cbn [key_D set_D]. now rewrite Hp.
Qed.
End ListRoundTrip.

Lemma dict_eq_agree (t b : list (string * value)) :
  NoDup (keys t) -> NoDup (keys b) ->
  (forall k, agree (lookup k t) (lookup k b)) ->
  py_eq (VDict t) (VDict b) = true.
Proof.
  intros Ht Hb Hag. rewrite py_eq_dict. apply andb_true_iff. split.
  - apply Nat.eqb_eq. rewrite <- (length_map fst t), <- (length_map fst b).
    apply Nat.le_antisymm; apply NoDup_incl_length; auto; intros k Hk;
      apply lookup_In_keys in Hk as [v Hv]; apply lookup_In_keys;
      specialize (Hag k); rewrite Hv in Hag.
    + destruct (lookup k b); [eauto | contradiction].
    + destruct (lookup k t); [eauto | contradiction].
  - apply entries_eq_In. intros k v Hin.
    apply In_lookup_NoDup in Hin; auto.
    specialize (Hag k). rewrite Hin in Hag.
    destruct (lookup k b) as [w |]; [eauto | contradiction].
Qed.

Section DictRoundTrip.
Variable self : Differ.
Variables a b : list (string * value).
Hypothesis Hop_a : op_a self = true.
Hypothesis Hop_r : op_r self = true.
Hypothesis Hnd_a : NoDup (keys a).
Hypothesis Hnd_b : NoDup (keys b).
Hypothesis Hrec : forall k av bv,
    lookup k a = Some av -> lookup k b = Some bv -> forward self av bv.
Hypothesis Hrefl : forall k bv, lookup k b = Some bv -> py_eq bv bv = true.

(** The effect of one more subdiff, given what [patch] makes of it. *)
Lemma patched_keys_emit (done : list string) (retD : list (string * node))
      (key : string) (c : node) :
  ~ In key done ->
  (forall t, NoDup (keys t) -> lookup key t = lookup key a ->
             exists t', patch_dict_step (fun x => patch x c) key c (VDict t)
                        = Ok (VDict t')
                        /\ NoDup (keys t')
                        /\ agree (lookup key t') (lookup key b)
                        /\ forall k, k <> key -> lookup k t' = lookup k t) ->
  patched_keys a b done retD ->
  patched_keys a b (done ++ [key]) (dict_set retD key c).
Proof.
  intros Hnew Hstep (t & Hp & Hnd & Hdone & Hrest & Hkeys).
  destruct (Hstep t Hnd (Hrest key Hnew)) as (t1 & Hs & Hnd1 & Hag & Hother).
  rewrite keys_dict_set_new by (intros H; apply Hnew, Hkeys, H).
  exists t1. rewrite patch_items_app, Hp. cbn [bind patch_items].
  rewrite Hs. cbn [bind]. repeat split; auto.
  - intros k Hk. apply in_app_or in Hk as [Hk | [<- | []]]; auto.
    rewrite Hother by (intros ->; contradiction). auto.
  - intros k Hk. rewrite Hother, Hrest; auto.
    + intros H. apply Hk, in_or_app. auto.
    + intros ->. apply Hk, in_or_app. simpl. auto.
  - intros k. unfold keys. rewrite map_app, in_app_iff. simpl.
    intros [H | [<- | []]]; apply in_or_app; simpl; auto.
Qed.

(** The effect of a key for which nothing is written. *)
Lemma patched_keys_omit (done : list string) (retD : list (string * node))
      (key : string) :
  ~ In key done ->
  agree (lookup key a) (lookup key b) ->
  patched_keys a b done retD -> patched_keys a b (done ++ [key]) retD.
Proof.
  intros Hnew Hag (t & Hp & Hnd & Hdone & Hrest & Hkeys).
  exists t. repeat split; auto.
  - intros k Hk. apply in_app_or in Hk as [Hk | [<- | []]]; auto.
    now rewrite Hrest.
  - intros k Hk. apply Hrest. intros H. apply Hk, in_or_app. auto.
  - intros k Hk. apply in_or_app. auto.
Qed.

(** A subdiff that [patch] passes over. *)
Lemma step_untouched (key : string) (c : node) (t : list (string * value)) :
  has (key_D c) || has (key_N c) = false ->
  key_A c = None -> key_R c = None ->
  patch_dict_step (fun x => patch x c) key c (VDict t) = Ok (VDict t).
Proof.
  intros Hdn HA HR. unfold patch_dict_step. now rewrite Hdn, HA, HR.
Qed.

Lemma patched_keys_step (done : list string) (retD : list (string * node))
      (key : string) :
  ~ In key done ->
  patched_keys a b done retD ->
  patched_keys a b (done ++ [key]) (diff_dicts_step self (diff self) a b retD key).
Proof.
  intros Hnew Hinv. unfold diff_dicts_step.
  destruct (lookup key a) as [av |] eqn:Ea;
    destruct (lookup key b) as [bv |] eqn:Eb.
  - (* in both *)
    destruct (py_eq av bv) eqn:Eeq.
    + destruct (op_u self).
      * apply patched_keys_emit; auto. intros t Hnd Ht.
        exists t. rewrite step_untouched by reflexivity.
        repeat split; auto. rewrite Ht, Ea, Eb. exact Eeq.
      * apply patched_keys_omit; auto. rewrite Ea, Eb. exact Eeq.
    + destruct (Hrec key av bv Ea Eb) as (x' & Hx' & Hxy).
      destruct (diff_shape self av bv) as (SA & SR & _).
      destruct (truthy (diff self av bv)) eqn:Et.
      * apply patched_keys_emit; auto. intros t Hnd Ht.
        destruct (has (key_D (diff self av bv)) || has (key_N (diff self av bv)))
                 eqn:Edn.
        -- exists (dict_set t key x'). unfold patch_dict_step, patch_key.
           rewrite Edn, Ht, Ea, Hx'. cbn [bind]. repeat split; auto.
           ++ now apply NoDup_dict_set.
           ++ rewrite lookup_dict_set, String.eqb_refl, Eb. exact Hxy.
           ++ intros k Hk. rewrite lookup_dict_set.
              destruct (String.eqb key k) eqn:E; auto.
              apply String.eqb_eq in E. congruence.
        -- exists t. rewrite step_untouched by assumption.
           repeat split; auto. rewrite Ht, Ea, Eb.
           rewrite patch_eq in Hx'. apply orb_false_iff in Edn as [E1 E2].
           destruct (key_D (diff self av bv)); [discriminate |].
           destruct (key_N (diff self av bv)); [discriminate |].
           injection Hx' as <-. exact Hxy.
      * apply patched_keys_omit; auto. rewrite Ea, Eb.
        apply truthy_false in Et. rewrite Et, patch_eq in Hx'.
        simpl in Hx'. injection Hx' as <-. exact Hxy.
  - (* removed *)
    rewrite Hop_r. apply patched_keys_emit; auto. intros t Hnd Ht.
    exists (dict_del t key). unfold patch_dict_step, del_key. simpl.
    rewrite Ht, Ea. repeat split; auto.
    + now apply NoDup_dict_del.
    + rewrite lookup_dict_del, String.eqb_refl, Eb by assumption. exact I.
    + intros k Hk. rewrite lookup_dict_del by assumption.
      destruct (String.eqb key k) eqn:E; auto.
      apply String.eqb_eq in E. congruence.
  - (* added *)
    rewrite Hop_a. apply patched_keys_emit; auto. intros t Hnd Ht.
    exists (dict_set t key bv). unfold patch_dict_step, set_key. simpl.
    repeat split; auto.
    + now apply NoDup_dict_set.
    + rewrite lookup_dict_set, String.eqb_refl, Eb. eapply Hrefl, Eb.
    + intros k Hk. rewrite lookup_dict_set.
      destruct (String.eqb key k) eqn:E; auto.
      apply String.eqb_eq in E. congruence.
  - apply patched_keys_omit; auto. now rewrite Ea, Eb.
Qed.

Lemma patched_keys_fold (ks done : list string) (retD : list (string * node)) :
  NoDup ks -> (forall k, In k ks -> ~ In k done) ->
  patched_keys a b done retD ->
  patched_keys a b (done ++ ks)
               (fold_left (diff_dicts_step self (diff self) a b) ks retD).
Proof.
  revert done retD. induction ks as [| k ks IH]; intros done retD Hnd Hnew Hinv.
  - simpl. now rewrite app_nil_r.
  - inversion Hnd as [| ? ? Hk Hks]; subst. simpl.
    replace (done ++ k :: ks) with ((done ++ [k]) ++ ks)
      by (now rewrite <- app_assoc).
    apply IH; auto.
    + intros k' Hk' Hin. apply in_app_or in Hin as [Hin | [<- | []]].
      * apply (Hnew k'); simpl; auto.
      * contradiction.
    + apply patched_keys_step; auto. apply Hnew. simpl. auto.
Qed.

Lemma diff_dicts_forward :
  exists a', patch (VDict a) (diff_dicts self a b) = Ok a'
             /\ py_eq a' (VDict b) = true.
Proof.
  destruct (patched_keys_fold (union_keys a b) [] []) as
    (t & Hp & Hnd & Hdone & Hrest & _).
  - apply NoDup_nodup.
  - auto.
  - exists a. repeat split; auto. intros k [].
  - exists (VDict t). split.
    + unfold diff_dicts, diff_dicts_with.
      destruct (fold_left _ _ _) as [| e es] eqn:E.
      * simpl in Hp. exact Hp.
      * rewrite patch_eq. exact Hp.
    + apply dict_eq_agree; auto. intros k.
      destruct (in_dec string_dec k (union_keys a b)) as [Hin | Hout].
      * apply Hdone. exact Hin.
      * rewrite Hrest by exact Hout.
        unfold union_keys in Hout. rewrite nodup_In, in_app_iff in Hout.
        assert (lookup k a = None) as -> by (apply lookup_None; tauto).
        assert (lookup k b = None) as -> by (apply lookup_None; tauto).
        exact I.
Qed.
End DictRoundTrip.

Lemma forward_same (self : Differ) (a b : value) :
  py_eq a b = true -> forward self a b.
Proof.
  intros E. exists a. split; auto. rewrite diff_eq, E, patch_eq.
  destruct (op_u self); reflexivity.
Qed.

Lemma patch_default_diff (self : Differ) (a b : value) :
  op_n self = true -> patch a (get_default_diff self a b) = Ok b.
Proof.
  intros Hn. rewrite patch_eq. unfold get_default_diff. rewrite Hn.
  destruct (op_o self); reflexivity.
Qed.

Lemma forward_all (self : Differ) :
  op_a self = true -> op_n self = true -> op_r self = true ->
  forall a b, wf a = true -> wf b = true -> forward self a b.
Proof.
  intros Ha Hn Hr a.
  induction a as [| x | z | s | la IH | da IH] using value_rect';
    intros b Hwa Hwb;
    (match goal with
     | |- forward _ ?x _ =>
         destruct (py_eq x b) eqn:E; [now apply forward_same |]
     end);
    unfold forward; rewrite diff_eq, E;
    try (exists b; split;
         [now apply patch_default_diff | now apply py_eq_refl]).
  - destruct b as [| | | | lb | db];
      try (eexists; split;
           [now apply patch_default_diff | now apply py_eq_refl]).
    apply diff_lists_forward; auto.
    + intros i j Hi Hj. rewrite Forall_forall in IH.
      apply IH; auto using wf_nth. now apply nth_In.
    + intros j Hj. apply py_eq_refl, wf_nth, Hwb.
  - destruct b as [| | | | lb | db];
      try (eexists; split;
           [now apply patch_default_diff | now apply py_eq_refl]).
    rewrite wf_dict in Hwa, Hwb.
    apply andb_true_iff in Hwa as [Na Wa]. apply andb_true_iff in Hwb as [Nb Wb].
    apply nodup_keys_NoDup in Na, Nb. rewrite wf_entries_In in Wa, Wb.
    apply diff_dicts_forward; auto.
    + intros k av bv Eav Ebv. rewrite Forall_forall in IH.
      apply lookup_Some_In in Eav, Ebv. apply (IH (k, av) Eav); eauto.
    + intros k bv Ebv. apply py_eq_refl. apply lookup_Some_In in Ebv. eauto.
Qed.

(** The walk always ends with both cursors at the end of their lists. *)
Lemma walk_blocks_cursors (self : Differ) (f : value -> value -> node)
      (a b : list value) :
  cur_i (walk_blocks self f a b (lcs_blocks a b)) = List.length a
  /\ cur_j (walk_blocks self f a b (lcs_blocks a b)) = List.length b.
Proof.
  destruct (lcs_blocks_spec a b) as [l [-> Hl]].
  apply fold_walk_end; auto. unfold inside. simpl. lia.
Qed.

(** ** No ['D'] is left empty *)

Lemma payload_ok_list (cs : list node) :
  cs <> [] -> Forall (fun c => payload_ok c = true) cs ->
  payload_ok (set_D empty_node (PList cs)) = true.
Proof.
  intros Hne H. destruct cs as [| c cs]; [congruence |].
  change (payload_ok (set_D empty_node (PList (c :: cs))))
    with (forallb payload_ok (c :: cs)).
  apply forallb_forall. now apply Forall_forall.
Qed.

Lemma payload_ok_dict (es : list (string * node)) :
  es <> [] -> Forall (fun e => payload_ok (snd e) = true) es ->
  payload_ok (set_D empty_node (PDict es)) = true.
Proof.
  intros Hne H. destruct es as [| e es]; [congruence |].
  change (payload_ok (set_D empty_node (PDict (e :: es))))
    with ((fix go (entries : list (string * node)) : bool :=
             match entries with
             | [] => true
             | (_, c) :: rest => payload_ok c && go rest
             end) (e :: es)).
  clear Hne. induction H as [| [k c] rest Hc _ IH]; auto.
  simpl in Hc. now rewrite Hc, IH.
Qed.

Lemma payload_ok_set_I (n : node) (i : Z) :
  payload_ok (set_I n i) = payload_ok n.
Proof. destruct n. reflexivity. Qed.

Lemma payload_ok_tag (w : walk) (n : node) :
  payload_ok (tag w n) = payload_ok n.
Proof. unfold tag. destruct (force_index w); auto using payload_ok_set_I. Qed.

Lemma Forall_dict_set {X : Type} (Q : X -> Prop) (d : list (string * X))
      (key : string) (x : X) :
  Q x -> Forall (fun e => Q (snd e)) d ->
  Forall (fun e => Q (snd e)) (dict_set d key x).
Proof.
  intros Hx. induction 1 as [| [k y] t Hy Ht IH]; simpl.
  - constructor; auto.
  - destruct (String.eqb k key); constructor; auto.
Qed.

Section PayloadOk.
Variable self : Differ.

Lemma diff_dicts_payload_ok (f : value -> value -> node)
      (a b : list (string * value)) :
  (forall k av bv, lookup k a = Some av -> payload_ok (f av bv) = true) ->
  payload_ok (diff_dicts_with self f a b) = true.
Proof.
  intros Hrec. unfold diff_dicts_with.
  assert (forall ks acc,
             Forall (fun e => payload_ok (snd e) = true) acc ->
             Forall (fun e => payload_ok (snd e) = true)
                    (fold_left (diff_dicts_step self f a b) ks acc)) as Hfold.
  { induction ks as [| k ks IH]; intros acc Hacc; simpl; auto.
    apply IH. unfold diff_dicts_step.
    destruct (lookup k a) as [av |] eqn:Ea; destruct (lookup k b) as [bv |];
      auto.
    - destruct (py_eq av bv).
      + destruct (op_u self); auto.
        now apply (Forall_dict_set (fun c => payload_ok c = true)).
      + destruct (truthy (f av bv)); auto.
        apply (Forall_dict_set (fun c => payload_ok c = true)); eauto.
    - destruct (op_r self); auto.
      now apply (Forall_dict_set (fun c => payload_ok c = true)).
    - destruct (op_a self); auto.
      now apply (Forall_dict_set (fun c => payload_ok c = true)). }
  specialize (Hfold (union_keys a b) [] (Forall_nil _)).
  destruct (fold_left _ _ _) as [| e es] eqn:E; auto.
  apply payload_ok_dict; [discriminate | exact Hfold].
Qed.

Lemma Forall_snoc {X : Type} (Q : X -> Prop) (l : list X) (x : X) :
  Forall Q l -> Q x -> Forall Q (l ++ [x]).
Proof. intros Hl Hx. apply Forall_app. auto. Qed.

Lemma diff_lists_payload_ok (f : value -> value -> node) (a b : list value) :
  (forall i bv, i < List.length a -> payload_ok (f (nth i a VNone) bv) = true) ->
  payload_ok (diff_lists_with self f a b) = true.
Proof.
  intros Hrec. unfold diff_lists_with.
  set (Q := fun w : walk => Forall (fun c => payload_ok c = true) (ret_D w)).
  assert (Q (walk_blocks self f a b (lcs_blocks a b))) as H.
  { destruct (lcs_blocks_spec a b) as [l [-> Hl]].
    apply (fold_walk_inv self f a b Q).
    - intros w Hw Hi Hj. unfold Q.
      destruct (changed_turn_ret f a b w) as [-> _].
      destruct (truthy _); auto.
      apply Forall_snoc; auto. rewrite payload_ok_tag. now apply Hrec.
    - intros w Hw Hi Hj. unfold Q.
      destruct (removed_turn_ret self a w) as [-> _].
      destruct (op_r self); auto.
      apply Forall_snoc; auto. now rewrite payload_ok_tag.
    - intros w Hw Hi Hj. unfold Q.
      destruct (added_turn_ret self b w) as [-> _].
      destruct (op_a self); auto.
      apply Forall_snoc; auto. now rewrite payload_ok_tag.
    - apply Forall_app. split; auto. constructor; [| constructor].
      unfold within. simpl. lia.
    - unfold inside. simpl. lia.
    - constructor. }
  unfold Q in H. destruct (ret_D _) as [| c cs] eqn:E; auto.
  apply payload_ok_list; [discriminate | exact H].
Qed.

Lemma diff_payload_ok (a b : value) : payload_ok (diff self a b) = true.
Proof.
  revert b.
  induction a as [| x | z | s | la IH | da IH] using value_rect'; intros b;
    rewrite diff_eq;
    (destruct (py_eq _ b); [destruct (op_u self); reflexivity |]);
    try (unfold get_default_diff; destruct (op_n self), (op_o self);
         reflexivity).
  - destruct b as [| | | | lb | db];
      try (unfold get_default_diff; destruct (op_n self), (op_o self);
           reflexivity).
    apply diff_lists_payload_ok. intros i bv Hi.
    rewrite Forall_forall in IH. apply IH. now apply nth_In.
  - destruct b as [| | | | lb | db];
      try (unfold get_default_diff; destruct (op_n self), (op_o self);
           reflexivity).
    apply diff_dicts_payload_ok. intros k av bv Ea.
    rewrite Forall_forall in IH. apply lookup_Some_In in Ea.
    apply (IH (k, av) Ea).
Qed.
End PayloadOk.

(** ** With every operation on, nothing is omitted *)

Lemma dict_set_not_nil {X : Type} (d : list (string * X)) (key : string) (x : X) :
  dict_set d key x <> [].
Proof. destruct d as [| [k y] t]; simpl; [| destruct (String.eqb k key)]; discriminate. Qed.

Lemma app_not_nil {X : Type} (l : list X) (x : X) : l ++ [x] <> [].
Proof. destruct l; discriminate. Qed.

Section AllOn.
Variable self : Differ.
Hypothesis Hop_a : op_a self = true.
Hypothesis Hop_r : op_r self = true.
Hypothesis Hop_u : op_u self = true.
Hypothesis Hop_no : op_n self || op_o self = true.

Lemma truthy_default (a b : value) : truthy (get_default_diff self a b) = true.
Proof.
  unfold get_default_diff.
  destruct (op_n self), (op_o self); try discriminate; reflexivity.
Qed.

Lemma diff_dicts_all_on (f : value -> value -> node)
      (a b : list (string * value)) :
  (forall k av bv, lookup k a = Some av -> truthy (f av bv) = true) ->
  a <> [] \/ b <> [] ->
  truthy (diff_dicts_with self f a b) = true.
Proof.
  intros Hrec Hne. unfold diff_dicts_with.
  assert (forall acc k, In k (union_keys a b) ->
                        diff_dicts_step self f a b acc k <> []) as Hstep.
  { intros acc k Hk. unfold diff_dicts_step, union_keys in *.
    rewrite nodup_In, in_app_iff, !lookup_In_keys in Hk.
    destruct (lookup k a) as [av |] eqn:Ea; destruct (lookup k b) as [bv |].
    - destruct (py_eq av bv).
      + rewrite Hop_u. apply dict_set_not_nil.
      + rewrite (Hrec k av bv Ea). apply dict_set_not_nil.
    - rewrite Hop_r. apply dict_set_not_nil.
    - rewrite Hop_a. apply dict_set_not_nil.
    - destruct Hk as [[x Hx] | [x Hx]]; discriminate. }
  assert (forall acc k, acc <> [] -> diff_dicts_step self f a b acc k <> [])
    as Hkeep.
  { intros acc k Hacc. unfold diff_dicts_step.
    repeat match goal with
           | |- context [match ?x with _ => _ end] => destruct x
           end; auto using dict_set_not_nil. }
  assert (forall ks acc, acc <> [] ->
                         fold_left (diff_dicts_step self f a b) ks acc <> [])
    as Hfold.
  { induction ks as [| k ks IH]; intros acc Hacc; simpl; auto. }
  assert (union_keys a b <> []) as Hks.
  { unfold union_keys. intros E.
    assert (forall k, ~ In k (keys a ++ keys b)) as Hno.
    { intros k Hk. apply (nodup_In string_dec) in Hk. rewrite E in Hk.
      destruct Hk. }
    destruct Hne as [H | H].
    - destruct a as [| [k v] t]; [congruence |]. apply (Hno k). simpl. auto.
    - destruct b as [| [k v] t]; [congruence |]. apply (Hno k).
      apply in_or_app. simpl. auto. }
  destruct (union_keys a b) as [| k ks] eqn:Ek; [congruence |].
  simpl. specialize (Hfold ks (diff_dicts_step self f a b [] k)).
  destruct (fold_left _ _ _); [| reflexivity].
  exfalso. apply Hfold; auto. apply Hstep. simpl. auto.
Qed.

Lemma walk_untagged (f : value -> value -> node) (a b : list value) :
  (forall i j, i < List.length a -> j < List.length b ->
               truthy (f (nth i a VNone) (nth j b VNone)) = true
               /\ key_I (f (nth i a VNone) (nth j b VNone)) = None) ->
  untagged (walk_blocks self f a b (lcs_blocks a b))
  /\ cur_i (walk_blocks self f a b (lcs_blocks a b)) = List.length a
  /\ cur_j (walk_blocks self f a b (lcs_blocks a b)) = List.length b.
Proof.
  intros Hrec. destruct (lcs_blocks_spec a b) as [l [-> Hl]]. split.
  - apply (fold_walk_inv self f a b untagged).
    + intros w (Hf & Hall & Hnil) Hi Hj.
      destruct (changed_turn_ret f a b w) as [Cr Cf].
      destruct (Hrec _ _ Hi Hj) as [Ht HI].
      unfold untagged. rewrite Cr, Cf, Ht. repeat split; auto;
        try (apply Forall_snoc; auto; unfold tag; now rewrite Hf);
        try (match goal with
             | E : _ ++ [_] = [] |- _ => now apply app_not_nil in E
             end).
    + intros w (Hf & Hall & Hnil) Hi Hj.
      destruct (removed_turn_ret self a w) as [Cr Cf].
      unfold untagged. rewrite Cr, Cf, Hop_r. repeat split; auto;
        try (apply Forall_snoc; auto; unfold tag; now rewrite Hf);
        try (match goal with
             | E : _ ++ [_] = [] |- _ => now apply app_not_nil in E
             end).
    + intros w (Hf & Hall & Hnil) Hi Hj.
      destruct (added_turn_ret self b w) as [Cr Cf].
      unfold untagged. rewrite Cr, Cf, Hop_a. repeat split; auto;
        try (apply Forall_snoc; auto; unfold tag; now rewrite Hf);
        try (match goal with
             | E : _ ++ [_] = [] |- _ => now apply app_not_nil in E
             end).
    + apply Forall_app. split; auto. constructor; [| constructor].
      unfold within. simpl. lia.
    + unfold inside. simpl. lia.
    + unfold untagged. simpl. auto.
  - apply fold_walk_end; auto. unfold inside. simpl. lia.
Qed.

Lemma diff_lists_all_on (f : value -> value -> node) (a b : list value) :
  (forall i j, i < List.length a -> j < List.length b ->
               truthy (f (nth i a VNone) (nth j b VNone)) = true
               /\ key_I (f (nth i a VNone) (nth j b VNone)) = None) ->
  (a <> [] \/ b <> [] -> truthy (diff_lists_with self f a b) = true)
  /\ Forall (fun c => key_I c = None) (children (diff_lists_with self f a b)).
Proof.
  intros Hrec.
  destruct (walk_untagged f a b Hrec) as [(Hf & Hall & Hnil) [Hi Hj]].
  unfold diff_lists_with.
  destruct (ret_D _) as [| c cs] eqn:E.
  - split; [| constructor]. intros Hne. destruct (Hnil eq_refl) as [Z1 Z2].
    rewrite Hi in Z1. rewrite Hj in Z2.
    apply length_zero_iff_nil in Z1, Z2. tauto.
  - split; auto.
Qed.

Lemma truthy_all_on (a b : value) : truthy (diff self a b) = true.
Proof.
  revert b.
  induction a as [| x | z | s | la IH | da IH] using value_rect'; intros b;
    rewrite diff_eq;
    (destruct (py_eq _ b) eqn:E; [now rewrite Hop_u |]);
    try apply truthy_default.
  - destruct b as [| | | | lb | db]; try apply truthy_default.
    apply diff_lists_all_on.
    + intros i j Hi Hj. rewrite Forall_forall in IH. split.
      * apply IH. now apply nth_In.
      * apply diff_shape.
    + destruct la, lb; [discriminate E | right | left | left]; discriminate.
  - destruct b as [| | | | lb | db]; try apply truthy_default.
    apply diff_dicts_all_on.
    + intros k av bv Ea. rewrite Forall_forall in IH.
      apply lookup_Some_In in Ea. apply (IH (k, av) Ea).
    + destruct da, db; [discriminate E | right | left | left]; discriminate.
Qed.

Lemma children_untagged (a b : list value) :
  Forall (fun c => key_I c = None) (children (diff_lists self a b))
  /\ Forall (fun c => key_I c = None)
            (children (diff self (VList a) (VList b))).
Proof.
  assert (Forall (fun c => key_I c = None) (children (diff_lists self a b)))
    as H.
  { apply diff_lists_all_on. intros i j _ _. split.
    - apply truthy_all_on.
    - apply diff_shape. }
  split; auto. rewrite diff_eq. destruct (py_eq _ _); auto.
  rewrite Hop_u. constructor.
Qed.
End AllOn.

(** ** Which keys a dict diff holds *)

Section StepKeys.
Variable self : Differ.
Variable f : value -> value -> node.
Variables a b : list (string * value).

Lemma diff_dicts_step_keys (acc : list (string * node)) (key k : string) :
  In k (keys (diff_dicts_step self f a b acc key)) <->
  In k (keys acc) \/ (k = key /\ diff_dicts_step self f a b [] key <> []).
Proof.
  unfold diff_dicts_step.
  assert (forall c, In k (keys (dict_set acc key c)) <->
                    In k (keys acc) \/ (k = key /\ dict_set [] key c <> []))
    as Hset.
  { intros c. rewrite In_keys_dict_set. simpl.
    split; intros [H | H]; auto.
    - right. split; [auto | discriminate].
    - destruct H. auto. }
  assert (In k (keys acc) <->
          In k (keys acc) \/ (k = key /\ @nil (string * node) <> [])) as Hnot.
  { split; auto. intros [H | [_ H]]; auto. congruence. }
  repeat match goal with
         | |- context [match ?x with _ => _ end] => destruct x
         end; auto.
Qed.

Lemma fold_step_keys (ks : list string) (acc : list (string * node))
      (k : string) :
  In k (keys (fold_left (diff_dicts_step self f a b) ks acc)) <->
  In k (keys acc) \/ (In k ks /\ diff_dicts_step self f a b [] k <> []).
Proof.
  revert acc. induction ks as [| key ks IH]; intros acc; simpl.
  - tauto.
  - rewrite IH, diff_dicts_step_keys. split.
    + intros [[H | [-> H]] | [H1 H2]]; auto.
    + intros [H | [[-> | H1] H2]]; auto.
Qed.

Lemma diff_dicts_keys (k : string) :
  In k (D_keys (diff_dicts_with self f a b)) <->
  (In k (keys a) \/ In k (keys b)) /\ diff_dicts_step self f a b [] k <> [].
Proof.
  unfold diff_dicts_with, union_keys.
  pose proof (fold_step_keys (nodup string_dec (keys a ++ keys b)) [] k) as H.
  rewrite nodup_In, in_app_iff in H. simpl in H.
  destruct (fold_left _ _ _) as [| e es]; unfold D_keys; simpl in *; tauto.
Qed.
End StepKeys.

(** ** Operands that differ leave a trace *)

Section Changed.
Variable self : Differ.
Hypothesis Hop_a : op_a self = true.
Hypothesis Hop_r : op_r self = true.
Hypothesis Hop_no : op_n self || op_o self = true.

Lemma fold_step_nil (f : value -> value -> node) (a b : list (string * value))
      (ks : list string) (acc : list (string * node)) :
  fold_left (diff_dicts_step self f a b) ks acc = [] ->
  acc = [] /\ forall k, In k ks -> diff_dicts_step self f a b [] k = [].
Proof.
  assert (forall acc k, diff_dicts_step self f a b acc k = [] -> acc = [])
    as Hkeep.
  { intros acc0 k. unfold diff_dicts_step.
    repeat match goal with
           | |- context [match ?x with _ => _ end] => destruct x
           end; auto; intros H; now apply dict_set_not_nil in H. }
  revert acc. induction ks as [| key ks IH]; intros acc; simpl.
  - intros ->. split; auto. intros k [].
  - intros H. apply IH in H as [H1 H2]. pose proof (Hkeep _ _ H1) as ->.
    split; auto. intros k [<- | Hk]; auto.
Qed.

Lemma diff_dicts_changed (a b : list (string * value)) :
  NoDup (keys a) -> NoDup (keys b) ->
  (forall k av bv, lookup k a = Some av -> lookup k b = Some bv ->
                   py_eq av bv = false -> truthy (diff self av bv) = true) ->
  py_eq (VDict a) (VDict b) = false ->
  truthy (diff_dicts self a b) = true.
Proof.
  intros Na Nb Hrec Hne. unfold diff_dicts, diff_dicts_with.
  destruct (fold_left _ _ _) as [| e es] eqn:E; [| reflexivity].
  exfalso. apply fold_step_nil in E as [_ E].
  assert (py_eq (VDict a) (VDict b) = true) as Heq; [| congruence].
  apply dict_eq_agree; auto. intros k.
  destruct (in_dec string_dec k (union_keys a b)) as [Hin | Hout].
  - specialize (E k Hin). unfold diff_dicts_step in E.
    destruct (lookup k a) as [av |] eqn:Ea;
      destruct (lookup k b) as [bv |] eqn:Eb; simpl; auto.
    + destruct (py_eq av bv) eqn:Eab; auto.
      rewrite (Hrec k av bv Ea Eb Eab) in E. discriminate.
    + rewrite Hop_r in E. discriminate.
    + rewrite Hop_a in E. discriminate.
  - unfold union_keys in Hout. rewrite nodup_In, in_app_iff in Hout.
    assert (lookup k a = None) as -> by (apply lookup_None; tauto).
    assert (lookup k b = None) as -> by (apply lookup_None; tauto).
    exact I.
Qed.

Lemma diff_lists_changed (a b : list value) :
  (forall i j, i < List.length a -> j < List.length b ->
               py_eq (nth i a VNone) (nth j b VNone) = false ->
               truthy (diff self (nth i a VNone) (nth j b VNone)) = true) ->
  py_eq (VList a) (VList b) = false ->
  truthy (diff_lists self a b) = true.
Proof.
  intros Hrec Hne. unfold diff_lists, diff_lists_with.
  destruct (ret_D _) as [| c cs] eqn:E; [| reflexivity].
  exfalso.
  assert (in_step a b (walk_blocks self (diff self) a b (lcs_blocks a b))
          /\ inside a b (walk_blocks self (diff self) a b (lcs_blocks a b)))
    as [Hstep _].
  { destruct (lcs_blocks_spec a b) as [l [-> Hl]].
    apply (fold_walk_inv self (diff self) a b (in_step a b)).
    - intros w Hw Hi Hj.
      destruct (changed_turn_ret (diff self) a b w) as [Cr Cf].
      destruct (changed_turn_cursors (diff self) a b w) as [Ci Cj].
      unfold in_step. rewrite Cr, Ci, Cj.
      destruct (truthy _) eqn:Et.
      + intros H. now apply app_not_nil in H.
      + intros H. destruct (Hw H) as [H1 H2]. split; [lia |].
        intros t Ht. destruct (Nat.eq_dec t (cur_i w)) as [-> | Hneq].
        * destruct (py_eq (nth (cur_i w) a VNone) (nth (cur_i w) b VNone))
                   eqn:Exy; auto.
          rewrite H1 in Exy at 2. rewrite (Hrec _ _ Hi Hj Exy) in Et.
          discriminate.
        * apply H2. lia.
    - intros w Hw Hi Hj.
      destruct (removed_turn_ret self a w) as [Cr Cf].
      unfold in_step. rewrite Cr, Hop_r.
      intros H. now apply app_not_nil in H.
    - intros w Hw Hi Hj.
      destruct (added_turn_ret self b w) as [Cr Cf].
      unfold in_step. rewrite Cr, Hop_a.
      intros H. now apply app_not_nil in H.
    - apply Forall_app. split; auto. constructor; [| constructor].
      unfold within. simpl. lia.
    - unfold inside. simpl. lia.
    - intros _. simpl. split; auto. intros t Ht. lia. }
  destruct (walk_blocks_cursors self (diff self) a b) as [Hi Hj].
  destruct (Hstep E) as [H1 H2]. rewrite Hi, Hj in H1. rewrite Hi in H2.
  assert (py_eq (VList a) (VList b) = true) as Heq; [| congruence].
  rewrite py_eq_list. apply list_eq_nth. auto.
Qed.

Lemma diff_changed (a b : value) :
  wf a = true -> wf b = true -> py_eq a b = false ->
  truthy (diff self a b) = true.
Proof.
  assert (forall x y, truthy (get_default_diff self x y) = true) as Hleaf.
  { intros x y. unfold get_default_diff.
    destruct (op_n self), (op_o self); try discriminate; reflexivity. }
  revert b.
  induction a as [| x | z | s | la IH | da IH] using value_rect';
    intros b Hwa Hwb E; rewrite diff_eq, E; auto.
  - destruct b as [| | | | lb | db]; auto.
    apply diff_lists_changed; auto.
    intros i j Hi Hj Exy. rewrite Forall_forall in IH.
    apply IH; auto using wf_nth. now apply nth_In.
  - destruct b as [| | | | lb | db]; auto.
    pose proof Hwa as Hwa'. pose proof Hwb as Hwb'.
    rewrite wf_dict in Hwa', Hwb'.
    apply andb_true_iff in Hwa' as [Na _]. apply andb_true_iff in Hwb' as [Nb _].
    apply nodup_keys_NoDup in Na, Nb.
    apply diff_dicts_changed; auto.
    intros k av bv Ea Eb Eab. rewrite Forall_forall in IH.
    apply (IH (k, av) (lookup_Some_In _ _ _ Ea)); eauto using wf_lookup.
Qed.

Lemma diff_dicts_coverage (a b : list (string * value)) (k : string) :
  wf (VDict a) = true -> wf (VDict b) = true ->
  In k (D_keys (diff_dicts self a b)) <->
  match lookup k a, lookup k b with
  | Some av, Some bv => py_eq av bv = false \/ op_u self = true
  | Some _, None => True
  | None, Some _ => True
  | None, None => False
  end.
Proof.
  intros Hwa Hwb. unfold diff_dicts. rewrite diff_dicts_keys.
  rewrite !lookup_In_keys. unfold diff_dicts_step.
  destruct (lookup k a) as [av |] eqn:Ea; destruct (lookup k b) as [bv |] eqn:Eb.
  - destruct (py_eq av bv) eqn:Eab.
    + destruct (op_u self); simpl; split; eauto.
      * intros _. split; eauto. discriminate.
      * intros [_ H]. congruence.
      * intros [H | H]; discriminate.
    + rewrite diff_changed; eauto using wf_lookup.
      split; auto. intros _. split; eauto. discriminate.
  - rewrite Hop_r. split; auto. intros _. split; eauto. discriminate.
  - rewrite Hop_a. split; auto. intros _. split; eauto. discriminate.
  - split; [| tauto]. intros [[[x Hx] | [x Hx]] _]; discriminate.
Qed.
End Changed.

(** ** Where [NotImplementedError] comes from *)

Lemma unsupported_dict (n : node) (es : list (string * node)) :
  key_D n = Some (PDict es) ->
  unsupported n = existsb (fun e => unsupported (snd e)) es.
Proof.
  destruct n as [fa fd fi fn fo fr fu]. simpl. intros ->.
  induction es as [| [k c] t IH]; simpl; auto; try now rewrite IH.
Qed.

Lemma unsupported_list (n : node) (cs : list node) :
  key_D n = Some (PList cs) -> unsupported n = existsb unsupported cs.
Proof.
  destruct n as [fa fd fi fn fo fr fu]. simpl. intros ->.
  induction cs as [| c t IH]; simpl; auto; try now rewrite IH.
Qed.

Lemma patch_dict_step_unsupported (rec : value -> result value) (key : string)
      (c : node) (t : value) :
  patch_dict_step rec key c t = Raise NotImplementedError ->
  exists old, rec old = Raise NotImplementedError.
Proof.
  unfold patch_dict_step, patch_key, set_key, del_key.
  destruct (has (key_D c) || has (key_N c)).
  - destruct t as [| | | | | d]; try discriminate.
    destruct (lookup key d) as [old |]; try discriminate.
    destruct (rec old) as [new | e] eqn:E; simpl; try discriminate.
    intros [= ->]. eauto.
  - destruct (key_A c), (key_R c), t as [| | | | | d]; try discriminate;
      destruct (lookup key d); discriminate.
Qed.

Lemma patch_list_step_unsupported (rec : value -> result value) (c : node)
      (st : value * Z * Z) :
  patch_list_step rec c st = Raise NotImplementedError ->
  exists old, rec old = Raise NotImplementedError.
Proof.
  destruct st as [[t i] j]. unfold patch_list_step.
  set (i' := match key_I c with Some idx => (idx + j)%Z | None => i end).
  destruct (has (key_D c) || has (key_N c)).
  - unfold patch_index. destruct t as [| | | s | l | d]; try discriminate.
    + destruct (str_index s i') as [ch |]; try discriminate.
      destruct (rec (VStr ch)) as [new | e] eqn:E; simpl; try discriminate.
      intros [= ->]. eauto.
    + destruct (norm_index (List.length l) i') as [n |]; try discriminate.
      destruct (rec (nth n l VNone)) as [new | e] eqn:E; simpl;
        try discriminate.
      intros [= ->]. eauto.
  - unfold insert_index, del_index.
    destruct (key_A c), (key_R c), t as [| | | s | l | d]; try discriminate;
      destruct (norm_index (List.length l) i'); discriminate.
Qed.

Lemma patch_unsupported (n : node) :
  forall t, patch t n = Raise NotImplementedError -> unsupported n = true.
Proof.
  induction n as [fa es fi fn fo fr fu IH | fa cs fi fn fo fr fu IH
                  | fa v fi fn fo fr fu | fa fi fn fo fr fu] using node_rect';
    intros t; rewrite patch_eq; cbn [key_D key_N].
  - rewrite (unsupported_dict (Node fa (Some (PDict es)) fi fn fo fr fu) es eq_refl).
    revert t.
    induction IH as [| [k c] rest Hc _ IHrest]; intros t; simpl.
    + discriminate.
    + destruct (patch_dict_step _ k c t) as [t' |e] eqn:E; simpl.
      * intros H. rewrite (IHrest _ H). apply orb_true_r.
      * intros [= ->]. apply patch_dict_step_unsupported in E as [old E].
        simpl in Hc. now rewrite (Hc _ E).
  - rewrite (unsupported_list (Node fa (Some (PList cs)) fi fn fo fr fu) cs eq_refl).
    generalize (t, 0%Z, 0%Z).
    induction IH as [| c rest Hc _ IHrest]; intros st; simpl.
    + discriminate.
    + destruct (patch_list_step _ c st) as [st' | e] eqn:E; simpl.
      * intros H. rewrite (IHrest _ H). apply orb_true_r.
      * intros [= ->]. apply patch_list_step_unsupported in E as [old E].
        now rewrite (Hc _ E).
  - reflexivity.
  - destruct fn; discriminate.
Qed.

(** ** Matched items go through the pairing loop *)

Lemma diff_equal (self : Differ) (x y : value) :
  py_eq x y = true ->
  diff self x y = if op_u self then diff_U x else empty_node.
Proof. intros E. now rewrite diff_eq, E. Qed.

Section MatchedRun.
Variable self : Differ.
Variables a b : list value.

Lemma turns_cursors (k : nat) (w : walk) :
  cur_i (turns self a b k w) = cur_i w + k /\ cur_j (turns self a b k w) = cur_j w + k.
Proof.
  unfold turns. induction k as [| k [IHi IHj]]; [simpl; lia |].
  rewrite Nat.iter_succ.
  destruct (changed_turn_cursors (diff self) a b
              (Nat.iter k (changed_turn (diff self) a b) w)) as [Ci Cj].
  lia.
Qed.

Lemma while_changed_turns (ai bj k : nat) (w : walk) :
  cur_i w + k <= ai -> cur_j w + k <= bj ->
  while_changed (diff self) (ai - cur_i w) a b ai bj w
  = while_changed (diff self) (ai - cur_i w - k) a b ai bj (turns self a b k w).
Proof.
  revert w. induction k as [| k IH]; intros w Hi Hj.
  - now rewrite Nat.sub_0_r.
  - replace (ai - cur_i w) with (S (ai - cur_i w - 1)) by lia.
    rewrite while_changed_step.
    assert ((cur_i w <? ai) && (cur_j w <? bj) = true) as ->.
    { apply andb_true_iff. split; apply Nat.ltb_lt; lia. }
    destruct (changed_turn_cursors (diff self) a b w) as [Ci Cj].
    unfold turns. rewrite Nat.iter_succ_r. fold (turns self a b k (changed_turn (diff self) a b w)).
    replace (ai - cur_i w - 1) with (ai - cur_i (changed_turn (diff self) a b w))
      by lia.
    replace (S (ai - cur_i (changed_turn (diff self) a b w)) - S k)
      with (ai - cur_i (changed_turn (diff self) a b w) - k) by lia.
    apply IH; lia.
Qed.

(** What [k] turns of the pairing loop write for [k] pairs of equal
    items: one ['U'] diff each when [U] is on, nothing otherwise. *)
Lemma turns_equal (k : nat) (w : walk) :
  (forall t, t < k ->
             py_eq (nth (cur_i w + t) a VNone) (nth (cur_j w + t) b VNone)
             = true) ->
  exists new,
    ret_D (turns self a b k w) = ret_D w ++ new
    /\ (op_u self = true ->
        List.length new = k
        /\ forall t, t < k ->
                     key_U (nth t new empty_node)
                     = Some (nth (cur_i w + t) a VNone))
    /\ (op_u self = false -> new = [])
    /\ (0 < k -> force_index (turns self a b k w) = negb (op_u self)).
Proof.
  induction k as [| k IH]; intros Heq.
  - exists []. simpl. rewrite app_nil_r. repeat split; auto; intros; lia.
  - destruct IH as (new & Hret & Hu & Hnu & Hf); [intros; apply Heq; lia |].
    destruct (turns_cursors k w) as [Ti Tj].
    unfold turns in *. rewrite Nat.iter_succ.
    set (wk := Nat.iter k (changed_turn (diff self) a b) w) in *.
    destruct (changed_turn_ret (diff self) a b wk) as [Cr Cf].
    rewrite Ti, Tj, (diff_equal self _ _ (Heq k (Nat.lt_succ_diag_r k)))
      in Cr, Cf.
    rewrite Cr, Cf, Hret. destruct (op_u self) eqn:Eu.
    + exists (new ++ [tag wk (diff_U (nth (cur_i w + k) a VNone))]).
      destruct (Hu eq_refl) as [Hlen Hnth].
      rewrite app_assoc. repeat split; auto; try discriminate.
      * rewrite length_app. simpl. lia.
      * intros t Ht. destruct (Nat.eq_dec t k) as [-> | Hne].
        -- rewrite <- Hlen at 1. rewrite nth_middle.
           destruct (tag_keys wk (diff_U (nth (cur_i w + k) a VNone)))
             as (_ & _ & _ & _ & _ & ->).
           reflexivity.
        -- rewrite app_nth1 by lia. apply Hnth. lia.
    + exists []. rewrite (Hnu eq_refl), app_nil_r.
      repeat split; auto; discriminate.
Qed.
End MatchedRun.

(** ** Pickles can be read back *)

Lemma run_app (p q : pickle) (stack : list slot) :
  run (p ++ q) stack = match run p stack with
                       | Some stack' => run q stack'
                       | None => None
                       end.
Proof.
  revert stack. induction p as [| op p IH]; intros stack; simpl; auto.
  destruct (step op stack); auto.
Qed.

Lemma save_list (l : list value) :
  save (VList l) =
  EMPTY_LIST :: match l with
                | [] => []
                | [x] => save x ++ [APPEND]
                | _ => MARK :: save_items l ++ [APPENDS]
                end.
Proof. destruct l as [| x [| y t]]; reflexivity. Qed.

Lemma save_dict (d : list (string * value)) :
  save (VDict d) =
  EMPTY_DICT :: match d with
                | [] => []
                | [(k, x)] => BINUNICODE k :: save x ++ [SETITEM]
                | _ => MARK :: save_entries d ++ [SETITEMS]
                end.
Proof. destruct d as [| [k x] [| [k' y] t]]; reflexivity. Qed.

Lemma pop_mark_push (l acc : list value) (stack : list slot) :
  pop_mark (push_items l (SMark :: stack)) acc = Some (l ++ acc, stack).
Proof.
  unfold push_items. revert acc.
  induction l as [| x l IH] using rev_ind; intros acc; simpl; auto.
  rewrite map_app, rev_app_distr. simpl. rewrite IH, <- app_assoc. reflexivity.
Qed.

Lemma pair_up_flatten (d : list (string * value)) : pair_up (flatten d) = Some d.
Proof. induction d as [| [k x] t IH]; simpl; auto. now rewrite IH. Qed.

Lemma fold_dict_set (d acc : list (string * value)) :
  NoDup (keys (acc ++ d)) ->
  fold_left (fun d e => dict_set d (fst e) (snd e)) d acc = acc ++ d.
Proof.
  revert acc. induction d as [| [k x] t IH]; intros acc Hnd; simpl.
  - now rewrite app_nil_r.
  - assert (~ In k (keys acc)) as Hk.
    { unfold keys in *. rewrite map_app in Hnd. simpl in Hnd.
      apply NoDup_remove_2 in Hnd. intros H. apply Hnd, in_or_app. auto. }
    rewrite keys_dict_set_new by assumption.
    rewrite IH; rewrite <- app_assoc; auto.
Qed.

Lemma run_save_items (l : list value) :
  Forall (fun v => forall stack,
              wf v = true -> run (save v) stack = Some (SVal v :: stack)) l ->
  forall stack,
    forallb wf l = true ->
    run (save_items l) stack = Some (push_items l stack).
Proof.
  unfold push_items.
  induction 1 as [| x t Hx _ IH]; intros stack Hwf; simpl in *; auto.
  apply andb_true_iff in Hwf as [Hwx Hwt].
  rewrite run_app, Hx, IH by assumption.
  now rewrite <- app_assoc.
Qed.

Lemma run_save_entries (d : list (string * value)) :
  Forall (fun e => forall stack,
              wf (snd e) = true ->
              run (save (snd e)) stack = Some (SVal (snd e) :: stack)) d ->
  forall stack,
    wf_entries d = true ->
    run (save_entries d) stack = Some (push_items (flatten d) stack).
Proof.
  unfold push_items.
  induction 1 as [| [k x] t Hx _ IH]; intros stack Hwf; simpl in *; auto.
  apply andb_true_iff in Hwf as [Hwx Hwt].
  rewrite run_app, Hx, IH by assumption.
  now rewrite <- !app_assoc.
Qed.

Lemma run_save (v : value) :
  forall stack, wf v = true -> run (save v) stack = Some (SVal v :: stack).
Proof.
  induction v as [| [|] | z | s | l IH | d IH] using value_rect';
    intros stack Hwf; try reflexivity.
  - rewrite save_list. destruct l as [| x [| y t]].
    + reflexivity.
    + inversion IH as [| ? ? Hx _]; subst. simpl in Hwf.
      apply andb_true_iff in Hwf as [Hwx _].
      cbn [run step]. rewrite run_app, Hx by assumption. reflexivity.
    + cbn [run step]. rewrite run_app.
      rewrite (run_save_items _ IH) by exact Hwf.
      cbn [run step]. now rewrite pop_mark_push, app_nil_r.
  - rewrite wf_dict in Hwf. apply andb_true_iff in Hwf as [Hnd Hwf].
    apply nodup_keys_NoDup in Hnd.
    rewrite save_dict. destruct d as [| [k x] [| e t]].
    + reflexivity.
    + inversion IH as [| ? ? Hx _]; subst. simpl in Hwf, Hx.
      apply andb_true_iff in Hwf as [Hwx _].
      cbn [run step]. rewrite run_app, Hx by assumption. reflexivity.
    + cbn [run step]. rewrite run_app.
      rewrite (run_save_entries _ IH) by exact Hwf.
      cbn [run step]. rewrite pop_mark_push, app_nil_r, pair_up_flatten.
      now rewrite (fold_dict_set _ []).
Qed.

Lemma loads_dumps (v : value) : wf v = true -> loads (dumps v) = Some v.
Proof.
  intros Hwf. unfold loads, dumps. cbn [run step].
  now rewrite run_app, run_save.
Qed.

Lemma dumps_injective (x y : value) :
  wf x = true -> wf y = true -> dumps x = dumps y -> x = y.
Proof.
  intros Hx Hy E. apply loads_dumps in Hx, Hy. congruence.
Qed.

(** ** What the differ writes to *)

Lemma kept_refl (n : nat) (s : Store.store) : kept n s s.
Proof. split; auto. Qed.

Lemma kept_trans (n : nat) (s1 s2 s3 : Store.store) :
  kept n s1 s2 -> kept n s2 s3 -> kept n s1 s3.
Proof.
  intros [L1 K1] [L2 K2]. split; [lia |].
  intros l Hl. now rewrite K2, K1.
Qed.

Lemma kept_le (n m : nat) (s s' : Store.store) :
  n <= m -> kept m s s' -> kept n s s'.
Proof. intros Hnm [L K]. split; auto. intros l Hl. apply K. lia. Qed.

Lemma post_bind {X Y : Type} (c : Store.M X) (k : X -> Store.M Y)
      (s : Store.store) (Q : Y -> Store.store -> Prop) :
  post c s (fun x s' => post (k x) s' Q) -> post (Store.bind c k) s Q.
Proof.
  unfold post, Store.bind. destruct (c s) as [[x s'] |]; auto.
Qed.

Lemma post_mono {X : Type} (c : Store.M X) (s : Store.store)
      (P Q : X -> Store.store -> Prop) :
  post c s P -> (forall x s', P x s' -> Q x s') -> post c s Q.
Proof.
  unfold post. destruct (c s) as [[x s'] |]; auto.
Qed.

Lemma post_pure {X : Type} (x : X) (s : Store.store)
      (Q : X -> Store.store -> Prop) :
  Q x s -> post (Store.pure x) s Q.
Proof. auto. Qed.

Lemma post_raise {X : Type} (s : Store.store) (Q : X -> Store.store -> Prop) :
  post Store.raise s Q.
Proof. exact I. Qed.

Lemma nth_error_list_set {X : Type} (l : list X) (n m : nat) (x : X) :
  nth_error (list_set l n x) m
  = if Nat.eqb m n then (if n <? List.length l then Some x else None)
    else nth_error l m.
Proof.
  revert n m. induction l as [| y t IH]; intros n m.
  - simpl. destruct n, m; simpl; auto. now destruct (Nat.eqb m n).
  - destruct n as [| n], m as [| m]; simpl; auto.
Qed.

Lemma length_list_set {X : Type} (l : list X) (n : nat) (x : X) :
  List.length (list_set l n x) = List.length l.
Proof.
  revert n. induction l as [| y t IH]; intros [| n]; simpl; auto.
Qed.

(** The primitives. *)
Lemma post_alloc (o : Store.obj) (s : Store.store)
      (Q : Store.loc -> Store.store -> Prop) :
  Q (List.length s) (s ++ [o]) -> post (Store.alloc o) s Q.
Proof. auto. Qed.

Lemma post_get (l : Store.loc) (s : Store.store)
      (Q : Store.obj -> Store.store -> Prop) :
  (forall o, nth_error s l = Some o -> Q o s) -> post (Store.get l) s Q.
Proof.
  intros H. unfold post, Store.get. destruct (nth_error s l); auto.
Qed.

Lemma post_put (l : Store.loc) (o : Store.obj) (s : Store.store)
      (Q : unit -> Store.store -> Prop) :
  (l < List.length s -> Q tt (list_set s l o)) -> post (Store.put l o) s Q.
Proof.
  intros H. unfold post, Store.put.
  destruct (l <? List.length s) eqn:E; auto. apply Nat.ltb_lt in E. auto.
Qed.

Lemma post_value_of (l : Store.loc) (s : Store.store)
      (Q : value -> Store.store -> Prop) :
  (forall v, Q v s) -> post (Store.value_of l) s Q.
Proof.
  intros H. unfold post, Store.value_of.
  destruct (Store.read _ s l); auto.
Qed.

Lemma post_truth (l : Store.loc) (s : Store.store)
      (Q : bool -> Store.store -> Prop) :
  (forall t, Q t s) -> post (Store.truth l) s Q.
Proof.
  intros H. unfold Store.truth. apply post_bind, post_get.
  intros o _. apply post_pure, H.
Qed.

Lemma post_item (l : list Store.loc) (n : nat) (s : Store.store)
      (Q : Store.loc -> Store.store -> Prop) :
  (forall x, Q x s) -> post (Store.item l n) s Q.
Proof.
  intros H. unfold Store.item.
  destruct (nth_error l n); [apply post_pure, H | exact I].
Qed.

Lemma post_map_value_of (l : list Store.loc) (s : Store.store)
      (Q : list value -> Store.store -> Prop) :
  (forall vs, Q vs s) -> post (Store.map_M Store.value_of l) s Q.
Proof.
  revert Q. induction l as [| x t IH]; intros Q H; simpl.
  - apply post_pure, H.
  - apply post_bind, post_value_of. intros v.
    apply post_bind, IH. intros vs. apply post_pure, H.
Qed.

Lemma post_getitem (d : Store.loc) (key : string) (s : Store.store)
      (Q : Store.loc -> Store.store -> Prop) :
  (forall es l, nth_error s d = Some (Store.ODict es) ->
                lookup key es = Some l -> Q l s) ->
  post (Store.getitem d key) s Q.
Proof.
  intros H. unfold Store.getitem. apply post_bind, post_get.
  intros [| | | | items | es] Ho; try apply post_raise.
  destruct (lookup key es) as [l |] eqn:E; [| apply post_raise].
  apply post_pure. eauto.
Qed.

Lemma post_last_item (d : Store.loc) (s : Store.store)
      (Q : Store.loc -> Store.store -> Prop) :
  (forall items x, nth_error s d = Some (Store.OList items) ->
                   In x items -> Q x s) ->
  post (Store.last_item d) s Q.
Proof.
  intros H. unfold Store.last_item. apply post_bind, post_get.
  intros [| | | | items | es] Ho; try apply post_raise.
  destruct (rev items) as [| x t] eqn:E; [apply post_raise |].
  apply post_pure. apply (H items x Ho).
  apply in_rev. rewrite E. simpl. auto.
Qed.

Lemma wrote_put (d : Store.loc) (o o' : Store.obj) (s : Store.store) :
  nth_error s d = Some o -> d < List.length s ->
  wrote d o o' s (list_set s d o').
Proof.
  intros Ho Hd. repeat split; auto.
  - rewrite nth_error_list_set, Nat.eqb_refl.
    apply Nat.ltb_lt in Hd. now rewrite Hd.
  - apply length_list_set.
  - intros l Hl. rewrite nth_error_list_set.
    destruct (Nat.eqb l d) eqn:E; auto. apply Nat.eqb_eq in E. contradiction.
Qed.

Lemma post_setitem (d : Store.loc) (key : string) (v : Store.loc)
      (s : Store.store) (Q : unit -> Store.store -> Prop) :
  (forall es s', wrote d (Store.ODict es) (Store.ODict (dict_set es key v)) s s'
                 -> Q tt s') ->
  post (Store.setitem d key v) s Q.
Proof.
  intros H. unfold Store.setitem. apply post_bind, post_get.
  intros [| | | | items | es] Ho; try apply post_raise.
  apply post_put. intros Hd. apply (H es). now apply wrote_put.
Qed.

Lemma post_delitem (d : Store.loc) (key : string) (s : Store.store)
      (Q : unit -> Store.store -> Prop) :
  (forall es s', wrote d (Store.ODict es) (Store.ODict (dict_del es key)) s s'
                 -> Q tt s') ->
  post (Store.delitem d key) s Q.
Proof.
  intros H. unfold Store.delitem. apply post_bind, post_get.
  intros [| | | | items | es] Ho; try apply post_raise.
  destruct (lookup key es); [| apply post_raise].
  apply post_put. intros Hd. apply (H es). now apply wrote_put.
Qed.

Lemma post_append (d : Store.loc) (v : Store.loc) (s : Store.store)
      (Q : unit -> Store.store -> Prop) :
  (forall items s',
      wrote d (Store.OList items) (Store.OList (items ++ [v])) s s' -> Q tt s') ->
  post (Store.append d v) s Q.
Proof.
  intros H. unfold Store.append. apply post_bind, post_get.
  intros [| | | | items | es] Ho; try apply post_raise.
  apply post_put. intros Hd. apply (H items). now apply wrote_put.
Qed.

Lemma kept_wrote (n d : nat) (o o' : Store.obj) (s s' : Store.store) :
  n <= d -> wrote d o o' s s' -> kept n s s'.
Proof.
  intros Hn (_ & _ & L & K). split; [lia |].
  intros l Hl. apply K. lia.
Qed.

Lemma kept_alloc (n : nat) (o : Store.obj) (s : Store.store) :
  n <= List.length s -> kept n s (s ++ [o]).
Proof.
  intros Hn. split.
  - rewrite length_app. simpl. lia.
  - intros l Hl. apply nth_error_app1. lia.
Qed.

Section Frame.
Variable self : Differ.
Variable rec : Store.loc -> Store.loc -> Store.M Store.loc.

Hypothesis Hrec : forall x y, fresh_result (rec x y).

(** The diff under construction: [ret] is [{'D': d}], both made after the
    first [n] objects. *)
Variables n d ret : nat.

Lemma post_then {X Y : Type} (inv : Store.store -> Prop) (c : Store.M X)
      (k : X -> Store.M Y) (s : Store.store) (P : X -> Store.store -> Prop) :
  post c s (fun x s1 => kept n s s1 /\ inv s1 /\ P x s1) ->
  (forall x s1, inv s1 -> P x s1 ->
                post (k x) s1 (fun _ s2 => kept n s1 s2 /\ inv s2)) ->
  post (Store.bind c k) s (fun _ s2 => kept n s s2 /\ inv s2).
Proof.
  intros Hc Hk. apply post_bind. eapply post_mono; [exact Hc |].
  intros x s1 (K1 & I1 & P1). eapply post_mono; [apply (Hk x s1 I1 P1) |].
  intros y s2 [K2 I2]. split; auto. eapply kept_trans; eauto.
Qed.

Lemma building_D (s : Store.store) (es : list (string * Store.loc))
      (l : Store.loc) :
  building n d ret s -> nth_error s ret = Some (Store.ODict es) ->
  lookup "D" es = Some l -> l = d.
Proof.
  intros (_ & _ & _ & Hret) Hes Hl. rewrite Hret in Hes.
  injection Hes as <-. simpl in Hl. congruence.
Qed.

Lemma building_grow (s s' : Store.store) :
  building n d ret s -> kept (List.length s) s s' -> building n d ret s'.
Proof.
  intros (H1 & H2 & H3 & H4) [L K]. repeat split; auto; try lia.
  rewrite K; auto.
Qed.

Lemma building_wrote (s s' : Store.store) (l : nat) (o o' : Store.obj) :
  building n d ret s -> l <> ret -> wrote l o o' s s' -> building n d ret s'.
Proof.
  intros (H1 & H2 & H3 & H4) Hl (_ & _ & L & K). repeat split; auto; try lia.
  rewrite K; auto.
Qed.

Lemma dict_inv_grow (s s' : Store.store) :
  dict_inv n d ret s -> kept (List.length s) s s' -> dict_inv n d ret s'.
Proof.
  intros [Hb [es Hes]] HK. split; [eapply building_grow; eauto |].
  exists es. destruct HK as [L K]. rewrite K; auto.
  destruct Hb as (? & ? & ? & _). lia.
Qed.

Lemma list_inv_grow (s s' : Store.store) :
  list_inv n d ret s -> kept (List.length s) s s' -> list_inv n d ret s'.
Proof.
  intros [Hb (items & Hd & Hall)] HK. split; [eapply building_grow; eauto |].
  exists items. destruct HK as [L K]. split.
  - rewrite K; auto. destruct Hb as (? & ? & ? & _). lia.
  - eapply Forall_impl; [| exact Hall]. simpl. intros x Hx. lia.
Qed.

Lemma inv_n (s : Store.store) : building n d ret s -> n <= List.length s.
Proof. intros (? & ? & ? & _). lia. Qed.

(** [ret['D'][key] = x] in a dict diff. *)
Lemma record_dict (key : string) (x : Store.loc) (s : Store.store) :
  dict_inv n d ret s ->
  post (Store.record ret key x) s (fun _ s' => kept n s s' /\ dict_inv n d ret s').
Proof.
  intros [Hb [es Hes]]. unfold Store.record.
  apply post_bind, post_getitem. intros es0 l Hret Hl.
  pose proof (building_D s es0 l Hb Hret Hl) as ->.
  apply post_setitem. intros es1 s' Hw.
  pose proof Hb as (? & ? & ? & _). split.
  - eapply (kept_wrote n d); [assumption | exact Hw].
  - split.
    + eapply (building_wrote s s' d); [exact Hb | lia | exact Hw].
    + destruct Hw as (_ & Hd & _). eauto.
Qed.

Lemma alloc_dict_inv (o : Store.obj) (s : Store.store)
      (Q : Store.loc -> Store.store -> Prop) :
  dict_inv n d ret s ->
  (forall s', kept n s s' -> dict_inv n d ret s' -> Q (List.length s) s') ->
  post (Store.alloc o) s Q.
Proof.
  intros Hinv H. apply post_alloc. apply H.
  - apply kept_alloc. apply inv_n, Hinv.
  - apply (dict_inv_grow s); auto. apply kept_alloc. auto.
Qed.

Lemma diff_dicts_step_frame (a b : list (string * Store.loc)) (key : string)
      (s : Store.store) :
  dict_inv n d ret s ->
  post (Store.diff_dicts_step self rec a b ret key) s
       (fun _ s' => kept n s s' /\ dict_inv n d ret s').
Proof.
  intros Hinv. unfold Store.diff_dicts_step.
  assert (post (Store.pure tt) s (fun _ s' => kept n s s' /\ dict_inv n d ret s'))
    as Hskip by (apply post_pure; split; [apply kept_refl | exact Hinv]).
  assert (forall o key,
             post (Store.bind (Store.alloc o)
                              (fun c => Store.record ret key c)) s
                  (fun _ s' => kept n s s' /\ dict_inv n d ret s')) as Hnew.
  { intros o k. apply post_bind. apply alloc_dict_inv; auto.
    intros s1 K1 I1. eapply post_mono; [apply record_dict; auto |].
    intros _ s2 [K2 I2]. split; auto. eapply kept_trans; eauto. }
  destruct (lookup key a) as [x |]; destruct (lookup key b) as [y |]; auto.
  - apply post_bind, post_value_of. intros vx.
    apply post_bind, post_value_of. intros vy.
    destruct (py_eq vx vy).
    + destruct (op_u self); auto.
    + apply (post_then (dict_inv n d ret) _ _ _ (fun _ _ => True)).
      * eapply post_mono; [apply Hrec |].
        intros r s1 (K & _ & _). split; [| split; [| exact I]].
        -- eapply kept_le; [| exact K]. apply inv_n, Hinv.
        -- eapply dict_inv_grow; eauto.
      * intros r s1 I1 _. apply post_bind, post_truth. intros [|].
        -- now apply record_dict.
        -- apply post_pure. split; [apply kept_refl | exact I1].
  - destruct (op_r self); auto.
    destruct (op_trim_r self).
    + apply post_bind. apply alloc_dict_inv; auto. intros s1 K1 I1.
      apply post_bind. apply alloc_dict_inv; auto. intros s2 K2 I2.
      eapply post_mono; [apply record_dict; auto |].
      intros _ s3 [K3 I3]. split; auto.
      eapply kept_trans; [| exact K3]. eapply kept_trans; eauto.
    + apply post_bind, post_pure. apply Hnew.
  - destruct (op_a self); auto.
Qed.

Lemma for_each_frame {X : Type} (inv : Store.store -> Prop)
      (body : X -> Store.M unit) (l : list X) :
  (forall x s, inv s -> post (body x) s (fun _ s' => kept n s s' /\ inv s')) ->
  forall s, inv s ->
            post (Store.for_each body l) s (fun _ s' => kept n s s' /\ inv s').
Proof.
  intros Hbody. induction l as [| x t IH]; intros s Hinv; simpl.
  - apply post_pure. split; [apply kept_refl | exact Hinv].
  - apply (post_then inv _ _ _ (fun _ _ => True)).
    + eapply post_mono; [apply Hbody; auto |]. intros _ s1 [K I1]. auto.
    + intros _ s1 I1 _. now apply IH.
Qed.

(** [if not ret['D']: del ret['D']] writes to [ret] alone. *)
Lemma drop_empty_frame (s : Store.store) :
  building n d ret s -> post (Store.drop_empty ret) s (fun _ s' => kept n s s').
Proof.
  intros Hb. unfold Store.drop_empty.
  apply post_bind, post_getitem. intros es l _ _.
  apply post_bind, post_truth. intros [|].
  - apply post_pure, kept_refl.
  - apply post_delitem. intros es' s' Hw.
    eapply (kept_wrote n ret); [| exact Hw].
    destruct Hb as (? & ? & _). lia.
Qed.

Lemma alloc_list_inv (o : Store.obj) (s : Store.store)
      (Q : Store.loc -> Store.store -> Prop) :
  list_inv n d ret s ->
  (forall s', kept n s s' -> list_inv n d ret s' ->
              ret < List.length s /\ List.length s < List.length s' ->
              Q (List.length s) s') ->
  post (Store.alloc o) s Q.
Proof.
  intros Hinv H. apply post_alloc. apply H.
  - apply kept_alloc. apply inv_n, Hinv.
  - apply (list_inv_grow s); auto. apply kept_alloc. auto.
  - rewrite length_app. simpl. destruct Hinv as [(? & ? & ? & _) _]. lia.
Qed.

(** Appending a subdiff, and tagging the last one, in a list diff. *)
Lemma emit_frame (w : Store.cursors) (x : Store.loc) (s : Store.store) :
  list_inv n d ret s -> ret < x -> x < List.length s ->
  post (Store.emit ret w x) s (fun _ s' => kept n s s' /\ list_inv n d ret s').
Proof.
  intros [Hb (items & Hd & Hall)] Hx1 Hx2. unfold Store.emit.
  pose proof Hb as (B1 & B2 & B3 & B4).
  apply post_bind, post_getitem. intros es0 l Hret Hl.
  pose proof (building_D s es0 l Hb Hret Hl) as ->.
  apply post_bind, post_append. intros items0 s1 Hw.
  assert (kept n s s1) as K1 by (eapply (kept_wrote n d); eauto).
  assert (list_inv n d ret s1) as I1.
  { split; [eapply (building_wrote s s1 d); eauto; lia |].
    destruct Hw as (Hd0 & Hd1 & L & _). rewrite Hd in Hd0.
    injection Hd0 as <-. exists (items ++ [x]). split; auto.
    apply Forall_app. split.
    - eapply Forall_impl; [| exact Hall]. simpl. intros y Hy. lia.
    - constructor; [lia | constructor]. }
  destruct (Store.forced w).
  - apply post_bind. apply alloc_list_inv; auto. intros s2 K2 I2 _.
    destruct I2 as [Hb2 (items2 & Hd2 & Hall2)].
    apply post_bind, post_getitem. intros es2 l2 Hret2 Hl2.
    pose proof (building_D s2 es2 l2 Hb2 Hret2 Hl2) as ->.
    apply post_bind, post_last_item. intros items3 c Hd3 Hc.
    rewrite Hd2 in Hd3. injection Hd3 as <-.
    rewrite Forall_forall in Hall2. destruct (Hall2 c Hc) as [C1 C2].
    apply post_bind, post_setitem. intros es3 s3 Hw3.
    apply post_pure. split.
    + eapply kept_trans; [exact K1 |]. eapply kept_trans; [exact K2 |].
      eapply (kept_wrote n c); [lia | exact Hw3].
    + split; [eapply (building_wrote s2 s3 c); eauto; lia |].
      exists items2. destruct Hw3 as (_ & _ & L3 & K3). split.
      * rewrite K3; auto. lia.
      * apply Forall_forall. intros y Hy. rewrite L3. auto.
  - apply post_pure. split; assumption.
Qed.

Lemma while_changed_frame (fuel : nat) (a b : list Store.loc) (ai bj : nat) :
  forall w s,
    list_inv n d ret s ->
    post (Store.while_changed rec fuel a b ai bj ret w) s
         (fun _ s' => kept n s s' /\ list_inv n d ret s').
Proof.
  induction fuel as [| fuel IH]; intros w s Hinv; simpl.
  - apply post_pure. split; [apply kept_refl | exact Hinv].
  - destruct ((Store.at_i w <? ai) && (Store.at_j w <? bj));
      [| apply post_pure; split; [apply kept_refl | exact Hinv]].
    apply post_bind, post_item. intros x.
    apply post_bind, post_item. intros y.
    apply (post_then (list_inv n d ret) _ _ _
                     (fun r s1 => ret < r /\ r < List.length s1)).
    + eapply post_mono; [apply Hrec |].
      intros r s1 (K & R1 & R2). split; [| split].
      * eapply kept_le; [| exact K]. apply inv_n, Hinv.
      * eapply list_inv_grow; eauto.
      * destruct Hinv as [(? & ? & ? & _) _]. lia.
    + intros r s1 I1 [R1 R2]. apply post_bind, post_truth. intros t.
      apply (post_then (list_inv n d ret) _ _ _ (fun _ _ => True)).
      * destruct t.
        -- eapply post_mono; [now apply emit_frame |].
           intros w' s2 [K2 I2]. auto.
        -- apply post_pure. split; [apply kept_refl | auto].
      * intros w' s2 I2 _. now apply IH.
Qed.

Lemma while_removed_frame (fuel : nat) (a : list Store.loc) (ai : nat) :
  forall w s,
    list_inv n d ret s ->
    post (Store.while_removed self fuel a ai ret w) s
         (fun _ s' => kept n s s' /\ list_inv n d ret s').
Proof.
  induction fuel as [| fuel IH]; intros w s Hinv; simpl.
  - apply post_pure. split; [apply kept_refl | exact Hinv].
  - destruct (Store.at_i w <? ai);
      [| apply post_pure; split; [apply kept_refl | exact Hinv]].
    apply (post_then (list_inv n d ret) _ _ _ (fun _ _ => True)).
    + destruct (op_r self);
        [| apply post_pure; split; [apply kept_refl | auto]].
      destruct (op_trim_r self).
      * apply post_bind. apply alloc_list_inv; auto. intros s1 K1 I1 _.
        apply post_bind. apply alloc_list_inv; auto. intros s2 K2 I2 [F1 F2].
        eapply post_mono; [apply emit_frame; auto; lia |].
        intros w' s3 [K3 I3]. split; [| auto].
        eapply kept_trans; [exact K1 |]. eapply kept_trans; eauto.
      * apply post_bind, post_item. intros v.
        apply post_bind. apply alloc_list_inv; auto. intros s2 K2 I2 [F1 F2].
        eapply post_mono; [apply emit_frame; auto; lia |].
        intros w' s3 [K3 I3]. split; [| auto].
        eapply kept_trans; eauto.
    + intros w' s1 I1 _. now apply IH.
Qed.

Lemma while_added_frame (fuel : nat) (b : list Store.loc) (bj : nat) :
  forall w s,
    list_inv n d ret s ->
    post (Store.while_added self fuel b bj ret w) s
         (fun _ s' => kept n s s' /\ list_inv n d ret s').
Proof.
  induction fuel as [| fuel IH]; intros w s Hinv; simpl.
  - apply post_pure. split; [apply kept_refl | exact Hinv].
  - destruct (Store.at_j w <? bj);
      [| apply post_pure; split; [apply kept_refl | exact Hinv]].
    apply (post_then (list_inv n d ret) _ _ _ (fun _ _ => True)).
    + destruct (op_a self);
        [| apply post_pure; split; [apply kept_refl | auto]].
      apply post_bind, post_item. intros v.
      apply post_bind. apply alloc_list_inv; auto. intros s2 K2 I2 [F1 F2].
      eapply post_mono; [apply emit_frame; auto; lia |].
      intros w' s3 [K3 I3]. split; [| auto].
      eapply kept_trans; eauto.
    + intros w' s1 I1 _. now apply IH.
Qed.

Lemma walk_block_frame (a b : list Store.loc) (blk : nat * nat * nat) :
  forall w s,
    list_inv n d ret s ->
    post (Store.walk_block self rec a b ret w blk) s
         (fun _ s' => kept n s s' /\ list_inv n d ret s').
Proof.
  destruct blk as [[ai bj] k]. intros w s Hinv. unfold Store.walk_block.
  apply (post_then (list_inv n d ret) _ _ _ (fun _ _ => True)).
  - eapply post_mono; [now apply while_changed_frame |].
    intros w1 s1 [K1 I1]. auto.
  - intros w1 s1 I1 _.
    apply (post_then (list_inv n d ret) _ _ _ (fun _ _ => True)).
    + eapply post_mono; [now apply while_removed_frame |].
      intros w2 s2 [K2 I2]. auto.
    + intros w2 s2 I2 _. now apply while_added_frame.
Qed.

Lemma walk_blocks_frame (a b : list Store.loc)
      (blocks : list (nat * nat * nat)) :
  forall w s,
    list_inv n d ret s ->
    post (Store.walk_blocks self rec a b ret blocks w) s
         (fun _ s' => kept n s s' /\ list_inv n d ret s').
Proof.
  induction blocks as [| blk rest IH]; intros w s Hinv; simpl.
  - apply post_pure. split; [apply kept_refl | exact Hinv].
  - apply (post_then (list_inv n d ret) _ _ _ (fun _ _ => True)).
    + eapply post_mono; [now apply walk_block_frame |].
      intros w1 s1 [K1 I1]. auto.
    + intros w1 s1 I1 _. now apply IH.
Qed.
End Frame.

Lemma nth_error_snoc {X : Type} (l : list X) (x : X) :
  nth_error (l ++ [x]) (List.length l) = Some x.
Proof. rewrite nth_error_app2, Nat.sub_diag by lia. reflexivity. Qed.

Section FreshResult.
Variable self : Differ.
Variable rec : Store.loc -> Store.loc -> Store.M Store.loc.
Hypothesis Hrec : forall x y, fresh_result (rec x y).

(** The two objects a dict or list diff starts from. *)
Lemma start_building (o : Store.obj) (s : Store.store) :
  let d := List.length s in
  let ret := S (List.length s) in
  let s2 := (s ++ [o]) ++ [Store.ODict [("D", d)]] in
  building (List.length s) d ret s2
  /\ nth_error s2 d = Some o
  /\ kept (List.length s) s s2.
Proof.
  intros d ret s2. unfold building, d, ret, s2. repeat split.
  - lia.
  - lia.
  - rewrite !length_app. simpl. lia.
  - replace (S (List.length s)) with (List.length (s ++ [o]))
      by (rewrite length_app; simpl; lia).
    apply nth_error_snoc.
  - rewrite nth_error_app1 by (rewrite length_app; simpl; lia).
    apply nth_error_snoc.
  - rewrite !length_app. simpl. lia.
  - intros l Hl. rewrite !nth_error_app1; auto; rewrite ?length_app; simpl; lia.
Qed.

Lemma diff_dicts_fresh (a b : list (string * Store.loc)) :
  fresh_result (Store.diff_dicts self rec a b).
Proof.
  intros s. unfold Store.diff_dicts.
  apply post_bind, post_alloc. apply post_bind, post_alloc.
  destruct (start_building (Store.ODict []) s) as (Hb & Hd & K0).
  set (n := List.length s) in *.
  replace (List.length (s ++ [Store.ODict []])) with (S n)
    by (rewrite length_app; simpl; lia).
  set (s2 := (s ++ [Store.ODict []]) ++ [Store.ODict [("D", n)]]) in *.
  apply post_bind.
  eapply post_mono;
    [apply (for_each_frame n (dict_inv n n (S n))
                           (Store.diff_dicts_step self rec a b (S n))) |].
  - intros key s0 Hinv. now apply diff_dicts_step_frame.
  - split; eauto.
  - intros u3 s3 [K3 [Hb3 _]]. apply post_bind.
    eapply post_mono; [apply (drop_empty_frame n n (S n)); exact Hb3 |].
    intros u4 s4 K4. apply post_pure.
    assert (kept n s s4) as K
        by (eapply kept_trans; [exact K0 |]; eapply kept_trans; eauto).
    split; [exact K |]. split; [lia |].
    destruct Hb3 as (_ & _ & L3 & _). destruct K4 as [L4 _]. lia.
Qed.

Lemma diff_lists_fresh (a b : list Store.loc) :
  fresh_result (Store.diff_lists self rec a b).
Proof.
  intros s. unfold Store.diff_lists.
  apply post_bind, post_map_value_of. intros va.
  apply post_bind, post_map_value_of. intros vb.
  apply post_bind, post_alloc. apply post_bind, post_alloc.
  destruct (start_building (Store.OList []) s) as (Hb & Hd & K0).
  set (n := List.length s) in *.
  replace (List.length (s ++ [Store.OList []])) with (S n)
    by (rewrite length_app; simpl; lia).
  set (s2 := (s ++ [Store.OList []]) ++ [Store.ODict [("D", n)]]) in *.
  apply post_bind.
  eapply post_mono;
    [apply (walk_blocks_frame self rec Hrec n n (S n) a b) |].
  - split; [exact Hb |]. exists []. split; [exact Hd | constructor].
  - intros u3 s3 [K3 [Hb3 _]]. apply post_bind.
    eapply post_mono; [apply (drop_empty_frame n n (S n)); exact Hb3 |].
    intros u4 s4 K4. apply post_pure.
    assert (kept n s s4) as K
        by (eapply kept_trans; [exact K0 |]; eapply kept_trans; eauto).
    split; [exact K |]. split; [lia |].
    destruct Hb3 as (_ & _ & L3 & _). destruct K4 as [L4 _]. lia.
Qed.

Lemma get_default_diff_fresh (a b : Store.loc) :
  fresh_result (Store.get_default_diff self a b).
Proof.
  intros s. unfold Store.get_default_diff.
  apply post_bind, post_alloc.
  set (n := List.length s). set (s1 := s ++ [Store.ODict []]).
  assert (kept n s s1) as K1 by (apply kept_alloc; lia).
  assert (List.length s1 = S n) as L1
      by (unfold s1; rewrite length_app; simpl; lia).
  assert (forall (c : Store.M unit) s1,
             kept n s s1 -> n < List.length s1 ->
             (c = Store.pure tt \/ exists key v, c = Store.setitem n key v) ->
             post c s1 (fun _ s2 => kept n s s2 /\ n < List.length s2)) as Hw.
  { intros c s0 K0 L0 [-> | (key & v & ->)].
    - apply post_pure. auto.
    - apply post_setitem. intros es s' Hw. split.
      + eapply kept_trans; [exact K0 |]. eapply (kept_wrote n n); eauto.
      + destruct Hw as (_ & _ & L & _). lia. }
  apply post_bind. eapply post_mono.
  - apply (Hw _ s1 K1); [lia |]. destruct (op_n self); eauto.
  - intros u2 s2 [K2 L2]. apply post_bind. eapply post_mono.
    + apply (Hw _ s2 K2 L2). destruct (op_o self); eauto.
    + intros u3 s3 [K3 L3]. apply post_pure. auto.
Qed.
End FreshResult.

Lemma store_diff_fresh (fuel : nat) (self : Differ) (a b : Store.loc) :
  fresh_result (Store.diff fuel self a b).
Proof.
  revert a b. induction fuel as [| fuel IH]; intros a b s; simpl.
  - apply post_raise.
  - apply post_bind, post_value_of. intros va.
    apply post_bind, post_value_of. intros vb.
    destruct (py_eq va vb).
    + assert (forall o, post (Store.alloc o) s
                             (fun r s' => kept (List.length s) s s'
                                          /\ List.length s <= r
                                          /\ r < List.length s')) as Hnew.
      { intros o. apply post_alloc. split; [apply kept_alloc; lia |].
        rewrite length_app. simpl. lia. }
      destruct (op_u self); apply Hnew.
    + apply post_bind, post_get. intros oa _.
      apply post_bind, post_get. intros ob _.
      destruct oa, ob;
        try apply get_default_diff_fresh;
        try (apply diff_lists_fresh; exact IH);
        try (apply diff_dicts_fresh; exact IH).
Qed.

(** Reading a value back is not disturbed by what is added to the store. *)
Lemma read_kept (s s' : Store.store) :
  (forall l o, nth_error s l = Some o -> nth_error s' l = Some o) ->
  forall fuel l v, Store.read fuel s l = Some v -> Store.read fuel s' l = Some v.
Proof.
  intros K. induction fuel as [| fuel IH]; intros l v; simpl; [discriminate |].
  destruct (nth_error s l) as [o |] eqn:E; [| discriminate].
  rewrite (K l o E).
  destruct o as [| bb | z | str | items | es]; auto.
  - intros H. destruct (_ items) as [vs |] eqn:Ev in H; [| discriminate].
    injection H as <-.
    assert (forall items vs,
               (fix each (items : list Store.loc) : option (list value) :=
                  match items with
                  | [] => Some []
                  | x :: rest =>
                      match Store.read fuel s x, each rest with
                      | Some v, Some vs => Some (v :: vs)
                      | _, _ => None
                      end
                  end) items = Some vs ->
               (fix each (items : list Store.loc) : option (list value) :=
                  match items with
                  | [] => Some []
                  | x :: rest =>
                      match Store.read fuel s' x, each rest with
                      | Some v, Some vs => Some (v :: vs)
                      | _, _ => None
                      end
                  end) items = Some vs) as Heach.
    { induction items0 as [| x rest IHr]; intros vs0; auto.
      destruct (Store.read fuel s x) as [vx |] eqn:Ex; [| discriminate].
      rewrite (IH _ _ Ex).
      destruct (_ rest) as [vr |] eqn:Er; [| discriminate].
      intros [= <-]. now rewrite (IHr _ eq_refl). }
    now rewrite (Heach _ _ Ev).
  - intros H. destruct (_ es) as [vs |] eqn:Ev in H; [| discriminate].
    injection H as <-.
    assert (forall es vs,
               (fix each (entries : list (string * Store.loc))
                  : option (list (string * value)) :=
                  match entries with
                  | [] => Some []
                  | (k, x) :: rest =>
                      match Store.read fuel s x, each rest with
                      | Some v, Some vs => Some ((k, v) :: vs)
                      | _, _ => None
                      end
                  end) es = Some vs ->
               (fix each (entries : list (string * Store.loc))
                  : option (list (string * value)) :=
                  match entries with
                  | [] => Some []
                  | (k, x) :: rest =>
                      match Store.read fuel s' x, each rest with
                      | Some v, Some vs => Some ((k, v) :: vs)
                      | _, _ => None
                      end
                  end) es = Some vs) as Heach.
    { induction es0 as [| [k x] rest IHr]; intros vs0; auto.
      destruct (Store.read fuel s x) as [vx |] eqn:Ex; [| discriminate].
      rewrite (IH _ _ Ex).
      destruct (_ rest) as [vr |] eqn:Er; [| discriminate].
      intros [= <-]. now rewrite (IHr _ eq_refl). }
    now rewrite (Heach _ _ Ev).
Qed.

(** ** A diff always applies to its first operand *)

Lemma lookup_dict_del_other {X : Type} (d : list (string * X)) (key k : string) :
  k <> key -> lookup k (dict_del d key) = lookup k d.
Proof.
  intros Hk. induction d as [| [k' y] t IH]; simpl; auto.
  destruct (String.eqb k' key) eqn:E; simpl.
  - apply String.eqb_eq in E. subst k'.
    destruct (String.eqb key k) eqn:E'; auto.
    apply String.eqb_eq in E'. congruence.
  - now rewrite IH.
Qed.

Lemma lookup_dict_set_other {X : Type} (d : list (string * X)) (key k : string)
      (x : X) :
  k <> key -> lookup k (dict_set d key x) = lookup k d.
Proof.
  intros Hk. rewrite lookup_dict_set.
  destruct (String.eqb key k) eqn:E; auto.
  apply String.eqb_eq in E. congruence.
Qed.

Lemma dict_set_same {X : Type} (d : list (string * X)) (key : string) (x : X) :
  lookup key d = Some x -> dict_set d key x = d.
Proof.
  induction d as [| [k y] t IH]; simpl; [discriminate |].
  destruct (String.eqb k key).
  - now intros [= ->].
  - intros H. now rewrite IH.
Qed.

(** A diff with neither D nor N leaves the target as it is. *)
Lemma patch_no_edit (target : value) (n : node) :
  has (key_D n) || has (key_N n) = false -> patch target n = Ok target.
Proof.
  rewrite patch_eq. destruct (key_D n), (key_N n); simpl; auto; discriminate.
Qed.

Lemma falsy_no_edit (n : node) :
  truthy n = false -> has (key_D n) || has (key_N n) = false.
Proof.
  unfold truthy. destruct (key_A n), (key_D n), (key_I n), (key_N n); auto.
Qed.

Section AppliedTurns.
Variable self : Differ.
Variable f : value -> value -> node.
Variables a b : list value.
Hypothesis Hshape : forall x y,
    key_A (f x y) = None /\ key_R (f x y) = None /\ key_I (f x y) = None.

Lemma tag_index_at (w : walk) (x : node) (pre : list value) (ip : Z) :
  key_I x = None ->
  (force_index w = false -> ip = Z.of_nat (List.length pre)) ->
  match key_I (tag w x) with
  | Some idx => (idx + (Z.of_nat (List.length pre) - Z.of_nat (cur_i w)))%Z
  | None => ip
  end = Z.of_nat (List.length pre).
Proof.
  intros Hx Hip. unfold tag. destruct (force_index w); simpl.
  - lia.
  - rewrite Hx. auto.
Qed.

Lemma applied_to_omit (w w' : walk) (pre : list value) (di : nat) :
  applied_to a pre w -> ret_D w' = ret_D w -> force_index w' = true ->
  cur_i w' = cur_i w + di -> cur_i w' <= List.length a ->
  applied_to a (pre ++ firstn di (skipn (cur_i w) a)) w'.
Proof.
  intros (ip & Hp & Hip) Hr Hf Hi Hle. exists ip.
  rewrite Hr, Hf, Hi. split; [| discriminate]. rewrite Hp.
  replace (pre ++ skipn (cur_i w) a)
    with ((pre ++ firstn di (skipn (cur_i w) a)) ++ skipn (cur_i w + di) a).
  - do 2 f_equal. rewrite length_app, length_firstn, length_skipn. lia.
  - rewrite <- app_assoc. f_equal.
    replace (cur_i w + di) with (di + cur_i w) by lia.
    rewrite <- skipn_skipn. apply firstn_skipn.
Qed.

Lemma applied_to_changed (w : walk) (pre : list value) (x' : value) :
  applied_to a pre w -> cur_i w < List.length a ->
  patch (nth (cur_i w) a VNone)
        (f (nth (cur_i w) a VNone) (nth (cur_j w) b VNone)) = Ok x' ->
  applied_to a (pre ++ [x']) (changed_turn f a b w).
Proof.
  intros Happ Hi Hx'.
  destruct (changed_turn_cursors f a b w) as [Ci Cj].
  destruct (changed_turn_ret f a b w) as [Cr Cf].
  set (x := nth (cur_i w) a VNone) in *.
  set (y := nth (cur_j w) b VNone) in *.
  destruct (Hshape x y) as (SA & SR & SI).
  destruct (truthy (f x y)) eqn:Et.
  - destruct Happ as (ip & Hp & Hip).
    destruct (tag_keys w (f x y)) as (TA & TD & TN & TR & _).
    unfold applied_to. rewrite Ci, Cr, Cf.
    rewrite (skipn_nth_cons a (cur_i w) VNone Hi) in Hp. fold x in Hp.
    replace (S (cur_i w)) with (cur_i w + 1) in Hp by lia.
    exists (Z.of_nat (List.length pre) + 1)%Z.
    rewrite patch_each_app, Hp. cbn [bind patch_each].
    destruct (has (key_D (f x y)) || has (key_N (f x y))) eqn:Edn.
    + rewrite (step_recurse _ pre _ ip _ (tag_index_at w _ pre ip SI Hip) x x').
      * cbn [bind]. rewrite <- app_assoc, length_app. cbn [app List.length].
        split; [do 2 f_equal; lia | intros _; lia].
      * now rewrite TD, TN.
      * now rewrite patch_tag.
    + rewrite (patch_no_edit x _ Edn) in Hx'. injection Hx' as <-.
      rewrite (step_pass _ pre ip _ (tag_index_at w _ pre ip SI Hip)).
      * cbn [bind]. rewrite <- app_assoc, length_app. cbn [app List.length].
        split; [do 2 f_equal; lia | intros _; lia].
      * now rewrite TD, TN.
      * now rewrite TA.
      * now rewrite TR.
  - rewrite (patch_no_edit x _ (falsy_no_edit _ Et)) in Hx'.
    injection Hx' as <-.
    replace [x] with (firstn 1 (skipn (cur_i w) a))
      by (now rewrite (skipn_nth_cons a (cur_i w) VNone Hi)).
    apply (applied_to_omit w); auto; lia.
Qed.

Lemma applied_to_removed (w : walk) (pre : list value) :
  applied_to a pre w -> cur_i w < List.length a ->
  applied_to a (if op_r self then pre else pre ++ [nth (cur_i w) a VNone])
             (removed_turn self a w).
Proof.
  intros Happ Hi.
  destruct (removed_turn_cursors self a w) as [Ci Cj].
  destruct (removed_turn_ret self a w) as [Cr Cf].
  destruct (op_r self) eqn:Er.
  - destruct Happ as (ip & Hp & Hip).
    set (c := set_R empty_node
                (if op_trim_r self then VNone else nth (cur_i w) a VNone)) in *.
    destruct (tag_keys w c) as (TA & TD & TN & TR & _).
    unfold applied_to. rewrite Ci, Cr, Cf.
    rewrite (skipn_nth_cons a (cur_i w) VNone Hi) in Hp.
    replace (S (cur_i w)) with (cur_i w + 1) in Hp by lia.
    exists (Z.of_nat (List.length pre)).
    rewrite patch_each_app, Hp. cbn [bind patch_each].
    erewrite (step_delete _ pre _ ip _ (tag_index_at w c pre ip eq_refl Hip)).
    + cbn [bind]. split; [do 2 f_equal; lia | auto].
    + now rewrite TD, TN.
    + now rewrite TA.
    + rewrite TR. reflexivity.
  - replace [nth (cur_i w) a VNone] with (firstn 1 (skipn (cur_i w) a))
      by (now rewrite (skipn_nth_cons a (cur_i w) VNone Hi)).
    apply (applied_to_omit w); auto; lia.
Qed.

Lemma applied_to_added (w : walk) (pre : list value) :
  applied_to a pre w -> cur_i w <= List.length a ->
  applied_to a (if op_a self then pre ++ [nth (cur_j w) b VNone] else pre)
             (added_turn self b w).
Proof.
  intros Happ Hi.
  destruct (added_turn_cursors self b w) as [Ci Cj].
  destruct (added_turn_ret self b w) as [Cr Cf].
  destruct (op_a self) eqn:Ea.
  - destruct Happ as (ip & Hp & Hip).
    set (y := nth (cur_j w) b VNone) in *.
    set (c := set_A empty_node y) in *.
    destruct (tag_keys w c) as (TA & TD & TN & TR & _).
    unfold applied_to. rewrite Ci, Cr, Cf.
    exists (Z.of_nat (List.length pre) + 1)%Z.
    rewrite patch_each_app, Hp. cbn [bind patch_each].
    rewrite (step_insert _ pre _ ip _ (tag_index_at w c pre ip eq_refl Hip) y).
    + cbn [bind]. rewrite <- app_assoc, length_app. cbn [app List.length].
      split; [do 2 f_equal; lia | intros _; lia].
    + now rewrite TD, TN.
    + rewrite TA. reflexivity.
  - rewrite <- (app_nil_r pre).
    change (@nil value) with (firstn 0 (skipn (cur_i w) a)).
    apply (applied_to_omit w); auto; lia.
Qed.

(** What [patch] returns for the diff of two lists. *)
Lemma applied_to_result (pre : list value) :
  applied_to a pre (walk_blocks self f a b (lcs_blocks a b)) ->
  patch (VList a) (diff_lists_with self f a b)
  = Ok (VList (pre ++ skipn (cur_i (walk_blocks self f a b (lcs_blocks a b)))
                            a)).
Proof.
  intros (ip & Hp & _). unfold diff_lists_with.
  destruct (ret_D _) as [| c cs] eqn:E.
  - rewrite patch_eq. simpl in *. now injection Hp as <- _ _.
  - rewrite patch_eq. cbn [key_D set_D]. rewrite Hp. reflexivity.
Qed.
End AppliedTurns.

Section Applies.
Variable self : Differ.

Section Lists.
Variables a b : list value.
Hypothesis Hrec : forall i j,
    i < List.length a -> j < List.length b ->
    exists x', patch (nth i a VNone) (diff self (nth i a VNone) (nth j b VNone))
               = Ok x'.

Lemma diff_lists_applies :
  exists a', patch (VList a) (diff_lists self a b) = Ok a'.
Proof.
  assert (applied a (walk_blocks self (diff self) a b (lcs_blocks a b))) as H.
  { destruct (lcs_blocks_spec a b) as [l [-> Hl]].
    apply (fold_walk_inv self (diff self) a b (applied a)).
    - intros w [pre Hw] Hi Hj.
      destruct (Hrec (cur_i w) (cur_j w) Hi Hj) as [x' Hx'].
      exists (pre ++ [x']).
      apply (applied_to_changed (diff self)); auto. apply diff_shape.
    - intros w [pre Hw] Hi _. eexists. apply applied_to_removed; eassumption.
    - intros w [pre Hw] Hi _. eexists. apply applied_to_added; eassumption.
    - apply Forall_app. split; auto. constructor; [| constructor].
      unfold within. simpl. lia.
    - unfold inside. simpl. lia.
    - exists [], 0%Z. simpl. auto. }
  destruct H as [pre Hpre]. eexists.
  apply (applied_to_result self (diff self) a b pre Hpre).
Qed.
End Lists.

Section Dicts.
Variable f : value -> value -> node.
Variables a b : list (string * value).
Hypothesis Hshape : forall x y, key_A (f x y) = None /\ key_R (f x y) = None.
Hypothesis Hrec : forall k av bv,
    lookup k a = Some av -> exists x', patch av (f av bv) = Ok x'.

Lemma applied_keys_emit (done : list string) (retD : list (string * node))
      (t t' : list (string * value)) (key : string) (c : node) :
  ~ In key done ->
  patch_dict_step (fun x => patch x c) key c (VDict t) = Ok (VDict t') ->
  (forall k, k <> key -> lookup k t' = lookup k t) ->
  applied_keys_to a done retD t ->
  applied_keys_to a (done ++ [key]) (dict_set retD key c) t'.
Proof.
  intros Hnew Hs Hother (Hp & Hrest & Hkeys).
  unfold applied_keys_to.
  rewrite keys_dict_set_new by (intros H; apply Hnew, Hkeys, H).
  rewrite patch_items_app, Hp. cbn [bind patch_items].
  rewrite Hs. cbn [bind]. repeat split; auto.
  - intros k Hk. rewrite Hother, Hrest; auto.
    + intros H. apply Hk, in_or_app. auto.
    + intros ->. apply Hk, in_or_app. simpl. auto.
  - intros k. unfold keys. rewrite map_app, in_app_iff. simpl.
    intros [H | [<- | []]]; apply in_or_app; simpl; auto.
Qed.

Lemma applied_keys_omit (done : list string) (retD : list (string * node))
      (t : list (string * value)) (key : string) :
  applied_keys_to a done retD t -> applied_keys_to a (done ++ [key]) retD t.
Proof.
  intros (Hp & Hrest & Hkeys). repeat split; auto.
  - intros k Hk. apply Hrest. intros H. apply Hk, in_or_app. auto.
  - intros k Hk. apply in_or_app. auto.
Qed.

Lemma applied_keys_step (done : list string) (retD : list (string * node))
      (t : list (string * value)) (key : string) :
  ~ In key done ->
  applied_keys_to a done retD t ->
  applied_keys_to a (done ++ [key]) (diff_dicts_step self f a b retD key)
                  (dict_effect self f a b t key).
Proof.
  intros Hnew Hinv. unfold diff_dicts_step, dict_effect.
  assert (lookup key t = lookup key a) as Ht by (now apply Hinv).
  destruct (lookup key a) as [av |] eqn:Ea;
    destruct (lookup key b) as [bv |] eqn:Eb.
  - destruct (py_eq av bv).
    + destruct (op_u self); [| now apply applied_keys_omit].
      apply (applied_keys_emit done retD t); auto.
    + destruct (Hrec key av bv Ea) as (x' & Hx'). rewrite Hx'.
      destruct (Hshape av bv) as (SA & SR).
      destruct (has (key_D (f av bv)) || has (key_N (f av bv))) eqn:Edn.
      * assert (truthy (f av bv) = true) as ->.
        { destruct (truthy (f av bv)) eqn:Et; auto.
          apply falsy_no_edit in Et. congruence. }
        apply (applied_keys_emit done retD t); auto.
        -- unfold patch_dict_step, patch_key. now rewrite Edn, Ht, Hx'.
        -- intros k Hk. now apply lookup_dict_set_other.
      * rewrite (patch_no_edit av _ Edn) in Hx'. injection Hx' as <-.
        rewrite (dict_set_same t key av Ht).
        destruct (truthy (f av bv)); [| now apply applied_keys_omit].
        apply (applied_keys_emit done retD t); auto.
        now rewrite step_untouched by assumption.
  - destruct (op_r self); [| now apply applied_keys_omit].
    apply (applied_keys_emit done retD t); auto.
    + unfold patch_dict_step, del_key. simpl. now rewrite Ht.
    + intros k Hk. now apply lookup_dict_del_other.
  - destruct (op_a self); [| now apply applied_keys_omit].
    apply (applied_keys_emit done retD t); auto.
    intros k Hk. now apply lookup_dict_set_other.
  - now apply applied_keys_omit.
Qed.

Lemma applied_keys_fold (ks done : list string) (retD : list (string * node))
      (t : list (string * value)) :
  NoDup ks -> (forall k, In k ks -> ~ In k done) ->
  applied_keys_to a done retD t ->
  applied_keys_to a (done ++ ks)
                  (fold_left (diff_dicts_step self f a b) ks retD)
                  (fold_left (dict_effect self f a b) ks t).
Proof.
  revert done retD t.
  induction ks as [| k ks IH]; intros done retD t Hnd Hnew Hinv.
  - simpl. now rewrite app_nil_r.
  - inversion Hnd as [| ? ? Hk Hks]; subst. simpl.
    replace (done ++ k :: ks) with ((done ++ [k]) ++ ks)
      by (now rewrite <- app_assoc).
    apply IH; auto.
    + intros k' Hk' Hin. apply in_app_or in Hin as [Hin | [<- | []]].
      * apply (Hnew k'); simpl; auto.
      * contradiction.
    + apply applied_keys_step; auto. apply Hnew. simpl. auto.
Qed.

(** What [patch] returns for the diff of two dicts. *)
Lemma diff_dicts_result :
  patch (VDict a) (diff_dicts_with self f a b)
  = Ok (VDict (fold_left (dict_effect self f a b) (union_keys a b) a)).
Proof.
  destruct (applied_keys_fold (union_keys a b) [] [] a) as (Hp & _).
  - apply NoDup_nodup.
  - auto.
  - repeat split; auto.
  - unfold diff_dicts_with.
    destruct (fold_left (diff_dicts_step self f a b) _ _) as [| e es] eqn:E.
    + rewrite patch_eq. simpl in *. exact Hp.
    + rewrite patch_eq. exact Hp.
Qed.
End Dicts.

Lemma default_diff_applies (a b : value) :
  exists a', patch a (get_default_diff self a b) = Ok a'.
Proof.
  rewrite patch_eq. unfold get_default_diff.
  destruct (op_n self), (op_o self); simpl; eauto.
Qed.

Lemma diff_top_shape (x y : value) :
  key_A (diff self x y) = None /\ key_R (diff self x y) = None.
Proof. destruct (diff_shape self x y) as (H1 & H2 & _). auto. Qed.

Lemma diff_applies (a b : value) : exists a', patch a (diff self a b) = Ok a'.
Proof.
  revert b.
  induction a as [| x | z | s | la IH | da IH] using value_rect'; intros b;
    rewrite diff_eq;
    (destruct (py_eq _ b);
     [destruct (op_u self); rewrite patch_eq; simpl; eauto |]);
    try solve [apply default_diff_applies].
  - destruct b as [| | | | lb | db]; try solve [apply default_diff_applies].
    apply diff_lists_applies. intros i j Hi Hj.
    rewrite Forall_forall in IH. apply IH. now apply nth_In.
  - destruct b as [| | | | lb | db]; try solve [apply default_diff_applies].
    eexists. apply diff_dicts_result.
    + apply diff_top_shape.
    + intros k av bv Ea. rewrite Forall_forall in IH.
      apply lookup_Some_In in Ea. apply (IH (k, av) Ea).
Qed.
End Applies.

(** ** The options [patch] does not feel: O, U and trimR *)

Section TwoWalks.
Variables self1 self2 : Differ.
Variables f1 f2 : value -> value -> node.
Variables a b : list value.
Variable R : walk -> walk -> Prop.
Hypothesis Hchanged : forall w1 w2,
    R w1 w2 -> cur_i w1 = cur_i w2 -> cur_j w1 = cur_j w2 ->
    cur_i w1 < List.length a -> cur_j w1 < List.length b ->
    R (changed_turn f1 a b w1) (changed_turn f2 a b w2).
Hypothesis Hremoved : forall w1 w2,
    R w1 w2 -> cur_i w1 = cur_i w2 -> cur_j w1 = cur_j w2 ->
    cur_i w1 < List.length a -> cur_j w1 <= List.length b ->
    R (removed_turn self1 a w1) (removed_turn self2 a w2).
Hypothesis Hadded : forall w1 w2,
    R w1 w2 -> cur_i w1 = cur_i w2 -> cur_j w1 = cur_j w2 ->
    cur_i w1 <= List.length a -> cur_j w1 < List.length b ->
    R (added_turn self1 b w1) (added_turn self2 b w2).

Lemma while_changed_rel (fuel ai bj : nat) (w1 w2 : walk) :
  ai <= List.length a -> bj <= List.length b ->
  together R w1 w2 ->
  together R (while_changed f1 fuel a b ai bj w1)
           (while_changed f2 fuel a b ai bj w2).
Proof.
  intros Ha Hb. revert w1 w2.
  induction fuel as [| fuel IH]; intros w1 w2 (Hr & Hi & Hj); [easy |].
  rewrite !while_changed_step, <- Hi, <- Hj.
  destruct ((cur_i w1 <? ai) && (cur_j w1 <? bj)) eqn:E; [| easy].
  apply andb_true_iff in E as [E1 E2]. apply Nat.ltb_lt in E1, E2.
  apply IH.
  destruct (changed_turn_cursors f1 a b w1), (changed_turn_cursors f2 a b w2).
  repeat split; [apply Hchanged; auto; lia | lia | lia].
Qed.

Lemma while_removed_rel (fuel ai : nat) (w1 w2 : walk) :
  ai <= List.length a -> cur_j w1 <= List.length b ->
  together R w1 w2 ->
  together R (while_removed self1 fuel a ai w1)
           (while_removed self2 fuel a ai w2).
Proof.
  intros Ha. revert w1 w2.
  induction fuel as [| fuel IH]; intros w1 w2 Hb (Hr & Hi & Hj); [easy |].
  rewrite !while_removed_step, <- Hi.
  destruct (cur_i w1 <? ai) eqn:E; [| easy].
  apply Nat.ltb_lt in E.
  destruct (removed_turn_cursors self1 a w1), (removed_turn_cursors self2 a w2).
  apply IH; [lia |].
  repeat split; [apply Hremoved; auto; lia | lia | lia].
Qed.

Lemma while_added_rel (fuel bj : nat) (w1 w2 : walk) :
  bj <= List.length b -> cur_i w1 <= List.length a ->
  together R w1 w2 ->
  together R (while_added self1 fuel b bj w1) (while_added self2 fuel b bj w2).
Proof.
  intros Hb. revert w1 w2.
  induction fuel as [| fuel IH]; intros w1 w2 Ha (Hr & Hi & Hj); [easy |].
  rewrite !while_added_step, <- Hj.
  destruct (cur_j w1 <? bj) eqn:E; [| easy].
  apply Nat.ltb_lt in E.
  destruct (added_turn_cursors self1 b w1), (added_turn_cursors self2 b w2).
  apply IH; [lia |].
  repeat split; [apply Hadded; auto; lia | lia | lia].
Qed.

Lemma walk_block_rel (w1 w2 : walk) (blk : nat * nat * nat) :
  within a b blk -> inside a b w1 -> together R w1 w2 ->
  together R (walk_block self1 f1 a b w1 blk) (walk_block self2 f2 a b w2 blk).
Proof.
  destruct blk as [[ai bj] k]. intros [Ha Hb] [Hi Hj] Hw. simpl in Ha, Hb.
  unfold walk_block.
  assert (cur_i w2 = cur_i w1 /\ cur_j w2 = cur_j w1) as [Ei Ej]
      by (destruct Hw as (_ & -> & ->); auto).
  rewrite Ei.
  destruct (while_changed_cursors f1 a b (ai - cur_i w1) ai bj w1)
    as [n Hn]; [lia |].
  pose proof (while_changed_rel (ai - cur_i w1) ai bj w1 w2 Ha Hb Hw) as H1.
  set (u1 := while_changed f1 (ai - cur_i w1) a b ai bj w1) in *.
  set (u2 := while_changed f2 (ai - cur_i w1) a b ai bj w2) in *.
  assert (cur_i u2 = cur_i u1 /\ cur_j u2 = cur_j u1) as [Fi Fj]
      by (destruct H1 as (_ & -> & ->); auto).
  rewrite Fi.
  destruct (while_removed_cursors self1 a (ai - cur_i u1) ai u1)
    as [H3 H4]; [lia |].
  assert (cur_j u1 <= List.length b) as Hu1 by lia.
  pose proof (while_removed_rel (ai - cur_i u1) ai u1 u2 Ha Hu1 H1) as H2.
  set (v1 := while_removed self1 (ai - cur_i u1) a ai u1) in *.
  set (v2 := while_removed self2 (ai - cur_i u1) a ai u2) in *.
  assert (cur_j v2 = cur_j v1) as Gj by (destruct H2 as (_ & _ & ->); auto).
  rewrite Gj.
  apply while_added_rel; auto. lia.
Qed.

Lemma fold_walk_rel (blocks : list (nat * nat * nat)) (w1 w2 : walk) :
  Forall (within a b) blocks -> inside a b w1 -> together R w1 w2 ->
  together R (fold_left (walk_block self1 f1 a b) blocks w1)
           (fold_left (walk_block self2 f2 a b) blocks w2).
Proof.
  revert w1 w2.
  induction blocks as [| blk blocks IH]; intros w1 w2 Hb Hi Hw; simpl; auto.
  inversion Hb as [| ? ? Hblk Hrest]; subst.
  apply IH; auto.
  - destruct blk as [[ai bj] k].
    destruct (walk_block_cursors self1 f1 a b w1 ai bj k) as [H1 H2].
    destruct Hblk, Hi. unfold inside. simpl in *. lia.
  - now apply walk_block_rel.
Qed.

Lemma walk_blocks_rel :
  R {| ret_D := []; cur_i := 0; cur_j := 0; force_index := false |}
    {| ret_D := []; cur_i := 0; cur_j := 0; force_index := false |} ->
  R (walk_blocks self1 f1 a b (lcs_blocks a b))
    (walk_blocks self2 f2 a b (lcs_blocks a b))
  /\ cur_i (walk_blocks self1 f1 a b (lcs_blocks a b))
     = cur_i (walk_blocks self2 f2 a b (lcs_blocks a b)).
Proof.
  intros H0. unfold walk_blocks.
  destruct (lcs_blocks_spec a b) as [l [-> Hl]].
  destruct (fold_walk_rel (l ++ [(List.length a, List.length b, 0)])
              {| ret_D := []; cur_i := 0; cur_j := 0; force_index := false |}
              {| ret_D := []; cur_i := 0; cur_j := 0; force_index := false |})
    as (H1 & H2 & _); auto.
  - apply Forall_app. split; auto. constructor; [| constructor].
    unfold within. simpl. lia.
  - unfold inside. simpl. lia.
  - repeat split; auto.
Qed.
End TwoWalks.

Section Alike.
Variables self1 self2 : Differ.
Hypothesis Hop_a : op_a self1 = op_a self2.
Hypothesis Hop_n : op_n self1 = op_n self2.
Hypothesis Hop_r : op_r self1 = op_r self2.

Lemma diff_lists_alike (f1 f2 : value -> value -> node) (a b : list value) :
  (forall x y, key_A (f1 x y) = None /\ key_R (f1 x y) = None
               /\ key_I (f1 x y) = None) ->
  (forall x y, key_A (f2 x y) = None /\ key_R (f2 x y) = None
               /\ key_I (f2 x y) = None) ->
  (forall i j, i < List.length a -> j < List.length b ->
               exists x',
                 patch (nth i a VNone) (f1 (nth i a VNone) (nth j b VNone))
                 = Ok x'
                 /\ patch (nth i a VNone) (f2 (nth i a VNone) (nth j b VNone))
                    = Ok x') ->
  patch (VList a) (diff_lists_with self1 f1 a b)
  = patch (VList a) (diff_lists_with self2 f2 a b).
Proof.
  intros S1 S2 Hrec.
  destruct (walk_blocks_rel self1 self2 f1 f2 a b (applied_alike a))
    as [[pre [H1 H2]] Hi].
  - intros w1 w2 [pre [H1 H2]] Ei Ej Hi Hj.
    destruct (Hrec (cur_i w1) (cur_j w1) Hi Hj) as (x' & P1 & P2).
    exists (pre ++ [x']). split.
    + now apply applied_to_changed.
    + apply applied_to_changed; auto; rewrite <- ?Ei, <- ?Ej; auto.
  - intros w1 w2 [pre [H1 H2]] Ei Ej Hi Hj.
    exists (if op_r self1 then pre else pre ++ [nth (cur_i w1) a VNone]).
    split.
    + now apply applied_to_removed.
    + rewrite Hop_r, Ei. apply applied_to_removed; auto. now rewrite <- Ei.
  - intros w1 w2 [pre [H1 H2]] Ei Ej Hi Hj.
    exists (if op_a self1 then pre ++ [nth (cur_j w1) b VNone] else pre).
    split.
    + now apply applied_to_added.
    + rewrite Hop_a, Ej. apply applied_to_added; auto. now rewrite <- Ei.
  - exists []. split; exists 0%Z; simpl; auto.
  - rewrite (applied_to_result self1 f1 a b pre H1).
    rewrite (applied_to_result self2 f2 a b pre H2). now rewrite Hi.
Qed.

Lemma dict_effect_alike (f1 f2 : value -> value -> node)
      (a b : list (string * value)) :
  (forall k av bv, lookup k a = Some av ->
                   patch av (f1 av bv) = patch av (f2 av bv)) ->
  forall ks t, fold_left (dict_effect self1 f1 a b) ks t
               = fold_left (dict_effect self2 f2 a b) ks t.
Proof.
  intros Hrec. induction ks as [| k ks IH]; intros t; simpl; auto.
  rewrite IH. f_equal. unfold dict_effect. rewrite Hop_a, Hop_r.
  destruct (lookup k a) as [av |] eqn:Ea; auto.
  destruct (lookup k b) as [bv |]; auto.
  now rewrite (Hrec k av bv Ea).
Qed.

Lemma default_diff_alike (a b : value) :
  patch a (get_default_diff self1 a b) = patch a (get_default_diff self2 a b).
Proof.
  rewrite !patch_eq. unfold get_default_diff. rewrite Hop_n.
  destruct (op_n self2), (op_o self1), (op_o self2); reflexivity.
Qed.

Lemma diff_alike (a b : value) :
  patch a (diff self1 a b) = patch a (diff self2 a b).
Proof.
  revert b.
  induction a as [| x | z | s | la IH | da IH] using value_rect'; intros b;
    rewrite (diff_eq self1), (diff_eq self2);
    (destruct (py_eq _ b);
     [destruct (op_u self1), (op_u self2); rewrite !patch_eq; reflexivity |]);
    try solve [apply default_diff_alike].
  - destruct b as [| | | | lb | db]; try solve [apply default_diff_alike].
    apply diff_lists_alike; try apply diff_shape.
    intros i j Hi Hj.
    destruct (diff_applies self1 (nth i la VNone) (nth j lb VNone)) as [x' Hx'].
    exists x'. split; auto. rewrite <- Hx'. symmetry.
    rewrite Forall_forall in IH. apply IH. now apply nth_In.
  - destruct b as [| | | | lb | db]; try solve [apply default_diff_alike].
    unfold diff_dicts.
    rewrite !diff_dicts_result;
      try apply diff_top_shape;
      try (intros k av bv _; apply diff_applies).
    do 2 f_equal. apply dict_effect_alike.
    intros k av bv Ea. rewrite Forall_forall in IH.
    apply lookup_Some_In in Ea. apply (IH (k, av) Ea).
Qed.
End Alike.

(** ** What [trimR] changes, and what [patch] reads *)

Lemma trimmed_eq (n : node) :
  trimmed n =
  Node (key_A n)
       (match key_D n with
        | Some (PDict entries) => Some (PDict (on_entries trimmed entries))
        | Some (PList items) => Some (PList (map trimmed items))
        | Some (POther v) => Some (POther v)
        | None => None
        end)
       (key_I n) (key_N n) (key_O n)
       (match key_R n with
        | Some _ => Some VNone
        | None => None
        end)
       (key_U n).
Proof.
  destruct n as [fa fd fi fn fo fr fu]. simpl.
  destruct fd as [[entries | items | v] |]; auto.
  do 3 f_equal. induction entries as [| [k c] t IH]; simpl; auto.
  now rewrite IH.
Qed.

Lemma edits_eq (n : node) :
  edits n =
  Node (key_A n)
       (match key_D n with
        | Some (PDict entries) => Some (PDict (on_entries edits entries))
        | Some (PList items) => Some (PList (map edits items))
        | Some (POther v) => Some (POther v)
        | None => None
        end)
       (key_I n) (key_N n) None
       (match key_R n with
        | Some _ => Some VNone
        | None => None
        end)
       None.
Proof.
  destruct n as [fa fd fi fn fo fr fu]. simpl.
  destruct fd as [[entries | items | v] |]; auto.
  do 3 f_equal. induction entries as [| [k c] t IH]; simpl; auto.
  now rewrite IH.
Qed.

Lemma on_entries_dict_set {X Y : Type} (f : X -> Y) (d : list (string * X))
      (key : string) (x : X) :
  on_entries f (dict_set d key x) = dict_set (on_entries f d) key (f x).
Proof.
  induction d as [| [k y] t IH]; simpl; auto.
  destruct (String.eqb k key); simpl; auto. now rewrite IH.
Qed.

Lemma trimmed_truthy (n : node) : truthy (trimmed n) = truthy n.
Proof.
  rewrite trimmed_eq. destruct n as [fa fd fi fn fo fr fu].
  unfold truthy. simpl.
  destruct fd as [[entries | items | v] |], fr; reflexivity.
Qed.

Lemma trimmed_leaf (n : node) :
  key_D n = None -> key_R n = None -> trimmed n = n.
Proof.
  destruct n as [fa fd fi fn fo fr fu]. simpl. intros -> ->. reflexivity.
Qed.

Section Trim.
(** Two differs with the same options, but for [trimR]: on and off. *)
Variables on off : Differ.
Hypothesis Hon : op_trim_r on = true.
Hypothesis Hoff : op_trim_r off = false.
Hypothesis Hop_a : op_a on = op_a off.
Hypothesis Hop_n : op_n on = op_n off.
Hypothesis Hop_o : op_o on = op_o off.
Hypothesis Hop_r : op_r on = op_r off.
Hypothesis Hop_u : op_u on = op_u off.

Section Lists.
Variables f g : value -> value -> node.
Variables a b : list value.
Hypothesis Hfg : forall i y,
    f (nth i a VNone) y = trimmed (g (nth i a VNone) y).

Lemma trim_walk_emit (w : walk) (x : node) :
  emit (trim_walk w) (trimmed x) = trim_walk (emit w x).
Proof.
  unfold emit, trim_walk. simpl. rewrite map_app. simpl.
  destruct (force_index w); auto.
  do 3 f_equal. rewrite !trimmed_eq. reflexivity.
Qed.

Lemma trim_walk_omit (w : walk) : omit (trim_walk w) = trim_walk (omit w).
Proof. reflexivity. Qed.

Lemma trim_walk_advance (di dj : nat) (w : walk) :
  advance di dj (trim_walk w) = trim_walk (advance di dj w).
Proof. reflexivity. Qed.

Lemma while_changed_trim (fuel ai bj : nat) (w : walk) :
  while_changed f fuel a b ai bj (trim_walk w)
  = trim_walk (while_changed g fuel a b ai bj w).
Proof.
  revert w. induction fuel as [| fuel IH]; intros w; auto.
  cbn [while_changed]. change (cur_i (trim_walk w)) with (cur_i w).
  change (cur_j (trim_walk w)) with (cur_j w).
  destruct ((cur_i w <? ai) && (cur_j w <? bj)); auto.
  rewrite Hfg, trimmed_truthy.
  destruct (truthy _).
  - now rewrite trim_walk_emit, trim_walk_advance, IH.
  - now rewrite trim_walk_omit, trim_walk_advance, IH.
Qed.

Lemma while_removed_trim (fuel ai : nat) (w : walk) :
  while_removed on fuel a ai (trim_walk w)
  = trim_walk (while_removed off fuel a ai w).
Proof.
  revert w. induction fuel as [| fuel IH]; intros w; auto.
  cbn [while_removed]. change (cur_i (trim_walk w)) with (cur_i w).
  destruct (cur_i w <? ai); auto.
  rewrite Hop_r, Hon, Hoff. destruct (op_r off).
  - change (set_R empty_node VNone)
      with (trimmed (set_R empty_node (nth (cur_i w) a VNone))).
    now rewrite trim_walk_emit, trim_walk_advance, IH.
  - now rewrite trim_walk_omit, trim_walk_advance, IH.
Qed.

Lemma while_added_trim (fuel bj : nat) (w : walk) :
  while_added on fuel b bj (trim_walk w)
  = trim_walk (while_added off fuel b bj w).
Proof.
  revert w. induction fuel as [| fuel IH]; intros w; auto.
  cbn [while_added]. change (cur_j (trim_walk w)) with (cur_j w).
  destruct (cur_j w <? bj); auto.
  rewrite Hop_a. destruct (op_a off).
  - change (set_A empty_node (nth (cur_j w) b VNone))
      with (trimmed (set_A empty_node (nth (cur_j w) b VNone))) at 1.
    now rewrite trim_walk_emit, trim_walk_advance, IH.
  - now rewrite trim_walk_omit, trim_walk_advance, IH.
Qed.

Lemma walk_block_trim (w : walk) (blk : nat * nat * nat) :
  walk_block on f a b (trim_walk w) blk
  = trim_walk (walk_block off g a b w blk).
Proof.
  destruct blk as [[ai bj] k]. unfold walk_block.
  change (cur_i (trim_walk w)) with (cur_i w).
  rewrite while_changed_trim.
  change (cur_i (trim_walk ?w)) with (cur_i w).
  rewrite while_removed_trim.
  change (cur_j (trim_walk ?w)) with (cur_j w).
  now rewrite while_added_trim.
Qed.

Lemma diff_lists_trim :
  diff_lists_with on f a b = trimmed (diff_lists_with off g a b).
Proof.
  unfold diff_lists_with, walk_blocks.
  assert (forall l w,
             fold_left (walk_block on f a b) l (trim_walk w)
             = trim_walk (fold_left (walk_block off g a b) l w)) as E.
  { induction l as [| blk l IH]; intros w; simpl; auto.
    now rewrite walk_block_trim, IH. }
  change {| ret_D := []; cur_i := 0; cur_j := 0; force_index := false |}
    with (trim_walk {| ret_D := []; cur_i := 0; cur_j := 0;
                       force_index := false |}) at 1.
  rewrite E. cbn [ret_D trim_walk].
  destruct (ret_D _) as [| c cs];
    [reflexivity | rewrite (trimmed_eq (set_D _ _)); reflexivity].
Qed.
End Lists.

Section Dicts.
Variables f g : value -> value -> node.
Variables a b : list (string * value).
Hypothesis Hfg : forall k av y,
    lookup k a = Some av -> f av y = trimmed (g av y).

Lemma diff_dicts_step_trim (retD : list (string * node)) (key : string) :
  diff_dicts_step on f a b (on_entries trimmed retD) key
  = on_entries trimmed (diff_dicts_step off g a b retD key).
Proof.
  unfold diff_dicts_step. rewrite Hop_a, Hop_r, Hop_u, Hon, Hoff.
  destruct (lookup key a) as [av |] eqn:Ea;
    destruct (lookup key b) as [bv |] eqn:Eb; auto.
  - destruct (py_eq av bv).
    + destruct (op_u off); auto. now rewrite on_entries_dict_set.
    + rewrite (Hfg key av bv Ea), trimmed_truthy.
      destruct (truthy _); auto. now rewrite on_entries_dict_set.
  - destruct (op_r off); auto. now rewrite on_entries_dict_set.
  - destruct (op_a off); auto. now rewrite on_entries_dict_set.
Qed.

Lemma diff_dicts_trim :
  diff_dicts_with on f a b = trimmed (diff_dicts_with off g a b).
Proof.
  unfold diff_dicts_with.
  assert (forall ks acc,
             fold_left (diff_dicts_step on f a b) ks (on_entries trimmed acc)
             = on_entries trimmed
                 (fold_left (diff_dicts_step off g a b) ks acc)) as E.
  { induction ks as [| k ks IH]; intros acc; simpl; auto.
    now rewrite diff_dicts_step_trim, IH. }
  specialize (E (union_keys a b) []).
  change (on_entries trimmed []) with (@nil (string * node)) in E.
  rewrite E. clear E.
  destruct (fold_left (diff_dicts_step off g a b) _ _) as [| e es];
    [reflexivity | rewrite (trimmed_eq (set_D _ _)); reflexivity].
Qed.
End Dicts.

Lemma default_diff_trim (a b : value) :
  get_default_diff on a b = trimmed (get_default_diff off a b).
Proof.
  unfold get_default_diff. rewrite Hop_n, Hop_o.
  destruct (op_n off), (op_o off); reflexivity.
Qed.

Lemma diff_trim (a b : value) : diff on a b = trimmed (diff off a b).
Proof.
  revert b.
  induction a as [| x | z | s | la IH | da IH] using value_rect'; intros b;
    rewrite (diff_eq on), (diff_eq off), Hop_u;
    (destruct (py_eq _ b); [destruct (op_u off); reflexivity |]);
    try solve [apply default_diff_trim].
  - destruct b as [| | | | lb | db]; try solve [apply default_diff_trim].
    apply diff_lists_trim. intros i y.
    destruct (Nat.lt_ge_cases i (List.length la)) as [Hi | Hi].
    + rewrite Forall_forall in IH. apply IH. now apply nth_In.
    + rewrite nth_overflow by assumption.
      rewrite (diff_eq on), (diff_eq off), Hop_u.
      destruct (py_eq VNone y); [destruct (op_u off); reflexivity |].
      apply default_diff_trim.
  - destruct b as [| | | | lb | db]; try solve [apply default_diff_trim].
    apply diff_dicts_trim. intros k av y Ea.
    rewrite Forall_forall in IH. apply lookup_Some_In in Ea.
    apply (IH (k, av) Ea).
Qed.
End Trim.

(** [patch] reads the keys A, D, I and N of a diff and whether R is there:
    neither O, nor U, nor the value under R. *)
Lemma patch_dict_step_edits (rec rec' : value -> result value) (key : string)
      (c : node) (target : value) :
  (forall t, rec' t = rec t) ->
  patch_dict_step rec' key (edits c) target = patch_dict_step rec key c target.
Proof.
  intros Hrec. unfold patch_dict_step. rewrite edits_eq. simpl.
  destruct c as [fa fd fi fn fo fr fu]. simpl.
  replace (has match fd with
               | Some (PDict entries) => Some (PDict (on_entries edits entries))
               | Some (PList items) => Some (PList (map edits items))
               | Some (POther v) => Some (POther v)
               | None => None
               end) with (has fd)
    by (destruct fd as [[? | ? | ?] |]; reflexivity).
  destruct (has fd || has fn).
  - unfold patch_key. destruct target; auto.
    destruct (lookup key _); auto. now rewrite Hrec.
  - destruct fa; auto. destruct fr; auto.
Qed.

Lemma patch_list_step_edits (rec rec' : value -> result value) (c : node)
      (st : value * Z * Z) :
  (forall t, rec' t = rec t) ->
  patch_list_step rec' (edits c) st = patch_list_step rec c st.
Proof.
  intros Hrec. unfold patch_list_step. rewrite edits_eq. simpl.
  destruct c as [fa fd fi fn fo fr fu]. simpl.
  replace (has match fd with
               | Some (PDict entries) => Some (PDict (on_entries edits entries))
               | Some (PList items) => Some (PList (map edits items))
               | Some (POther v) => Some (POther v)
               | None => None
               end) with (has fd)
    by (destruct fd as [[? | ? | ?] |]; reflexivity).
  destruct st as [[target i] j].
  destruct (has fd || has fn).
  - unfold patch_index. destruct target as [| | | s | l | d]; auto.
    + destruct (str_index s _); auto. now rewrite Hrec.
    + destruct (norm_index (List.length l) _); auto. now rewrite Hrec.
  - destruct fa; auto. destruct fr; auto.
Qed.

Lemma patch_edits (n : node) (target : value) :
  patch target (edits n) = patch target n.
Proof.
  revert target.
  induction n as [fa entries fi fn fo fr fu IH | fa items fi fn fo fr fu IH
                 | fa v fi fn fo fr fu | fa fi fn fo fr fu] using node_rect';
    intros target; rewrite (patch_eq _ (edits _)), edits_eq, patch_eq; simpl;
    auto.
  - revert target. induction entries as [| [k c] t IHt]; intros target; auto.
    inversion IH as [| ? ? Hc Ht]; subst. simpl.
    rewrite (patch_dict_step_edits (fun x => patch x c)) by apply Hc.
    destruct (patch_dict_step _ k c target); simpl; auto.
  - f_equal. generalize (target, 0%Z, 0%Z) as st.
    induction items as [| c t IHt]; intros st; auto.
    inversion IH as [| ? ? Hc Ht]; subst. simpl.
    rewrite (patch_list_step_edits (fun x => patch x c)) by apply Hc.
    destruct (patch_list_step _ c st); simpl; auto.
Qed.

(** ** How a diff is built *)

Lemma all_nodes_eq (P : node -> bool) (n : node) :
  all_nodes P n =
  P n &&
  match key_D n with
  | Some (PDict entries) => forallb (fun e => all_nodes P (snd e)) entries
  | Some (PList items) => forallb (all_nodes P) items
  | _ => true
  end.
Proof.
  destruct n as [fa fd fi fn fo fr fu]. simpl.
  destruct fd as [[entries | items | v] |]; auto.
  f_equal. induction entries as [| [k c] t IH]; simpl; auto. now rewrite IH.
Qed.

Lemma well_shaped_eq (n : node) :
  well_shaped n =
  one_status n &&
  match key_D n with
  | Some (PDict entries) =>
      forallb (fun e => negb (has (key_I (snd e))) && well_shaped (snd e))
              entries
  | Some (PList items) => forallb well_shaped items
  | Some (POther _) => false
  | None => true
  end.
Proof.
  destruct n as [fa fd fi fn fo fr fu]. simpl.
  destruct fd as [[entries | items | v] |]; auto.
  f_equal. induction entries as [| [k c] t IH]; simpl; auto. now rewrite IH.
Qed.

Lemma all_nodes_set_I (P : node -> bool) (n : node) (i : Z) :
  P (set_I n i) = P n -> all_nodes P (set_I n i) = all_nodes P n.
Proof. intros H. rewrite !all_nodes_eq, H. reflexivity. Qed.

Lemma well_shaped_set_I (n : node) (i : Z) :
  well_shaped (set_I n i) = well_shaped n.
Proof. rewrite !well_shaped_eq. reflexivity. Qed.

Lemma truthy_empty (n : node) : truthy n = false -> n = empty_node.
Proof.
  destruct n as [[?|] [?|] [?|] [?|] [?|] [?|] [?|]]; try discriminate.
  reflexivity.
Qed.

(** Whatever holds of the diffs [Differ] writes down and is kept when
    they are put under a D key holds of every diff it returns. *)
Section DiffInd.
Variable self : Differ.
Variable Q : node -> Prop.
Hypothesis Q_empty : Q empty_node.
Hypothesis Q_U : forall v, op_u self = true -> Q (set_U empty_node v).
Hypothesis Q_N : forall a b, Q (get_default_diff self a b).
Hypothesis Q_R : forall v,
    op_r self = true ->
    Q (set_R empty_node (if op_trim_r self then VNone else v)).
Hypothesis Q_A : forall v, op_a self = true -> Q (set_A empty_node v).
Hypothesis Q_dict : forall es,
    es <> [] -> Forall (fun e => dict_child Q (snd e)) es ->
    Q (set_D empty_node (PDict es)).
Hypothesis Q_list : forall cs,
    cs <> [] -> Forall (list_child Q) cs -> Q (set_D empty_node (PList cs)).

Lemma list_child_tag (w : walk) (c : node) :
  dict_child Q c -> list_child Q (tag w c).
Proof.
  intros H. exists c. split; auto. unfold tag.
  destruct (force_index w); eauto.
Qed.

Lemma diff_dicts_built (f : value -> value -> node)
      (a b : list (string * value)) :
  (forall k av bv, lookup k a = Some av ->
                   Q (f av bv) /\ key_I (f av bv) = None) ->
  Q (diff_dicts_with self f a b).
Proof.
  intros Hrec. unfold diff_dicts_with.
  assert (forall ks acc,
             Forall (fun e => dict_child Q (snd e)) acc ->
             Forall (fun e => dict_child Q (snd e))
                    (fold_left (diff_dicts_step self f a b) ks acc)) as Hfold.
  { induction ks as [| k ks IH]; intros acc Hacc; simpl; auto.
    apply IH. unfold diff_dicts_step.
    destruct (lookup k a) as [av |] eqn:Ea; destruct (lookup k b) as [bv |];
      auto.
    - destruct (py_eq av bv).
      + destruct (op_u self) eqn:Eu; auto.
        apply (Forall_dict_set (dict_child Q)); auto.
        repeat split; auto.
      + destruct (truthy (f av bv)) eqn:Et; auto.
        apply (Forall_dict_set (dict_child Q)); auto.
        destruct (Hrec k av bv Ea). repeat split; auto.
    - destruct (op_r self) eqn:Er; auto.
      apply (Forall_dict_set (dict_child Q)); auto.
      repeat split; auto.
    - destruct (op_a self) eqn:Eo; auto.
      apply (Forall_dict_set (dict_child Q)); auto.
      repeat split; auto. }
  specialize (Hfold (union_keys a b) [] (Forall_nil _)).
  destruct (fold_left (diff_dicts_step self f a b) _ _) as [| e es] eqn:E; auto.
  apply Q_dict; [discriminate | auto].
Qed.

Lemma diff_lists_built (f : value -> value -> node) (a b : list value) :
  (forall i y, i < List.length a ->
               Q (f (nth i a VNone) y) /\ key_I (f (nth i a VNone) y) = None) ->
  Q (diff_lists_with self f a b).
Proof.
  intros Hrec. unfold diff_lists_with.
  assert (Forall (list_child Q)
                 (ret_D (walk_blocks self f a b (lcs_blocks a b)))) as H.
  { destruct (lcs_blocks_spec a b) as [l [-> Hl]].
    apply (fold_walk_inv self f a b
             (fun w => Forall (list_child Q) (ret_D w))).
    - intros w Hw Hi Hj.
      destruct (changed_turn_ret f a b w) as [-> _].
      destruct (truthy _) eqn:Et; auto.
      apply Forall_snoc; auto. apply list_child_tag.
      destruct (Hrec (cur_i w) (nth (cur_j w) b VNone) Hi).
      repeat split; auto.
    - intros w Hw Hi Hj.
      destruct (removed_turn_ret self a w) as [-> _].
      destruct (op_r self) eqn:Er; auto.
      apply Forall_snoc; auto. apply list_child_tag. repeat split; auto.
    - intros w Hw Hi Hj.
      destruct (added_turn_ret self b w) as [-> _].
      destruct (op_a self) eqn:Eo; auto.
      apply Forall_snoc; auto. apply list_child_tag. repeat split; auto.
    - apply Forall_app. split; auto. constructor; [| constructor].
      unfold within. simpl. lia.
    - unfold inside. simpl. lia.
    - constructor. }
  destruct (ret_D _) as [| c cs] eqn:E; auto.
  apply Q_list; [discriminate | auto].
Qed.

Lemma diff_built (a b : value) : Q (diff self a b).
Proof.
  revert b.
  induction a as [| x | z | s | la IH | da IH] using value_rect'; intros b;
    rewrite diff_eq;
    (destruct (py_eq _ b); [destruct (op_u self) eqn:Eu; auto |]);
    auto.
  - destruct b as [| | | | lb | db]; auto.
    apply diff_lists_built. intros i y Hi. split; [| apply diff_shape].
    rewrite Forall_forall in IH. apply IH. now apply nth_In.
  - destruct b as [| | | | lb | db]; auto.
    apply diff_dicts_built. intros k av bv Ea. split; [| apply diff_shape].
    rewrite Forall_forall in IH. apply lookup_Some_In in Ea.
    apply (IH (k, av) Ea).
Qed.
End DiffInd.

Lemma enabled_all (self : Differ) (a b : value) :
  all_nodes (enabled self) (diff self a b) = true.
Proof.
  apply (diff_built self (fun n => all_nodes (enabled self) n = true)).
  - reflexivity.
  - intros v H. rewrite all_nodes_eq. unfold enabled. simpl. now rewrite H.
  - intros x y. rewrite all_nodes_eq. unfold get_default_diff, enabled.
    destruct (op_n self), (op_o self); reflexivity.
  - intros v H. rewrite all_nodes_eq. unfold enabled. simpl. now rewrite H.
  - intros v H. rewrite all_nodes_eq. unfold enabled. simpl. now rewrite H.
  - intros es _ H. rewrite all_nodes_eq. simpl. apply forallb_forall.
    rewrite Forall_forall in H. intros e He. now apply H.
  - intros cs _ H. rewrite all_nodes_eq. simpl. apply forallb_forall.
    rewrite Forall_forall in H. intros c Hc.
    destruct (H c Hc) as (c0 & (H0 & _) & [-> | [i ->]]); auto.
    now rewrite all_nodes_set_I.
Qed.

Lemma shaped_all (self : Differ) (a b : value) :
  truthy (diff self a b) = true -> well_shaped (diff self a b) = true.
Proof.
  apply (diff_built self (fun n => truthy n = true -> well_shaped n = true)).
  - discriminate.
  - reflexivity.
  - intros x y. unfold get_default_diff.
    destruct (op_n self), (op_o self); auto.
  - reflexivity.
  - reflexivity.
  - intros es _ H _. rewrite well_shaped_eq. simpl. apply forallb_forall.
    rewrite Forall_forall in H. intros e He.
    destruct (H e He) as (H1 & H2 & H3). rewrite H3. auto.
  - intros cs _ H _. rewrite well_shaped_eq. simpl. apply forallb_forall.
    rewrite Forall_forall in H. intros c Hc.
    destruct (H c Hc) as (c0 & (H1 & H2 & H3) & [-> | [i ->]]); auto.
    rewrite well_shaped_set_I. auto.
Qed.

(** ** The subdiff under a key *)

Section DictChild.
Variable self : Differ.
Variable f : value -> value -> node.
Variables a b : list (string * value).

Lemma lookup_step_other (acc : list (string * node)) (key k : string) :
  k <> key ->
  lookup k (diff_dicts_step self f a b acc key) = lookup k acc.
Proof.
  intros Hk. unfold diff_dicts_step.
  repeat match goal with
         | |- context [match ?x with _ => _ end] => destruct x
         end; auto using lookup_dict_set_other.
Qed.

Lemma lookup_step_same (acc : list (string * node)) (k : string) :
  lookup k acc = None ->
  lookup k (diff_dicts_step self f a b acc k)
  = lookup k (diff_dicts_step self f a b [] k).
Proof.
  intros Hk. unfold diff_dicts_step.
  repeat match goal with
         | |- context [match ?x with _ => _ end] => destruct x
         end; auto; rewrite !lookup_dict_set, String.eqb_refl; auto.
Qed.

Lemma lookup_fold_step (ks : list string) (acc : list (string * node))
      (k : string) :
  NoDup ks -> lookup k acc = None ->
  lookup k (fold_left (diff_dicts_step self f a b) ks acc)
  = if in_dec string_dec k ks
    then lookup k (diff_dicts_step self f a b [] k)
    else None.
Proof.
  revert acc. induction ks as [| key ks IH]; intros acc Hnd Hacc; simpl; auto.
  inversion Hnd as [| ? ? Hkey Hks]; subst.
  destruct (string_dec key k) as [-> | Hne].
  - assert (forall acc',
               lookup k (fold_left (diff_dicts_step self f a b) ks acc')
               = lookup k acc') as Hkeep.
    { clear IH Hnd Hks Hacc acc.
      induction ks as [| k' ks IH]; intros acc'; auto.
      simpl. rewrite IH.
      - apply lookup_step_other. intros ->. apply Hkey. simpl. auto.
      - intros H. apply Hkey. simpl. auto. }
    rewrite Hkeep. now apply lookup_step_same.
  - rewrite IH; auto.
    + destruct (in_dec string_dec k ks); reflexivity.
    + rewrite lookup_step_other; auto.
Qed.

Lemma D_lookup_dicts (k : string) :
  D_lookup (diff_dicts_with self f a b) k
  = match lookup k a, lookup k b with
    | Some av, Some bv =>
        if py_eq av bv
        then if op_u self then Some (diff_U av) else None
        else if truthy (f av bv) then Some (f av bv) else None
    | Some av, None =>
        if op_r self
        then Some (diff_R (if op_trim_r self then VNone else av))
        else None
    | None, Some bv => if op_a self then Some (diff_A bv) else None
    | None, None => None
    end.
Proof.
  unfold diff_dicts_with.
  pose proof (lookup_fold_step (union_keys a b) [] k
                (NoDup_nodup _ _) eq_refl) as H.
  set (retD := fold_left (diff_dicts_step self f a b) (union_keys a b) [])
    in *.
  assert (D_lookup match retD with
                   | [] => empty_node
                   | _ :: _ => set_D empty_node (PDict retD)
                   end k
          = lookup k retD) as -> by (destruct retD; reflexivity).
  rewrite H. unfold union_keys.
  destruct (in_dec string_dec k (nodup string_dec (keys a ++ keys b)))
    as [Hin | Hout].
  - unfold diff_dicts_step.
    repeat match goal with
           | |- context [match ?x with _ => _ end] => destruct x
           end; simpl; rewrite ?String.eqb_refl; auto.
  - rewrite nodup_In, in_app_iff, !lookup_In_keys in Hout.
    destruct (lookup k a) as [av |]; [exfalso; eauto |].
    destruct (lookup k b) as [bv |]; [exfalso; eauto |]. reflexivity.
Qed.
End DictChild.

(** ** An operand that is empty *)

Section AgainstEmpty.
Variable self : Differ.
Variable f : value -> value -> node.

Lemma diff_lists_all_removed (a : list value) :
  ret_D (walk_blocks self f a [] (lcs_blocks a []))
  = if op_r self
    then map (fun x => diff_R (if op_trim_r self then VNone else x)) a
    else [].
Proof.
  set (g := fun x => diff_R (if op_trim_r self then VNone else x)).
  set (Inv := fun w : walk =>
                ret_D w = (if op_r self then map g (firstn (cur_i w) a)
                           else [])
                /\ (op_r self = true -> force_index w = false)).
  assert (Inv (walk_blocks self f a [] (lcs_blocks a []))) as [H _].
  { destruct (lcs_blocks_spec a []) as [l [-> Hl]].
    apply (fold_walk_inv self f a [] Inv).
    - intros w _ _ Hj. simpl in Hj. lia.
    - intros w [Hw Hf] Hi _. unfold Inv.
      destruct (removed_turn_cursors self a w) as [-> _].
      destruct (removed_turn_ret self a w) as [-> ->].
      destruct (op_r self); [| split; [assumption | discriminate]].
      rewrite Hw. unfold tag. rewrite Hf by reflexivity. split; auto.
      rewrite Nat.add_1_r, (firstn_succ a (cur_i w) VNone Hi), map_app.
      reflexivity.
    - intros w _ _ Hj. simpl in Hj. lia.
    - apply Forall_app. split; auto. constructor; [| constructor].
      unfold within. simpl. lia.
    - unfold inside. simpl. lia.
    - split; [now destruct (op_r self) | reflexivity]. }
  rewrite H. destruct (walk_blocks_cursors self f a []) as [-> _].
  now rewrite firstn_all.
Qed.

Lemma diff_lists_all_added (b : list value) :
  ret_D (walk_blocks self f [] b (lcs_blocks [] b))
  = if op_a self then map diff_A b else [].
Proof.
  set (Inv := fun w : walk =>
                ret_D w = (if op_a self then map diff_A (firstn (cur_j w) b)
                           else [])
                /\ (op_a self = true -> force_index w = false)).
  assert (Inv (walk_blocks self f [] b (lcs_blocks [] b))) as [H _].
  { destruct (lcs_blocks_spec [] b) as [l [-> Hl]].
    apply (fold_walk_inv self f [] b Inv).
    - intros w _ Hi _. simpl in Hi. lia.
    - intros w _ Hi _. simpl in Hi. lia.
    - intros w [Hw Hf] _ Hj. unfold Inv.
      destruct (added_turn_cursors self b w) as [_ ->].
      destruct (added_turn_ret self b w) as [-> ->].
      destruct (op_a self); [| split; [assumption | discriminate]].
      rewrite Hw. unfold tag. rewrite Hf by reflexivity. split; auto.
      rewrite Nat.add_1_r, (firstn_succ b (cur_j w) VNone Hj), map_app.
      reflexivity.
    - apply Forall_app. split; auto. constructor; [| constructor].
      unfold within. simpl. lia.
    - unfold inside. simpl. lia.
    - split; [now destruct (op_a self) | reflexivity]. }
  rewrite H. destruct (walk_blocks_cursors self f [] b) as [_ ->].
  now rewrite firstn_all.
Qed.

Lemma fold_step_off (a b : list (string * value)) (ks : list string)
      (acc : list (string * node)) :
  (a = [] /\ op_a self = false) \/ (b = [] /\ op_r self = false) ->
  fold_left (diff_dicts_step self f a b) ks acc = acc.
Proof.
  intros H. revert acc. induction ks as [| k ks IH]; intros acc; simpl; auto.
  rewrite IH. unfold diff_dicts_step.
  destruct H as [[-> E] | [-> E]]; simpl; rewrite E.
  - now destruct (lookup k b).
  - now destruct (lookup k a).
Qed.

Lemma fold_step_removed (a done rest : list (string * value)) :
  op_r self = true -> NoDup (keys a) -> a = done ++ rest ->
  fold_left (diff_dicts_step self f a []) (keys rest)
            (on_entries (fun v => diff_R (if op_trim_r self then VNone else v))
                        done)
  = on_entries (fun v => diff_R (if op_trim_r self then VNone else v)) a.
Proof.
  intros Hr Hnd. revert done.
  induction rest as [| [k v] rest IH]; intros done E.
  - rewrite app_nil_r in E. now subst.
  - simpl. unfold diff_dicts_step at 2. simpl.
    assert (In (k, v) a) as Hin by (subst a; apply in_or_app; simpl; auto).
    rewrite (In_lookup_NoDup k v a Hnd Hin), Hr.
    change (set_R empty_node (if op_trim_r self then VNone else v))
      with ((fun v => diff_R (if op_trim_r self then VNone else v)) v).
    rewrite <- (on_entries_dict_set _ done).
    rewrite (IH (dict_set done k v)); auto.
    subst a. replace (dict_set done k v) with (done ++ [(k, v)]).
    + now rewrite <- app_assoc.
    + unfold keys in Hnd. rewrite map_app in Hnd. simpl in Hnd.
      apply NoDup_remove_2 in Hnd.
      clear - Hnd. induction done as [| [k' v'] t IHd]; simpl; auto.
      destruct (String.eqb k' k) eqn:Ek.
      * apply String.eqb_eq in Ek. subst. exfalso. apply Hnd. simpl. auto.
      * rewrite <- IHd; auto. intros H. apply Hnd. simpl. auto.
Qed.

Lemma fold_step_added (b done rest : list (string * value)) :
  op_a self = true -> NoDup (keys b) -> b = done ++ rest ->
  fold_left (diff_dicts_step self f [] b) (keys rest) (on_entries diff_A done)
  = on_entries diff_A b.
Proof.
  intros Ha Hnd. revert done.
  induction rest as [| [k v] rest IH]; intros done E.
  - rewrite app_nil_r in E. now subst.
  - simpl. unfold diff_dicts_step at 2. simpl.
    assert (In (k, v) b) as Hin by (subst b; apply in_or_app; simpl; auto).
    rewrite (In_lookup_NoDup k v b Hnd Hin), Ha.
    change (set_A empty_node v) with (diff_A v).
    rewrite <- (on_entries_dict_set _ done).
    rewrite (IH (dict_set done k v)); auto.
    subst b. replace (dict_set done k v) with (done ++ [(k, v)]).
    + now rewrite <- app_assoc.
    + unfold keys in Hnd. rewrite map_app in Hnd. simpl in Hnd.
      apply NoDup_remove_2 in Hnd.
      clear - Hnd. induction done as [| [k' v'] t IHd]; simpl; auto.
      destruct (String.eqb k' k) eqn:Ek.
      * apply String.eqb_eq in Ek. subst. exfalso. apply Hnd. simpl. auto.
      * rewrite <- IHd; auto. intros H. apply Hnd. simpl. auto.
Qed.
Lemma diff_dicts_all_removed (e : string * value) (a : list (string * value)) :
  wf (VDict (e :: a)) = true ->
  diff_dicts_with self f (e :: a) []
  = if op_r self
    then diff_D (PDict (on_entries
                          (fun v => diff_R
                                      (if op_trim_r self then VNone else v))
                          (e :: a)))
    else empty_node.
Proof.
  rewrite wf_dict, andb_true_iff, nodup_keys_NoDup. intros [Hnd _].
  unfold diff_dicts_with, union_keys. rewrite app_nil_r.
  rewrite (nodup_fixed_point string_dec Hnd).
  destruct (op_r self) eqn:Hr.
  - pose proof (fold_step_removed (e :: a) [] (e :: a) Hr Hnd eq_refl) as H.
    cbn [on_entries map] in H. rewrite H. reflexivity.
  - rewrite fold_step_off; auto.
Qed.

Lemma diff_dicts_all_added (e : string * value) (b : list (string * value)) :
  wf (VDict (e :: b)) = true ->
  diff_dicts_with self f [] (e :: b)
  = if op_a self then diff_D (PDict (on_entries diff_A (e :: b)))
    else empty_node.
Proof.
  rewrite wf_dict, andb_true_iff, nodup_keys_NoDup. intros [Hnd _].
  unfold diff_dicts_with, union_keys. cbn [keys map app].
  change (fst e :: map fst b) with (keys (e :: b)).
  rewrite (nodup_fixed_point string_dec Hnd).
  destruct (op_a self) eqn:Ha.
  - pose proof (fold_step_added (e :: b) [] (e :: b) Ha Hnd eq_refl) as H.
    cbn [on_entries map] in H. rewrite H. reflexivity.
  - rewrite fold_step_off; auto.
Qed.
End AgainstEmpty.

Lemma lookup_on_entries {X Y : Type} (g : X -> Y) (d : list (string * X))
      (k : string) :
  lookup k (on_entries g d) = option_map g (lookup k d).
Proof.
  induction d as [| [k' x] t IH]; simpl; auto.
  destruct (String.eqb k' k); auto.
Qed.

(** ** A target that is no container *)

Lemma patch_dict_step_plain (rec : value -> result value) (key : string)
      (c : node) (target t' : value) :
  container target = false ->
  patch_dict_step rec key c target = Ok t' -> t' = target.
Proof.
  intros Hc. unfold patch_dict_step, patch_key, set_key, del_key.
  destruct target; try discriminate;
    destruct (has (key_D c) || has (key_N c)); try discriminate;
    destruct (key_A c); try discriminate;
    destruct (key_R c); try discriminate; now intros [= <-].
Qed.

Lemma patch_list_step_plain (rec : value -> result value) (c : node)
      (target t' : value) (i j i' j' : Z) :
  container target = false ->
  patch_list_step rec c (target, i, j) = Ok (t', i', j') -> t' = target.
Proof.
  intros Hc. unfold patch_list_step, patch_index, insert_index, del_index.
  destruct target as [| x | z | s | l | d]; try discriminate;
    destruct (has (key_D c) || has (key_N c)); try discriminate;
    try (destruct (key_A c); try discriminate;
         destruct (key_R c); try discriminate; now intros [= <-]).
  destruct (str_index s _) as [ch |]; try discriminate.
  destruct (rec (VStr ch)); discriminate.
Qed.

Lemma patch_plain (target t' : value) (n : node) :
  container target = false -> patch target n = Ok t' ->
  t' = target \/ (key_D n = None /\ key_N n = Some t').
Proof.
  intros Hc. rewrite patch_eq.
  destruct (key_D n) as [[entries | items | v] |].
  - intros H. left. revert H.
    induction entries as [| [k c] rest IH]; simpl.
    + now intros [= <-].
    + destruct (patch_dict_step _ k c target) as [t1 | e] eqn:E;
        [| discriminate].
      apply patch_dict_step_plain in E; auto. subst t1. exact IH.
  - intros H. left.
    destruct (patch_each items (target, 0%Z, 0%Z)) as [[[t1 i1] j1] | e] eqn:E;
      [| discriminate].
    simpl in H. injection H as <-.
    revert E. generalize 0%Z at 1 as i. generalize 0%Z as j. revert i1 j1.
    induction items as [| c rest IH]; intros i1 j1 j i; cbn [patch_each].
    + now intros [= <- _ _].
    + destruct (patch_list_step (fun t => patch t c) c (target, i, j))
        as [[[t2 i2] j2] | e] eqn:E; [| discriminate].
      apply patch_list_step_plain in E; auto. subst t2. apply IH.
  - discriminate.
  - destruct (key_N n); intros [= <-]; auto.
Qed.


(** ** The indices in a diff of lists *)

Lemma children_diff_lists (self : Differ) (f : value -> value -> node)
      (a b : list value) :
  children (diff_lists_with self f a b)
  = ret_D (walk_blocks self f a b (lcs_blocks a b)).
Proof. unfold diff_lists_with. destruct (ret_D _); reflexivity. Qed.

Lemma I_values_snoc (cs : list node) (c : node) :
  I_values (cs ++ [c])
  = I_values cs ++ match key_I c with
                   | Some i => [i]
                   | None => []
                   end.
Proof. unfold I_values. rewrite flat_map_app. simpl. now rewrite app_nil_r. Qed.

Lemma I_values_tag (w : walk) (x : node) :
  key_I x = None ->
  match key_I (tag w x) with
  | Some i => [i]
  | None => []
  end = if force_index w then [Z.of_nat (cur_i w)] else [].
Proof.
  intros H. unfold tag. destruct (force_index w); simpl; [reflexivity |].
  now rewrite H.
Qed.

Lemma StronglySorted_snoc (l : list Z) (x : Z) :
  StronglySorted Z.lt l -> Forall (fun y => (y < x)%Z) l ->
  StronglySorted Z.lt (l ++ [x]).
Proof.
  induction 1 as [| y l Hl IH Hy]; intros HF; simpl.
  - constructor; constructor.
  - inversion HF; subst. constructor; auto.
    apply Forall_app. split; auto.
Qed.

Section Indices.
Variable self : Differ.
Variable f : value -> value -> node.
Variables a b : list value.
Hypothesis Hshape : forall x y, key_I (f x y) = None.

Lemma indices_grow_emit (w w' : walk) (x : node) :
  indices_grow self w -> key_I x = None ->
  ret_D w' = ret_D w ++ [tag w x] -> force_index w' = false ->
  cur_i w <= cur_i w' -> (op_a self = false -> cur_i w < cur_i w') ->
  indices_grow self w'.
Proof.
  intros (Hs & Hb & Hlt) Hx Hr Hf Hle Hop. unfold indices_grow.
  rewrite Hr, Hf, I_values_snoc, (I_values_tag w x Hx).
  destruct (force_index w) eqn:Ef.
  - specialize (Hlt (or_introl eq_refl)). split; [| split].
    + now apply StronglySorted_snoc.
    + apply Forall_app. split.
      * eapply Forall_impl; [| exact Hb]. simpl. intros i Hi. lia.
      * constructor; [lia | constructor].
    + intros [H | H]; [discriminate |]. specialize (Hop H).
      apply Forall_app. split.
      * eapply Forall_impl; [| exact Hb]. simpl. intros i Hi. lia.
      * constructor; [lia | constructor].
  - rewrite app_nil_r. split; [| split]; auto.
    + eapply Forall_impl; [| exact Hb]. simpl. intros i Hi. lia.
    + intros [H | H]; [discriminate |]. specialize (Hop H).
      eapply Forall_impl; [| exact Hb]. simpl. intros i Hi. lia.
Qed.

Lemma indices_grow_omit (w w' : walk) :
  indices_grow self w -> ret_D w' = ret_D w -> cur_i w <= cur_i w' ->
  cur_i w < cur_i w' \/ op_a self = false ->
  indices_grow self w'.
Proof.
  intros (Hs & Hb & Hlt) Hr Hle Hop. unfold indices_grow. rewrite Hr.
  split; [| split]; auto.
  - eapply Forall_impl; [| exact Hb]. simpl. intros i Hi. lia.
  - intros _. destruct Hop as [H | H].
    + eapply Forall_impl; [| exact Hb]. simpl. intros i Hi. lia.
    + eapply Forall_impl; [| exact (Hlt (or_intror H))].
      simpl. intros i Hi. lia.
Qed.

Lemma walk_indices_grow :
  indices_grow self (walk_blocks self f a b (lcs_blocks a b)).
Proof.
  destruct (lcs_blocks_spec a b) as [l [-> Hl]].
  apply (fold_walk_inv self f a b (indices_grow self)).
  - intros w Hw Hi Hj.
    destruct (changed_turn_cursors f a b w) as [Ci Cj].
    destruct (changed_turn_ret f a b w) as [Cr Cf].
    destruct (truthy _).
    + apply (indices_grow_emit w _
               (f (nth (cur_i w) a VNone) (nth (cur_j w) b VNone)));
        auto; lia.
    + apply (indices_grow_omit w); auto; lia.
  - intros w Hw Hi Hj.
    destruct (removed_turn_cursors self a w) as [Ci Cj].
    destruct (removed_turn_ret self a w) as [Cr Cf].
    destruct (op_r self).
    + apply (indices_grow_emit w _
               (set_R empty_node
                  (if op_trim_r self then VNone else nth (cur_i w) a VNone)));
        auto; lia.
    + apply (indices_grow_omit w); auto; lia.
  - intros w Hw Hi Hj.
    destruct (added_turn_cursors self b w) as [Ci Cj].
    destruct (added_turn_ret self b w) as [Cr Cf].
    destruct (op_a self) eqn:Ea.
    + apply (indices_grow_emit w _
               (set_A empty_node (nth (cur_j w) b VNone)));
        auto; try lia. intros H. congruence.
    + apply (indices_grow_omit w); auto; lia.
  - apply Forall_app. split; auto. constructor; [| constructor].
    unfold within. simpl. lia.
  - unfold inside. simpl. lia.
  - repeat split; simpl; constructor.
Qed.
End Indices.

(** ** With every operation on, each item has its subdiff *)

Section Accounted.
Variable self : Differ.
Variable f : value -> value -> node.
Variables a b : list value.
Hypothesis Hop_a : op_a self = true.
Hypothesis Hop_r : op_r self = true.
Hypothesis Hf : forall x y,
    truthy (f x y) = true /\ key_A (f x y) = None /\ key_R (f x y) = None.

Lemma accounted_emit (w w' : walk) (x : node) (di dj : nat) :
  accounted w -> ret_D w' = ret_D w ++ [tag w x] ->
  cur_i w' = cur_i w + di -> cur_j w' = cur_j w + dj ->
  (if has (key_A x) then 0 else 1) = di ->
  (if has (key_R x) then 0 else 1) = dj ->
  accounted w'.
Proof.
  intros [H1 H2] Hr Hi Hj HA HR. unfold accounted, not_added, not_removed.
  destruct (tag_keys w x) as (TA & _ & _ & TR & _).
  rewrite Hr, !filter_app, !length_app, Hi, Hj. simpl. rewrite TA, TR.
  unfold not_added, not_removed in H1, H2. rewrite H1, H2.
  destruct (has (key_A x)), (has (key_R x)); simpl; subst; auto.
Qed.

Lemma walk_accounted : accounted (walk_blocks self f a b (lcs_blocks a b)).
Proof.
  destruct (lcs_blocks_spec a b) as [l [-> Hl]].
  apply (fold_walk_inv self f a b accounted).
  - intros w Hw Hi Hj.
    destruct (changed_turn_cursors f a b w) as [Ci Cj].
    destruct (changed_turn_ret f a b w) as [Cr _].
    destruct (Hf (nth (cur_i w) a VNone) (nth (cur_j w) b VNone))
      as (Ht & HA & HR).
    rewrite Ht in Cr.
    apply (accounted_emit w _ _ 1 1 Hw Cr Ci Cj);
      [now rewrite HA | now rewrite HR].
  - intros w Hw Hi Hj.
    destruct (removed_turn_cursors self a w) as [Ci Cj].
    destruct (removed_turn_ret self a w) as [Cr _]. rewrite Hop_r in Cr.
    apply (accounted_emit w _ _ 1 0 Hw Cr Ci);
      [lia | reflexivity | reflexivity].
  - intros w Hw Hi Hj.
    destruct (added_turn_cursors self b w) as [Ci Cj].
    destruct (added_turn_ret self b w) as [Cr _]. rewrite Hop_a in Cr.
    apply (accounted_emit w _ _ 0 1 Hw Cr);
      [lia | lia | reflexivity | reflexivity].
  - apply Forall_app. split; auto. constructor; [| constructor].
    unfold within. simpl. lia.
  - unfold inside. simpl. lia.
  - split; reflexivity.
Qed.
End Accounted.

(** ** Diffs that do not fit their target *)

Lemma patch_dict_step_other (rec : value -> result value) (key : string)
      (c : node) (t : list (string * value)) (t1 : value) :
  patch_dict_step rec key c (VDict t) = Ok t1 ->
  exists t', t1 = VDict t' /\ forall k, k <> key -> lookup k t' = lookup k t.
Proof.
  unfold patch_dict_step, patch_key, set_key, del_key.
  destruct (has (key_D c) || has (key_N c)).
  - destruct (lookup key t) as [old |]; [| discriminate].
    destruct (rec old) as [new | e]; [| discriminate].
    simpl. intros [= <-]. eexists. split; [reflexivity |].
    intros k Hk. now apply lookup_dict_set_other.
  - destruct (key_A c) as [v |].
    + intros [= <-]. eexists. split; [reflexivity |].
      intros k Hk. now apply lookup_dict_set_other.
    + destruct (key_R c) as [v |].
      * destruct (lookup key t); [| discriminate].
        intros [= <-]. eexists. split; [reflexivity |].
        intros k Hk. now apply lookup_dict_del_other.
      * intros [= <-]. eauto.
Qed.

Lemma patch_items_missing (es : list (string * node))
      (t : list (string * value)) (k : string) (c : node) :
  NoDup (keys es) -> In (k, c) es -> needs_item c = true ->
  lookup k t = None ->
  exists e, patch_items es (VDict t) = Raise e.
Proof.
  intros Hnd Hin Hc. revert t Hnd Hin.
  induction es as [| [k' c'] rest IH]; intros t Hnd Hin Ht; [destruct Hin |].
  cbn [patch_items].
  inversion Hnd as [| ? ? Hk' Hrest]; subst.
  destruct Hin as [[= -> ->] | Hin].
  - unfold patch_dict_step, patch_key, del_key. rewrite Ht.
    unfold needs_item in Hc.
    destruct (has (key_D c) || has (key_N c)); [simpl; eauto |].
    destruct (key_A c); [discriminate |].
    destruct (key_R c); [simpl; eauto | discriminate].
  - destruct (patch_dict_step (fun x => patch x c') k' c' (VDict t))
      as [t1 | e] eqn:E; [| simpl; eauto].
    apply patch_dict_step_other in E as (t' & -> & Hother).
    cbn [bind]. apply IH; auto.
    rewrite Hother; auto. intros ->. apply Hk'.
    change k' with (fst (k', c)). now apply in_map.
Qed.

Lemma patch_items_on_list (es : list (string * node)) (l : list value) :
  existsb touches (map snd es) = true ->
  patch_items es (VList l) = Raise TypeError.
Proof.
  induction es as [| [k c] rest IH]; [discriminate |].
  cbn [map snd existsb patch_items]. unfold patch_dict_step, touches at 1.
  destruct (has (key_D c) || has (key_N c)); [reflexivity |].
  destruct (key_A c); [reflexivity |].
  destruct (key_R c); [reflexivity |]. simpl. exact IH.
Qed.

Lemma patch_each_on_dict (cs : list node) (d : list (string * value))
      (i j : Z) :
  existsb touches cs = true ->
  patch_each cs (VDict d, i, j) = Raise KeyError
  \/ patch_each cs (VDict d, i, j) = Raise AttributeError.
Proof.
  revert i j. induction cs as [| c rest IH]; intros i j; [discriminate |].
  cbn [existsb patch_each]. unfold patch_list_step, touches at 1.
  destruct (has (key_D c) || has (key_N c)); [left; reflexivity |].
  destruct (key_A c); [right; reflexivity |].
  destruct (key_R c); [left; reflexivity |]. simpl. apply IH.
Qed.

(** ** What [patch] leaves alone *)

Lemma patch_items_other (es : list (string * node))
      (t : list (string * value)) (t1 : value) :
  patch_items es (VDict t) = Ok t1 ->
  exists t', t1 = VDict t'
             /\ forall k, ~ In k (keys es) -> lookup k t' = lookup k t.
Proof.
  revert t. induction es as [| [k' c'] rest IH]; intros t; cbn [patch_items].
  - intros [= <-]. eauto.
  - destruct (patch_dict_step (fun x => patch x c') k' c' (VDict t))
      as [t2 | e] eqn:E; [| discriminate].
    apply patch_dict_step_other in E as (t' & -> & Hother).
    cbn [bind]. intros H. apply IH in H as (t'' & -> & Hrest).
    exists t''. split; auto. intros k Hk. simpl in Hk.
    rewrite Hrest, Hother; auto.
Qed.

Lemma norm_index_lt (len : nat) (i : Z) (n : nat) :
  norm_index len i = Some n -> n < len.
Proof.
  unfold norm_index.
  destruct (i <? 0)%Z eqn:E1;
    match goal with
    | |- context [(?x <? 0)%Z || (?y <=? ?x)%Z] =>
        destruct (x <? 0)%Z eqn:E2; destruct (y <=? x)%Z eqn:E3;
        try discriminate
    end;
    intros [= <-]; apply Z.ltb_ge in E2; apply Z.leb_gt in E3; lia.
Qed.

Lemma length_list_del {X : Type} (l : list X) (n : nat) :
  n < List.length l -> S (List.length (list_del l n)) = List.length l.
Proof.
  revert n. induction l as [| y t IH]; intros [| n]; simpl; try lia.
  intros H. rewrite IH; lia.
Qed.

Lemma length_list_insert {X : Type} (l : list X) (i : Z) (x : X) :
  List.length (list_insert l i x) = S (List.length l).
Proof.
  unfold list_insert.
  set (k := Z.to_nat (if (i <? 0)%Z
                      then Z.max 0 (i + Z.of_nat (List.length l))
                      else Z.min i (Z.of_nat (List.length l)))).
  rewrite length_app. cbn [List.length].
  rewrite <- (firstn_skipn k l) at 3. rewrite length_app. lia.
Qed.

Lemma patch_list_step_length (rec : value -> result value) (c : node)
      (l : list value) (i j : Z) (st : value * Z * Z) :
  patch_list_step rec c (VList l, i, j) = Ok st ->
  exists l', fst (fst st) = VList l'
             /\ List.length l' + (if deletes c then 1 else 0)
                = List.length l + (if inserts c then 1 else 0).
Proof.
  unfold patch_list_step, patch_index, insert_index, del_index.
  unfold inserts, deletes.
  destruct (has (key_D c) || has (key_N c)); cbn [negb andb].
  - destruct (norm_index (List.length l) _) as [n |]; [| discriminate].
    destruct (rec (nth n l VNone)) as [new | e]; [| discriminate].
    simpl. intros [= <-]. eexists. split; [reflexivity |].
    simpl. rewrite length_list_set. lia.
  - destruct (key_A c) as [v |]; cbn [has negb andb].
    + intros [= <-]. eexists. split; [reflexivity |].
      simpl. rewrite length_list_insert. lia.
    + destruct (key_R c) as [v |]; cbn [has].
      * destruct (norm_index (List.length l) _) as [n |] eqn:En;
          [| discriminate].
        intros [= <-]. eexists. split; [reflexivity |].
        apply norm_index_lt in En. apply length_list_del in En.
        simpl. lia.
      * intros [= <-]. eexists. split; [reflexivity |]. simpl. lia.
Qed.

Lemma patch_each_length (cs : list node) (l : list value) (i j : Z)
      (st : value * Z * Z) :
  patch_each cs (VList l, i, j) = Ok st ->
  exists l', fst (fst st) = VList l'
             /\ List.length l' + List.length (filter deletes cs)
                = List.length l + List.length (filter inserts cs).
Proof.
  revert l i j. induction cs as [| c rest IH]; intros l i j; cbn [patch_each].
  - intros [= <-]. exists l. simpl. auto.
  - destruct (patch_list_step (fun t => patch t c) c (VList l, i, j))
      as [[[t1 i1] j1] | e] eqn:E; [| discriminate].
    apply patch_list_step_length in E as (l1 & E1 & Hl1).
    simpl in E1. subst t1. cbn [bind]. intros H.
    apply IH in H as (l' & E' & Hl'). exists l'. split; auto.
    cbn [filter]. destruct (deletes c), (inserts c); simpl in *; lia.
Qed.

(** * The claims *)

(** C1 (forward round trip).  With added, new and removed items all
    recorded, whatever the other three options are, patching the first
    operand with the diff of the two gives a value equal to the second
    operand: [patch(a, diff(a, b)) == b]. *)
Theorem forward_round_trip (self : Differ) (a b : value) :
  op_a self = true -> op_n self = true -> op_r self = true ->
  wf a = true -> wf b = true ->
  exists a', patch a (diff self a b) = Ok a' /\ py_eq a' b = true.
Proof.
  intros Ha Hn Hr Hwa Hwb. now apply forward_all.
Qed.

Lemma forward_round_trip_witness :
  exists a',
    patch (VDict [("one", VList (ints [5; 7]%Z)); ("three", VBool true)])
          (diff (Build_Differ true true false true false false)
                (VDict [("one", VList (ints [5; 7]%Z)); ("three", VBool true)])
                (VDict [("three", VInt 1); ("one", VList (ints [5]%Z));
                        ("two", VInt 2)]))
    = Ok a'
    /\ py_eq a' (VDict [("three", VInt 1); ("one", VList (ints [5]%Z));
                        ("two", VInt 2)]) = true.
Proof.
  apply (forward_round_trip
           (Build_Differ true true false true false false)
           (VDict [("one", VList (ints [5; 7]%Z)); ("three", VBool true)])
           (VDict [("three", VInt 1); ("one", VList (ints [5]%Z));
                   ("two", VInt 2)]));
    reflexivity.
Defined.

(** C6 (trim independence).  With removed items replaced by [None] in the
    diff ([trimR]), and added, new and removed items recorded, patching the
    first operand with the diff still gives a value equal to the second. *)
Theorem trim_round_trip (self : Differ) (a b : value) :
  op_trim_r self = true ->
  op_a self = true -> op_n self = true -> op_r self = true ->
  wf a = true -> wf b = true ->
  exists a', patch a (diff self a b) = Ok a' /\ py_eq a' b = true.
Proof.
  intros _ Ha Hn Hr Hwa Hwb. now apply forward_all.
Qed.

Lemma trim_round_trip_witness :
  exists a',
    patch (VList (ints [0; 1; 2; 3]%Z))
          (diff (Build_Differ true true true true true true)
                (VList (ints [0; 1; 2; 3]%Z)) (VList (ints [1; 2; 4; 5]%Z)))
    = Ok a'
    /\ py_eq a' (VList (ints [1; 2; 4; 5]%Z)) = true.
Proof.
  apply (trim_round_trip (Build_Differ true true true true true true)
                         (VList (ints [0; 1; 2; 3]%Z))
                         (VList (ints [1; 2; 4; 5]%Z)));
    reflexivity.
Defined.

(** C8 (the example in the docstring of [diff_lists]).  With [O] and [U]
    off, the diff of [[0, 1, 2, 3]] and [[1, 2, 4, 5]] is
    [{'D': [{'R': 0}, {'N': 4, 'I': 3}, {'A': 5}]}]. *)
Theorem diff_lists_doc_example :
  diff (Build_Differ true true false true false false)
       (VList (ints [0; 1; 2; 3]%Z)) (VList (ints [1; 2; 4; 5]%Z))
  = diff_D (PList [diff_R (VInt 0); set_I (diff_N (VInt 4)) 3; diff_A (VInt 5)]).
Proof. reflexivity. Qed.

(** C10 (a ['D'] is never empty).  In every diff the differ builds, through
    [diff], [diff_dicts] or [diff_lists] and at any depth, a ['D'] key
    holds a non-empty dict or a non-empty list of subdiffs; when nothing is
    recorded the key is deleted and the diff is the empty dict. *)
Theorem D_never_empty (self : Differ) :
  (forall a b, payload_ok (diff self a b) = true)
  /\ (forall a b, payload_ok (diff_dicts self a b) = true)
  /\ (forall a b, payload_ok (diff_lists self a b) = true)
  /\ (forall a b, key_D (diff_dicts self a b) = None ->
                  diff_dicts self a b = empty_node)
  /\ (forall a b, key_D (diff_lists self a b) = None ->
                  diff_lists self a b = empty_node).
Proof.
  repeat split.
  - apply diff_payload_ok.
  - intros a b. apply diff_dicts_payload_ok. intros. apply diff_payload_ok.
  - intros a b. apply diff_lists_payload_ok. intros. apply diff_payload_ok.
  - intros a b. unfold diff_dicts, diff_dicts_with.
    destruct (fold_left _ _ _); [reflexivity | discriminate].
  - intros a b. unfold diff_lists, diff_lists_with.
    destruct (ret_D _); [reflexivity | discriminate].
Qed.

(** C5 (index minimality).  With all five operations recorded, no subdiff
    of the ['D'] list of a list diff carries ['I'], the first one
    included; this holds for [diff_lists] and for [diff] on two lists. *)
Theorem no_index_when_all_on (trimR : bool) (a b : list value) (c : node) :
  let self := Build_Differ true true true true true trimR in
  (In c (children (diff_lists self a b)) -> key_I c = None)
  /\ (In c (children (diff self (VList a) (VList b))) -> key_I c = None).
Proof.
  intros self.
  destruct (children_untagged self eq_refl eq_refl eq_refl eq_refl a b)
    as [H1 H2].
  rewrite Forall_forall in H1, H2. split; auto.
Qed.

(** C4 (key coverage).  With added and removed items recorded, and new or
    old values, the keys of the ['D'] dict that [diff_dicts] builds are
    exactly: the keys in one operand only, the keys whose values differ,
    and, when [U] is on, the keys whose values are equal.  A key in
    neither operand is never there. *)
Theorem key_coverage (self : Differ) (a b : list (string * value)) (k : string) :
  op_a self = true -> op_r self = true -> op_n self || op_o self = true ->
  wf (VDict a) = true -> wf (VDict b) = true ->
  In k (D_keys (diff_dicts self a b)) <->
  match lookup k a, lookup k b with
  | Some av, Some bv => py_eq av bv = false \/ op_u self = true
  | Some _, None => True
  | None, Some _ => True
  | None, None => False
  end.
Proof.
  intros Ha Hr Hno Hwa Hwb. now apply diff_dicts_coverage.
Qed.

Lemma key_coverage_witness :
  In "two" (D_keys (diff_dicts (Build_Differ true true false true false false)
                               [("one", VInt 1); ("two", VInt 2);
                                ("three", VInt 3)]
                               [("one", VInt 1); ("two", VInt 42)]))
  <-> (py_eq (VInt 2) (VInt 42) = false \/ false = true).
Proof.
  apply (key_coverage (Build_Differ true true false true false false)
                      [("one", VInt 1); ("two", VInt 2); ("three", VInt 3)]
                      [("one", VInt 1); ("two", VInt 42)] "two");
    reflexivity.
Defined.

(** C7, as claimed, fails: [patch] also raises [NotImplementedError] on a
    diff whose own ['D'] is a dict, when the recursive call on a subdiff
    raises it. *)
Lemma nested_unsupported_raises :
  patch (VDict [("k", VInt 1)])
        (diff_D (PDict [("k", diff_D (POther (VInt 5)))]))
  = Raise NotImplementedError
  /\ ~ (forall t n, patch t n = Raise NotImplementedError <->
                    exists v, key_D n = Some (POther v)).
Proof.
  split; [reflexivity |]. intros H.
  destruct (proj1 (H (VDict [("k", VInt 1)])
                     (diff_D (PDict [("k", diff_D (POther (VInt 5)))])))
                  eq_refl) as [v Hv].
  discriminate.
Qed.

(** C7, amended.  [patch] raises [NotImplementedError] at once when the
    ['D'] of the diff is neither a dict nor a list; a diff without ['D']
    never raises anything; and whenever [patch] raises
    [NotImplementedError], some diff reached through ['D'] keys holds such
    a ['D']. *)
Theorem unsupported_raises :
  (forall t n v, key_D n = Some (POther v) ->
                 patch t n = Raise NotImplementedError)
  /\ (forall t n, key_D n = None -> exists t', patch t n = Ok t')
  /\ (forall t n, patch t n = Raise NotImplementedError ->
                  unsupported n = true).
Proof.
  repeat split.
  - intros t n v H. rewrite patch_eq, H. reflexivity.
  - intros t n H. rewrite patch_eq, H. destruct (key_N n); eauto.
  - intros t n. apply patch_unsupported.
Qed.

(** C3, as claimed, fails: the items of a matching block are not stepped
    over.  For [[1, 2]] against [[1, 3]] the blocks are [(0, 0, 1)] and the
    sentinel; walking the first block leaves the cursors at [(0, 0)], and
    the pairing loop of the sentinel then takes the matched pair [1, 1]
    and, [U] being on, records it. *)
Lemma matched_item_is_emitted :
  let a := ints [1; 2]%Z in
  let b := ints [1; 3]%Z in
  let w0 := {| ret_D := []; cur_i := 0; cur_j := 0; force_index := false |} in
  lcs_blocks a b = [(0, 0, 1); (2, 2, 0)]
  /\ walk_block default_Differ (diff default_Differ) a b w0 (0, 0, 1) = w0
  /\ ret_D (while_changed (diff default_Differ) 1 a b 2 2 w0)
     = [diff_U (VInt 1)]
  /\ diff_lists default_Differ a b
     = diff_D (PList [diff_U (VInt 1); set_O (diff_N (VInt 3)) (VInt 2)])
  /\ ~ (forall self a b ai bj k t c,
           In (ai, bj, k) (lcs_blocks a b) -> t < k ->
           In c (children (diff_lists self a b)) ->
           key_U c <> Some (nth (ai + t) a VNone)).
Proof.
  repeat split; try reflexivity.
  intros H.
  apply (H default_Differ (ints [1; 2]%Z) (ints [1; 3]%Z) 0 0 1 0
           (diff_U (VInt 1))).
  - simpl. auto.
  - lia.
  - simpl. auto.
  - reflexivity.
Qed.

(** C3, amended.  Walking a block moves the cursors to its start and no
    further, whatever its length.  A run of [k] pairwise equal items at
    the cursors is gone through by the pairing loop
    ([while i < ai and j < bj]) of a later block: its first [k] turns
    write one ['U'] diff per item when [U] is on; when [U] is off they
    write nothing and leave [force_index] raised. *)
Theorem matched_items_are_paired (self : Differ) (a b : list value) (w : walk)
        (ai bj k : nat) :
  cur_i w + k <= ai -> cur_j w + k <= bj ->
  (forall t, t < k ->
             py_eq (nth (cur_i w + t) a VNone) (nth (cur_j w + t) b VNone)
             = true) ->
  walk_block self (diff self) a b w (cur_i w, cur_j w, k) = w
  /\ exists w' new,
      while_changed (diff self) (ai - cur_i w) a b ai bj w
      = while_changed (diff self) (ai - cur_i w - k) a b ai bj w'
      /\ cur_i w' = cur_i w + k /\ cur_j w' = cur_j w + k
      /\ ret_D w' = ret_D w ++ new
      /\ (op_u self = true ->
          List.length new = k
          /\ forall t, t < k ->
                       key_U (nth t new empty_node)
                       = Some (nth (cur_i w + t) a VNone))
      /\ (op_u self = false -> new = [])
      /\ (0 < k -> force_index w' = negb (op_u self)).
Proof.
  intros Hi Hj Heq. split.
  - unfold walk_block. rewrite Nat.sub_diag. cbn [while_changed].
    rewrite Nat.sub_diag. cbn [while_removed].
    rewrite Nat.sub_diag. reflexivity.
  - destruct (turns_equal self a b k w Heq) as (new & H).
    destruct (turns_cursors self a b k w) as [Ti Tj].
    exists (turns self a b k w), new. repeat split; try tauto.
    now apply while_changed_turns.
Qed.

Lemma matched_items_are_paired_witness :
  let a := ints [1; 2]%Z in
  let b := ints [1; 3]%Z in
  let w := {| ret_D := []; cur_i := 0; cur_j := 0; force_index := false |} in
  walk_block default_Differ (diff default_Differ) a b w (cur_i w, cur_j w, 1) = w
  /\ exists w' new,
      while_changed (diff default_Differ) (2 - cur_i w) a b 2 2 w
      = while_changed (diff default_Differ) (2 - cur_i w - 1) a b 2 2 w'
      /\ cur_i w' = cur_i w + 1 /\ cur_j w' = cur_j w + 1
      /\ ret_D w' = ret_D w ++ new
      /\ (op_u default_Differ = true ->
          List.length new = 1
          /\ forall t, t < 1 ->
                       key_U (nth t new empty_node)
                       = Some (nth (cur_i w + t) a VNone))
      /\ (op_u default_Differ = false -> new = [])
      /\ (0 < 1 -> force_index w' = negb (op_u default_Differ)).
Proof.
  intros a b w.
  apply (matched_items_are_paired default_Differ a b w 2 2 1).
  - simpl. lia.
  - simpl. lia.
  - intros t Ht. assert (t = 0) as -> by lia. reflexivity.
Defined.

(** C2, as claimed, fails: equal values need not have equal pickles.
    [True == 1], yet one is pickled as [NEWTRUE] and the other as an
    integer; and two dicts with the same items written in a different
    order are equal and pickle differently. *)
Lemma equal_values_distinct_pickles :
  py_eq (VBool true) (VInt 1) = true
  /\ dumps (VBool true) <> dumps (VInt 1)
  /\ py_eq (VDict [("a", VInt 1); ("b", VInt 2)])
           (VDict [("b", VInt 2); ("a", VInt 1)]) = true
  /\ dumps (VDict [("a", VInt 1); ("b", VInt 2)])
     <> dumps (VDict [("b", VInt 2); ("a", VInt 1)])
  /\ ~ (forall x y, dumps x = dumps y <-> py_eq x y = true).
Proof.
  repeat split; try reflexivity; try discriminate.
  intros H. pose proof (proj2 (H (VBool true) (VInt 1)) eq_refl). discriminate.
Qed.

(** C2, amended.  The pickle never confuses two values: values with equal
    pickles are identical, hence equal.  (Equal values may have different
    pickles.) *)
Theorem equal_pickles_equal_values (x y : value) :
  wf x = true -> wf y = true ->
  dumps x = dumps y -> x = y /\ py_eq x y = true.
Proof.
  intros Hx Hy E. pose proof (dumps_injective x y Hx Hy E) as ->.
  split; [reflexivity | now apply py_eq_refl].
Qed.

Lemma equal_pickles_equal_values_witness :
  VList [VInt 1; VDict [("a", VNone)]] = VList [VInt 1; VDict [("a", VNone)]]
  /\ py_eq (VList [VInt 1; VDict [("a", VNone)]])
           (VList [VInt 1; VDict [("a", VNone)]]) = true.
Proof.
  apply (equal_pickles_equal_values (VList [VInt 1; VDict [("a", VNone)]])
                                    (VList [VInt 1; VDict [("a", VNone)]]));
    reflexivity.
Defined.

(** C9 ([diff] does not mutate its operands).  Whenever [Differ.diff]
    returns, with any options, every object that was in the store before
    the call is unchanged: the differ writes only to the dicts, lists and
    integers it has allocated itself.  So both operands, and everything
    reachable from them, hold the values they held before; and the diff
    returned is a new object. *)
Theorem diff_leaves_operands (fuel : nat) (self : Differ) (a b r : Store.loc)
        (s s' : Store.store) :
  Store.diff fuel self a b s = Some (r, s') ->
  (forall l o, nth_error s l = Some o -> nth_error s' l = Some o)
  /\ (forall n l v, Store.read n s l = Some v -> Store.read n s' l = Some v)
  /\ List.length s <= r.
Proof.
  intros E. pose proof (store_diff_fresh fuel self a b s) as H.
  unfold post in H. rewrite E in H. destruct H as ([L K] & R1 & R2).
  assert (forall l o, nth_error s l = Some o -> nth_error s' l = Some o) as Hk.
  { intros l o Ho. rewrite K; auto. apply nth_error_Some. congruence. }
  repeat split; auto. apply read_kept, Hk.
Qed.

Lemma diff_leaves_operands_witness :
  let s := [Store.OInt 1; Store.OList [0]; Store.OInt 2; Store.OList [2]] in
  let s' := s ++ [Store.OList [6]; Store.ODict [("D", 4)];
                  Store.ODict [("N", 2); ("O", 0)]] in
  (forall l o, nth_error s l = Some o -> nth_error s' l = Some o)
  /\ (forall n l v, Store.read n s l = Some v -> Store.read n s' l = Some v)
  /\ List.length s <= 5.
Proof.
  intros s s'.
  apply (diff_leaves_operands 2 default_Differ 1 3 5 s s').
  reflexivity.
Defined.

(** * Further properties *)

(** X1.  Whatever the options and the operands, the diff that
    [Differ.diff] computes for [a] and [b] applies to [a]: [patch] returns
    a value and raises nothing. *)
Theorem diff_always_applies (self : Differ) (a b : value) :
  exists a', patch a (diff self a b) = Ok a'.
Proof. apply diff_applies. Qed.

(** X2.  What [patch] makes of [a] with the diff of [a] and [b] depends on
    the options A, N and R alone: two differs that agree on these three,
    however O, U and trimR are set, give diffs that patch [a] to the same
    value. *)
Theorem patch_result_needs_A_N_R_only (self1 self2 : Differ) (a b : value) :
  op_a self1 = op_a self2 -> op_n self1 = op_n self2 ->
  op_r self1 = op_r self2 ->
  patch a (diff self1 a b) = patch a (diff self2 a b).
Proof. intros Ha Hn Hr. now apply diff_alike. Qed.

Lemma patch_result_needs_A_N_R_only_witness :
  patch (VList (ints [0; 1; 2; 3]%Z))
        (diff default_Differ (VList (ints [0; 1; 2; 3]%Z))
              (VList (ints [1; 2; 4; 5]%Z)))
  = patch (VList (ints [0; 1; 2; 3]%Z))
          (diff (Build_Differ true true false true false true)
                (VList (ints [0; 1; 2; 3]%Z)) (VList (ints [1; 2; 4; 5]%Z))).
Proof.
  apply (patch_result_needs_A_N_R_only
           default_Differ (Build_Differ true true false true false true));
    reflexivity.
Defined.

(** X3.  [patch] reads the keys A, D, I and N of a diff and whether R is
    there.  Dropping every O and every U from a diff, and replacing the
    value under every R by [None], at any depth, changes nothing to what
    [patch] returns or raises, for any diff and any target. *)
Theorem patch_reads_edits_only (target : value) (n : node) :
  patch target (edits n) = patch target n.
Proof. apply patch_edits. Qed.

(** X4.  [trimR] changes the values under R and nothing else: the diff
    computed with [trimR=True] is the diff computed with [trimR=False]
    in which the value under every R, at any depth, is replaced by
    [None]. *)
Theorem trimR_blanks_removed_values (self : Differ) (a b : value) :
  diff (with_trimR self true) a b = trimmed (diff (with_trimR self false) a b).
Proof. now apply diff_trim. Qed.

(** X5.  A diff holds no key whose operation is switched off: every A, N,
    O, R and U, at any depth of the diff, is one that the differ was
    constructed to write. *)
Theorem only_enabled_keys (self : Differ) (a b : value) :
  all_nodes (enabled self) (diff self a b) = true.
Proof. apply enabled_all. Qed.

(** X6.  A diff is empty, or it has one status and so has every subdiff
    in it: A alone, R alone, U alone, D alone, or N and O (either or
    both).  Under D is a dict or a list of subdiffs; an index I is found
    only on subdiffs of a list, never on the diff returned nor on the
    subdiffs of a dict. *)
Theorem one_status_per_diff (self : Differ) (a b : value) :
  diff self a b = empty_node
  \/ (well_shaped (diff self a b) = true /\ key_I (diff self a b) = None).
Proof.
  destruct (truthy (diff self a b)) eqn:E.
  - right. split; [now apply shaped_all | apply diff_shape].
  - left. now apply truthy_empty.
Qed.

(** X7.  The indices in a diff of lists: read in order, the values under
    I strictly increase, and each lies between 0 and the length of the
    first list. *)
Theorem list_indices_grow (self : Differ) (a b : list value) :
  StronglySorted Z.lt (I_values (children (diff_lists self a b)))
  /\ Forall (fun i => (0 <= i <= Z.of_nat (List.length a))%Z)
            (I_values (children (diff_lists self a b))).
Proof.
  unfold diff_lists. rewrite children_diff_lists.
  destruct (walk_indices_grow self (diff self) a b) as (H1 & H2 & _).
  - intros x y. apply diff_shape.
  - destruct (walk_blocks_cursors self (diff self) a b) as [E _].
    rewrite E in H2. auto.
Qed.

(** X8.  With every operation on, a diff of lists has one subdiff for
    each item of either list: the subdiffs other than A are as many as the
    items of the first list, the subdiffs other than R as many as the
    items of the second. *)
Theorem every_item_accounted (self : Differ) (a b : list value) :
  op_a self = true -> op_r self = true -> op_u self = true ->
  op_n self || op_o self = true ->
  List.length (not_added (children (diff_lists self a b))) = List.length a
  /\ List.length (not_removed (children (diff_lists self a b)))
     = List.length b.
Proof.
  intros Ha Hr Hu Hno. unfold diff_lists. rewrite children_diff_lists.
  destruct (walk_accounted self (diff self) a b Ha Hr) as [H1 H2].
  - intros x y. destruct (diff_shape self x y) as (SA & SR & _).
    split; auto. now apply truthy_all_on.
  - destruct (walk_blocks_cursors self (diff self) a b) as [Ei Ej].
    split; congruence.
Qed.

Lemma every_item_accounted_witness :
  List.length (not_added (children (diff_lists default_Differ
                                               (ints [0; 1; 2; 3]%Z)
                                               (ints [1; 2; 4; 5]%Z))))
  = List.length (ints [0; 1; 2; 3]%Z)
  /\ List.length (not_removed (children (diff_lists default_Differ
                                                    (ints [0; 1; 2; 3]%Z)
                                                    (ints [1; 2; 4; 5]%Z))))
     = List.length (ints [1; 2; 4; 5]%Z).
Proof.
  apply (every_item_accounted default_Differ); reflexivity.
Defined.

(** X9.  What [diff_dicts] stores under a key depends on that key alone.
    For a key of both dicts: U with the value when the two values are
    equal and U is on, else their diff unless it is empty.  For a key of
    the first dict only: R with its value ([None] under trimR) when R is
    on.  For a key of the second only: A with its value when A is on.
    In every other case the key is not in the diff. *)
Theorem subdiff_under_key (self : Differ) (a b : list (string * value))
        (k : string) :
  D_lookup (diff_dicts self a b) k
  = match lookup k a, lookup k b with
    | Some av, Some bv =>
        if py_eq av bv
        then if op_u self then Some (diff_U av) else None
        else if truthy (diff self av bv) then Some (diff self av bv) else None
    | Some av, None =>
        if op_r self
        then Some (diff_R (if op_trim_r self then VNone else av))
        else None
    | None, Some bv => if op_a self then Some (diff_A bv) else None
    | None, None => None
    end.
Proof. apply D_lookup_dicts. Qed.

(** X10.  With A, R and one of N and O on, and U off, the diff of two
    values is empty exactly when the values are equal. *)
Theorem empty_diff_iff_equal (self : Differ) (a b : value) :
  op_a self = true -> op_r self = true -> op_n self || op_o self = true ->
  op_u self = false ->
  wf a = true -> wf b = true ->
  diff self a b = empty_node <-> py_eq a b = true.
Proof.
  intros Ha Hr Hno Hu Hwa Hwb. split.
  - intros E. destruct (py_eq a b) eqn:Eab; auto.
    pose proof (diff_changed self Ha Hr Hno a b Hwa Hwb Eab) as H.
    rewrite E in H. discriminate.
  - intros E. now rewrite (diff_equal self a b E), Hu.
Qed.

Lemma empty_diff_iff_equal_witness :
  diff (Build_Differ true true true true false false)
       (VList [VInt 1; VBool true]) (VList [VBool true; VInt 1]) = empty_node
  <-> py_eq (VList [VInt 1; VBool true]) (VList [VBool true; VInt 1]) = true.
Proof.
  apply (empty_diff_iff_equal (Build_Differ true true true true false false));
    reflexivity.
Defined.

(** X11.  A dict against the empty dict: the diff is D alone, holding for
    each key of the dict, and for no other key, R with the key's value,
    whole and however deep ([None] under trimR); with R off the diff is
    empty. *)
Theorem dict_against_empty_dict (self : Differ) (e : string * value)
        (a : list (string * value)) :
  wf (VDict (e :: a)) = true ->
  exists es,
    diff self (VDict (e :: a)) (VDict [])
    = (if op_r self then diff_D (PDict es) else empty_node)
    /\ forall k,
        lookup k es
        = option_map (fun v => diff_R (if op_trim_r self then VNone else v))
                     (lookup k (e :: a)).
Proof.
  intros Hwf.
  exists (on_entries (fun v => diff_R (if op_trim_r self then VNone else v))
                     (e :: a)).
  split; [| intros k; apply lookup_on_entries].
  rewrite diff_eq, py_eq_dict. cbn [List.length Nat.eqb andb].
  now apply diff_dicts_all_removed.
Qed.

Lemma dict_against_empty_dict_witness :
  exists es,
    diff default_Differ
         (VDict [("one", VDict [("two", VDict [("three", VInt 3)])])])
         (VDict [])
    = (if op_r default_Differ then diff_D (PDict es) else empty_node)
    /\ forall k,
        lookup k es
        = option_map
            (fun v => diff_R (if op_trim_r default_Differ then VNone else v))
            (lookup k [("one", VDict [("two", VDict [("three", VInt 3)])])]).
Proof.
  apply (dict_against_empty_dict
           default_Differ
           ("one", VDict [("two", VDict [("three", VInt 3)])]) []).
  reflexivity.
Defined.

(** X12.  The empty dict against a dict: the diff is D alone, holding for
    each key of the dict, and for no other key, A with the key's value;
    with A off the diff is empty. *)
Theorem empty_dict_against_dict (self : Differ) (e : string * value)
        (b : list (string * value)) :
  wf (VDict (e :: b)) = true ->
  exists es,
    diff self (VDict []) (VDict (e :: b))
    = (if op_a self then diff_D (PDict es) else empty_node)
    /\ forall k, lookup k es = option_map diff_A (lookup k (e :: b)).
Proof.
  intros Hwf. exists (on_entries diff_A (e :: b)).
  split; [| intros k; apply lookup_on_entries].
  rewrite diff_eq, py_eq_dict. cbn [List.length Nat.eqb andb].
  now apply diff_dicts_all_added.
Qed.

Lemma empty_dict_against_dict_witness :
  exists es,
    diff default_Differ (VDict []) (VDict [("one", VInt 1); ("two", VList [])])
    = (if op_a default_Differ then diff_D (PDict es) else empty_node)
    /\ forall k,
        lookup k es
        = option_map diff_A (lookup k [("one", VInt 1); ("two", VList [])]).
Proof.
  apply (empty_dict_against_dict default_Differ ("one", VInt 1)
                                 [("two", VList [])]).
  reflexivity.
Defined.

(** X13.  A list against the empty list: the diff holds one R for each
    item, in order, with the item ([None] under trimR) and no index; with
    R off the diff is empty. *)
Theorem list_against_empty_list (self : Differ) (x : value) (a : list value) :
  diff self (VList (x :: a)) (VList [])
  = if op_r self
    then diff_D (PList (map (fun v => diff_R
                                        (if op_trim_r self then VNone else v))
                            (x :: a)))
    else empty_node.
Proof.
  rewrite diff_eq, py_eq_list. cbn [list_eq].
  unfold diff_lists, diff_lists_with. rewrite diff_lists_all_removed.
  now destruct (op_r self).
Qed.

(** X14.  The empty list against a list: the diff holds one A for each
    item, in order, with the item and no index; with A off the diff is
    empty. *)
Theorem empty_list_against_list (self : Differ) (y : value) (b : list value) :
  diff self (VList []) (VList (y :: b))
  = if op_a self then diff_D (PList (map diff_A (y :: b))) else empty_node.
Proof.
  rewrite diff_eq, py_eq_list. cbn [list_eq].
  unfold diff_lists, diff_lists_with. rewrite diff_lists_all_added.
  now destruct (op_a self).
Qed.

(** X15.  [patch] changes lists and dicts only.  On a target that is
    neither, whatever the diff, it raises, or returns the target as it is,
    or, for a diff without D, returns the value under N. *)
Theorem plain_target_unchanged (target t' : value) (n : node) :
  container target = false -> patch target n = Ok t' ->
  t' = target \/ (key_D n = None /\ key_N n = Some t').
Proof. apply patch_plain. Qed.

Lemma plain_target_unchanged_witness :
  VInt 5 = VInt 5
  \/ (key_D (diff_D (PDict [("k", diff_U (VInt 1))])) = None
      /\ key_N (diff_D (PDict [("k", diff_U (VInt 1))])) = Some (VInt 5)).
Proof.
  apply (plain_target_unchanged (VInt 5) (VInt 5)
                                (diff_D (PDict [("k", diff_U (VInt 1))])));
    reflexivity.
Defined.

(** X16.  After patching there is nothing left to change.  With A, N and
    R on, the diff between the value that [patch] made of [a] and [b] is
    the diff of equal values: U alone with that value, or empty when U is
    off. *)
Theorem nothing_left_after_patch (self : Differ) (a b a' : value) :
  op_a self = true -> op_n self = true -> op_r self = true ->
  wf a = true -> wf b = true ->
  patch a (diff self a b) = Ok a' ->
  diff self a' b = if op_u self then diff_U a' else empty_node.
Proof.
  intros Ha Hn Hr Hwa Hwb Hp.
  destruct (forward_all self Ha Hn Hr a b Hwa Hwb) as (a'' & Hp' & E).
  rewrite Hp in Hp'. injection Hp' as <-. now apply diff_equal.
Qed.

Lemma nothing_left_after_patch_witness :
  diff default_Differ (VList (ints [1; 2; 4; 5]%Z))
       (VList (ints [1; 2; 4; 5]%Z))
  = if op_u default_Differ then diff_U (VList (ints [1; 2; 4; 5]%Z))
    else empty_node.
Proof.
  apply (nothing_left_after_patch default_Differ (VList (ints [0; 1; 2; 3]%Z)));
    reflexivity.
Defined.

(** X17.  A diff of dicts asks for the keys it changes.  When a subdiff
    under D has D or N, or has R and no A, and its key is not in the
    target dict, [patch] raises. *)
Theorem missing_key_raises (t : list (string * value)) (n : node)
        (es : list (string * node)) (k : string) (c : node) :
  key_D n = Some (PDict es) -> NoDup (keys es) ->
  In (k, c) es -> needs_item c = true -> lookup k t = None ->
  exists e, patch (VDict t) n = Raise e.
Proof.
  intros HD Hnd Hin Hc Ht. rewrite patch_eq, HD.
  now apply (patch_items_missing es t k c).
Qed.

Lemma missing_key_raises_witness :
  exists e, patch (VDict [("one", VInt 1)])
                  (diff_D (PDict [("one", diff_U (VInt 1));
                                  ("two", diff_R (VInt 2))]))
            = Raise e.
Proof.
  apply (missing_key_raises
           [("one", VInt 1)]
           (diff_D (PDict [("one", diff_U (VInt 1)); ("two", diff_R (VInt 2))]))
           [("one", diff_U (VInt 1)); ("two", diff_R (VInt 2))]
           "two" (diff_R (VInt 2))).
  - reflexivity.
  - apply nodup_keys_NoDup. reflexivity.
  - simpl. auto.
  - reflexivity.
  - reflexivity.
Defined.

(** X18.  A dict of subdiffs does not apply to a list: when D holds a
    dict in which some subdiff has A, D, N or R, [patch] on a list raises
    [TypeError]. *)
Theorem dict_diff_on_list_raises (l : list value) (n : node)
        (es : list (string * node)) :
  key_D n = Some (PDict es) -> existsb touches (map snd es) = true ->
  patch (VList l) n = Raise TypeError.
Proof.
  intros HD Hes. rewrite patch_eq, HD. now apply patch_items_on_list.
Qed.

Lemma dict_diff_on_list_raises_witness :
  patch (VList [VInt 1])
        (diff_D (PDict [("one", diff_U (VInt 1)); ("two", diff_A (VInt 2))]))
  = Raise TypeError.
Proof.
  apply (dict_diff_on_list_raises
           [VInt 1] _ [("one", diff_U (VInt 1)); ("two", diff_A (VInt 2))]);
    reflexivity.
Defined.

(** X19.  A list of subdiffs does not apply to a dict: when D holds a
    list in which some subdiff has A, D, N or R, [patch] on a dict raises
    [KeyError] (for an item it reads or deletes) or [AttributeError] (for
    an item it inserts). *)
Theorem list_diff_on_dict_raises (d : list (string * value)) (n : node)
        (cs : list node) :
  key_D n = Some (PList cs) -> existsb touches cs = true ->
  patch (VDict d) n = Raise KeyError
  \/ patch (VDict d) n = Raise AttributeError.
Proof.
  intros HD Hcs. rewrite patch_eq, HD.
  destruct (patch_each_on_dict cs d 0%Z 0%Z Hcs) as [-> | ->]; auto.
Qed.

Lemma list_diff_on_dict_raises_witness :
  patch (VDict [("one", VInt 1)]) (diff_D (PList [diff_A (VInt 2)]))
  = Raise KeyError
  \/ patch (VDict [("one", VInt 1)]) (diff_D (PList [diff_A (VInt 2)]))
     = Raise AttributeError.
Proof.
  apply (list_diff_on_dict_raises
           [("one", VInt 1)] _ [diff_A (VInt 2)]);
    reflexivity.
Defined.

(** X20.  [patch] with a dict of subdiffs changes only the keys the dict
    names: when it returns, the result is a dict in which every other key
    holds what it held in the target, and is absent if it was absent. *)
Theorem patch_leaves_other_keys (t : list (string * value)) (n : node)
        (es : list (string * node)) (t1 : value) :
  key_D n = Some (PDict es) -> patch (VDict t) n = Ok t1 ->
  exists t', t1 = VDict t'
             /\ forall k, ~ In k (keys es) -> lookup k t' = lookup k t.
Proof.
  intros HD. rewrite patch_eq, HD. apply patch_items_other.
Qed.

Lemma patch_leaves_other_keys_witness :
  exists t', VDict [("one", VInt 1); ("two", VInt 42)] = VDict t'
             /\ forall k, ~ In k (keys [("two", diff_N (VInt 42));
                                        ("three", diff_R (VInt 3))]) ->
                          lookup k t'
                          = lookup k [("one", VInt 1); ("two", VInt 2);
                                      ("three", VInt 3)].
Proof.
  apply (patch_leaves_other_keys
           [("one", VInt 1); ("two", VInt 2); ("three", VInt 3)]
           (diff_D (PDict [("two", diff_N (VInt 42));
                           ("three", diff_R (VInt 3))]))
           [("two", diff_N (VInt 42)); ("three", diff_R (VInt 3))]);
    reflexivity.
Defined.

(** X21.  [patch] with a list of subdiffs makes the list one longer for
    each subdiff it inserts for (A, with neither D nor N) and one shorter
    for each it deletes for (R, with none of A, D and N); every other
    subdiff leaves the length as it is. *)
Theorem patch_list_length (l : list value) (n : node) (cs : list node)
        (t1 : value) :
  key_D n = Some (PList cs) -> patch (VList l) n = Ok t1 ->
  exists l', t1 = VList l'
             /\ List.length l' + List.length (filter deletes cs)
                = List.length l + List.length (filter inserts cs).
Proof.
  intros HD. rewrite patch_eq, HD.
  destruct (patch_each cs (VList l, 0%Z, 0%Z)) as [st | e] eqn:E;
    [| discriminate].
  apply patch_each_length in E as (l' & E' & Hl').
  simpl. intros [= <-]. eauto.
Qed.

Lemma patch_list_length_witness :
  exists l', VList (ints [1; 2; 4; 5]%Z) = VList l'
             /\ List.length l'
                + List.length
                    (filter deletes
                            [diff_R (VInt 0); set_I (diff_N (VInt 4)) 3;
                             diff_A (VInt 5)])
                = List.length (ints [0; 1; 2; 3]%Z)
                  + List.length
                      (filter inserts
                              [diff_R (VInt 0); set_I (diff_N (VInt 4)) 3;
                               diff_A (VInt 5)]).
Proof.
  apply (patch_list_length
           (ints [0; 1; 2; 3]%Z)
           (diff_D (PList [diff_R (VInt 0); set_I (diff_N (VInt 4)) 3;
                           diff_A (VInt 5)]))
           [diff_R (VInt 0); set_I (diff_N (VInt 4)) 3; diff_A (VInt 5)]);
    reflexivity.
Defined.
